(** * RSA key recovery: a shallow embedding of [solve.py]

    The Python program recovers an RSA plaintext from a public key
    [(e, n)] and a ciphertext [c].  It first tries Wiener's
    continued-fraction attack and then falls back to factoring the
    modulus with Pollard's p-1, Brent's variant of Pollard's rho and
    Fermat's method.

    Python integers are unbounded, so they are modelled by [Z]; [//] and
    [%] are floor division and the remainder with the sign of the divisor,
    which is what [Z.div] and [Z.modulo] compute for a nonzero divisor.
    A Python exception becomes a value of type [result].  The one
    recursive function, [egcd], is given the number of nested calls that
    the interpreter's recursion limit still allows, and raises
    [RecursionError] when it needs more. *)

From Stdlib Require Import ZArith Znumtheory Lia List Bool Arith PeanoNat.
From Stdlib Require Import Strings.Byte Sorting.Permutation.
From Stdlib Require Import Zmod.ZmodInv.
Import ListNotations.

#[local] Open Scope Z_scope.

(** ** Outcomes of a call *)

(** The exceptions the program can meet. *)
Inductive exn : Set :=
| ZeroDivisionError
| ValueError
| IndexError
| RecursionError.

(** A call either returns, raises, or exhausts the step budget that the
    model gives to a [while] loop.  [pollards_rho_budget] below shows that
    the last outcome never arises. *)
Inductive result (A : Type) : Type :=
| Ok (a : A)
| Raise (e : exn)
| OutOfFuel.

Arguments Ok {A} a.
Arguments Raise {A} e.
Arguments OutOfFuel {A}.

Definition bind {A B : Type} (m : result A) (k : A -> result B) : result B :=
  match m with
  | Ok a => k a
  | Raise e => Raise e
  | OutOfFuel => OutOfFuel
  end.

Notation "x <- m ;; k" := (bind m (fun x => k))
  (at level 61, m at next level, right associativity).

(** [returns m] : the call came back with an ordinary value. *)
Definition returns {A : Type} (m : result A) : Prop := exists a, m = Ok a.

(** ** Built-in functions used by the program *)

(** [math.isqrt]: the floor of the square root; [ValueError] below zero. *)
Definition isqrt (n : Z) : result Z :=
  if n <? 0 then Raise ValueError else Ok (Z.sqrt n).

(** Square-and-multiply, reducing after every multiplication. *)
Fixpoint powmod_pos (a : Z) (p : positive) (n : Z) : Z :=
  match p with
  | xH => a mod n
  | xO p' => let r := powmod_pos a p' n in (r * r) mod n
  | xI p' => let r := powmod_pos a p' n in (a * ((r * r) mod n)) mod n
  end.

(** The triple of the extended Euclidean descent on [(b, a % b)],
    computed without regard to the stack: the inverse that the built-in
    [pow] uses for a negative exponent, and the value that [egcd]
    returns when the stack suffices ([egcd_run]).  The descent ends
    within twice the bit length of [b] steps; [euclid_depth] is that
    bound and [xgcd_eqn] is the equation the descent satisfies for all
    arguments. *)
Definition euclid_depth (b : Z) : nat :=
  S (S (2 * Z.to_nat (Z.log2 (Z.abs b) + 1))).

Fixpoint xgcd_fuel (fuel : nat) (a b : Z) : Z * Z * Z :=
  match fuel with
  | O => (a, 1, 0)
  | S fuel' =>
      if b =? 0 then (a, 1, 0)
      else
        let '(g, x1, y1) := xgcd_fuel fuel' b (a mod b) in
        (g, y1, x1 - (a / b) * y1)
  end.

Definition xgcd (a b : Z) : Z * Z * Z := xgcd_fuel (euclid_depth b) a b.

(** Three-argument [pow].  A zero modulus raises; a negative exponent
    asks for the inverse of the base, which may not exist. *)
Definition pow3 (base exponent modulus : Z) : result Z :=
  if modulus =? 0 then Raise ValueError
  else
    match exponent with
    | Z0 => Ok (1 mod modulus)
    | Zpos p => Ok (powmod_pos base p modulus)
    | Zneg p =>
        let '(g, x, y) := xgcd base (Z.abs modulus) in
        if g =? 1 then Ok (powmod_pos x p modulus) else Raise ValueError
    end.

(** ** Extended Euclid and modular inverse *)

(** The interpreter's default recursion limit; the program never changes
    it. *)
Definition recursion_limit : nat := 1000.

(** [egcd] is the one recursive function of the program: it calls itself
    on [(b, a % b)], one nested call for every division step, and the
    interpreter raises [RecursionError] at the call that would exceed
    its recursion limit.  [frames] is the number of nested calls that
    the limit still allows where [egcd] is called, so it is below
    [recursion_limit]: the callers' own frames are already on the
    stack. *)
Fixpoint egcd (frames : nat) (a b : Z) : result (Z * Z * Z) :=
  match frames with
  | O => Raise RecursionError
  | S frames' =>
      if b =? 0 then Ok (a, 1, 0)
      else
        r <- egcd frames' b (a mod b) ;;
        let '(g, x1, y1) := r in
        Ok (g, y1, x1 - (a / b) * y1)
  end.

(** [frames] is the room the stack has for [egcd] where [invmod] calls
    it. *)
Definition invmod (frames : nat) (a m : Z) : result (option Z) :=
  r <- egcd frames a m ;;
  let '(g, x, y) := r in
  if negb (g =? 1) then Ok None
  else if m =? 0 then Raise ZeroDivisionError
  else Ok (Some (x mod m)).

(** ** Perfect squares *)

Definition is_perfect_square (n : Z) : result bool :=
  if n <? 0 then Ok false
  else r <- isqrt n ;; Ok (r * r =? n).

(** ** Wiener's attack *)

(** The generator [cont_frac]: one floor division per step, until the
    denominator is zero.  The loop is a Euclidean descent on [den], so
    [euclid_depth den] steps are enough ([cont_frac_eqn]). *)
Fixpoint cont_frac_fuel (fuel : nat) (num den : Z) : list Z :=
  match fuel with
  | O => []
  | S fuel' =>
      if den =? 0 then []
      else
        let a := num / den in
        a :: cont_frac_fuel fuel' den (num - a * den)
  end.

Definition cont_frac (num den : Z) : list Z :=
  cont_frac_fuel (euclid_depth den) num den.

(** The body of the [for a in cf[1:]] loop of [convergents]. *)
Fixpoint convergents_from (n0 d0 n1 d1 : Z) (cf : list Z) : list (Z * Z) :=
  match cf with
  | [] => []
  | a :: rest =>
      let n2 := a * n1 + n0 in
      let d2 := a * d1 + d0 in
      (n2, d2) :: convergents_from n1 d1 n2 d2 rest
  end.

(** [cf[0]] raises [IndexError] on the empty list. *)
Definition convergents (cf : list Z) : result (list (Z * Z)) :=
  match cf with
  | [] => Raise IndexError
  | a0 :: rest => Ok ((a0, 1) :: convergents_from 1 0 a0 1 rest)
  end.

(** The test that the loop of [wiener_attack] applies to a convergent
    whose numerator is not zero and divides [e * d - 1]. *)
Definition wiener_disc (e n k d : Z) : Z :=
  let phi := (e * d - 1) / k in
  let s := n - phi + 1 in
  s * s - 4 * n.

Fixpoint wiener_scan (e n : Z) (cs : list (Z * Z)) : result (option Z) :=
  match cs with
  | [] => Ok None
  | (k, d) :: rest =>
      if k =? 0 then wiener_scan e n rest
      else if negb ((e * d - 1) mod k =? 0) then wiener_scan e n rest
      else
        let disc := wiener_disc e n k d in
        sq <- (if disc >=? 0 then is_perfect_square disc else Ok false) ;;
        if sq then Ok (Some d) else wiener_scan e n rest
  end.

Definition wiener_attack (e n : Z) : result (option Z) :=
  cs <- convergents (cont_frac e n) ;;
  wiener_scan e n cs.

(** ** Pollard's rho, Brent's variant *)

(** [random.randrange lo hi] draws from [lo .. hi - 1] and raises
    [ValueError] on an empty range.  The source of randomness is a
    sequence [rnd] of arbitrary integers; draw number [i] reduces
    [rnd i] into the range, so that every value of the range can occur. *)
Definition randrange (rnd : nat -> Z) (i : nat) (lo hi : Z) : result Z :=
  if hi <=? lo then Raise ValueError else Ok (lo + (rnd i) mod (hi - lo)).

(** [y = (y * y + c) % n] *)
Definition rho_step (c n y : Z) : Z := (y * y + c) mod n.

(** [for _ in range(count): y = (y * y + c) % n] *)
Fixpoint rho_advance (count : nat) (c n y : Z) : Z :=
  match count with
  | O => y
  | S count' => rho_advance count' c n (rho_step c n y)
  end.

(** The innermost [for] loop: [lim] steps that also accumulate [q]. *)
Fixpoint rho_batch (count : nat) (c n x y q : Z) : Z * Z :=
  match count with
  | O => (y, q)
  | S count' =>
      let y' := rho_step c n y in
      let q' := (q * Z.abs (x - y')) mod n in
      rho_batch count' c n x y' q'
  end.

(** The variables of one attempt that live across the loops.  [x] and
    [ys] are assigned in the loops before they are read; their initial
    value in [rho_attempt] is never used. *)
Record brent : Set := mkBrent {
  b_y : Z; b_g : Z; b_r : Z; b_q : Z; b_x : Z; b_ys : Z
}.

(** [while k < r and g == 1]; the result is [(y, q, g, ys)]. *)
Fixpoint brent_batches (fuel : nat) (c n m x r : Z) (k y q g ys : Z)
  : result (Z * Z * Z * Z) :=
  if (k <? r) && (g =? 1) then
    match fuel with
    | O => OutOfFuel
    | S fuel' =>
        let ys := y in
        let lim := Z.min m (r - k) in
        let '(y', q') := rho_batch (Z.to_nat lim) c n x y q in
        let g' := Z.gcd q' n in
        brent_batches fuel' c n m x r (k + lim) y' q' g' ys
    end
  else Ok (y, q, g, ys).

(** [while g == 1] *)
Fixpoint brent_rounds (fuel : nat) (c n m : Z) (st : brent) : result brent :=
  if b_g st =? 1 then
    match fuel with
    | O => OutOfFuel
    | S fuel' =>
        let x := b_y st in
        let y := rho_advance (Z.to_nat (b_r st)) c n (b_y st) in
        out <- brent_batches (Z.to_nat (b_r st)) c n m x (b_r st)
                 0 y (b_q st) (b_g st) (b_ys st) ;;
        let '(y', q', g', ys') := out in
        brent_rounds fuel' c n m
          (mkBrent y' g' (Z.shiftl (b_r st) 1) q' x ys')
    end
  else Ok st.

(** [while True] of the fallback; the result is the final [g]. *)
Fixpoint rho_fallback (fuel : nat) (c n x ys : Z) : result Z :=
  match fuel with
  | O => OutOfFuel
  | S fuel' =>
      let ys' := rho_step c n ys in
      let g := Z.gcd (Z.abs (x - ys')) n in
      if 1 <? g then Ok g else rho_fallback fuel' c n x ys'
  end.

(** The number of rounds of [while g == 1] that the model allows: the
    batch size [r] doubles every round and a round with [r > n + 1]
    always ends the loop. *)
Definition rho_rounds_budget (n : Z) : nat := S (Z.to_nat (Z.log2_up (n + 2))).

(** One iteration of [for _ in range(10)], up to the final test on [g];
    the result is [g]. *)
Definition rho_attempt (n y c : Z) : result Z :=
  let m := Z.shiftl 1 12 in
  st <- brent_rounds (rho_rounds_budget n) c n m (mkBrent y 1 1 1 y y) ;;
  if b_g st =? n then rho_fallback (Z.to_nat m) c n (b_x st) (b_ys st)
  else Ok (b_g st).

Fixpoint rho_attempts (count : nat) (rnd : nat -> Z) (i : nat) (n : Z)
  : result (option Z) :=
  match count with
  | O => Ok None
  | S count' =>
      y <- randrange rnd i 1 (n - 1) ;;
      c <- randrange rnd (S i) 1 (n - 1) ;;
      g <- rho_attempt n y c ;;
      if (1 <? g) && (g <? n) then Ok (Some g)
      else rho_attempts count' rnd (S (S i)) n
  end.

Definition pollards_rho (rnd : nat -> Z) (n : Z) : result (option Z) :=
  if n mod 2 =? 0 then Ok (Some 2) else rho_attempts 10 rnd 0 n.

(** ** Pollard's p-1 *)

(** [for j in range(2, B + 1): a = pow(a, j, n)], [count] iterations
    starting at [j]. *)
Fixpoint pm1_loop (count : nat) (j a n : Z) : result Z :=
  match count with
  | O => Ok a
  | S count' => a' <- pow3 a j n ;; pm1_loop count' (j + 1) a' n
  end.

Definition pollards_p_minus_1 (n B : Z) : result (option Z) :=
  a <- pm1_loop (Z.to_nat (B + 1 - 2)) 2 2 n ;;
  let d := Z.gcd (a - 1) n in
  if (1 <? d) && (d <? n) then Ok (Some d) else Ok None.

(** ** Fermat's method *)

Fixpoint fermat_loop (steps : nat) (n a : Z) : result (option Z) :=
  match steps with
  | O => Ok None
  | S steps' =>
      let b2 := a * a - n in
      sq <- is_perfect_square b2 ;;
      if sq then
        b <- isqrt b2 ;;
        let p := a - b in
        let q := a + b in
        if (p * q =? n) && ((1 <? p) && (p <? n)) then Ok (Some p)
        else fermat_loop steps' n (a + 1)
      else fermat_loop steps' n (a + 1)
  end.

Definition fermat_factor (n max_steps : Z) : result (option Z) :=
  if n mod 2 =? 0 then Ok (Some 2)
  else
    a <- isqrt n ;;
    let a := if a * a <? n then a + 1 else a in
    fermat_loop (Z.to_nat max_steps) n a.

(** ** The orchestrator *)

(** [for B in (...)]: the first bound at which p-1 finds a factor. *)
Fixpoint try_bounds (n : Z) (bounds : list Z) : result (option (Z * Z)) :=
  match bounds with
  | [] => Ok None
  | B :: rest =>
      f <- pollards_p_minus_1 n B ;;
      match f with
      | Some f => Ok (Some (f, n / f))
      | None => try_bounds n rest
      end
  end.

Definition pm1_bounds : list Z := [100000; 300000; 700000; 1200000].

Definition fermat_cap : Z := 1000000.

(** Every factor that reaches [n // f] is greater than 1, so the
    division cannot raise. *)
Definition try_factor (rnd : nat -> Z) (n : Z) : result (option (Z * Z)) :=
  r <- try_bounds n pm1_bounds ;;
  match r with
  | Some pq => Ok (Some pq)
  | None =>
      f <- pollards_rho rnd n ;;
      match f with
      | Some f => Ok (Some (f, n / f))
      | None =>
          f <- fermat_factor n fermat_cap ;;
          match f with
          | Some f => Ok (Some (f, n / f))
          | None => Ok None
          end
      end
  end.

(** ** Key recovery *)

Definition byte_of_Z (z : Z) : byte :=
  match Byte.of_N (Z.to_N z) with
  | Some b => b
  | None => x00
  end.

Fixpoint be_digits (fuel : nat) (m : Z) (acc : list byte) : list byte :=
  match fuel with
  | O => acc
  | S fuel' =>
      if m =? 0 then acc
      else be_digits fuel' (m / 256) (byte_of_Z (m mod 256) :: acc)
  end.

(** Modelled from the spec: [long_to_bytes] comes from the library
    [Crypto.Util.number], which is not part of the repository.  The
    specification describes it as the rendering of a nonnegative integer
    as its minimal big-endian byte sequence, empty for zero and without
    a leading zero byte.  A negative argument is a decoding failure. *)
Definition long_to_bytes (m : Z) : result (list byte) :=
  if m <? 0 then Raise ValueError
  else Ok (be_digits (S (Z.to_nat (Z.log2 m))) m []).

(** The second half of [recover_and_decrypt]: factor, invert, decrypt.
    [frames] is the room the stack has for [egcd] under the call of
    [invmod]. *)
Definition decrypt_by_factoring (frames : nat) (rnd : nat -> Z) (e n c : Z)
  : result (option (list byte)) :=
  fac <- try_factor rnd n ;;
  match fac with
  | None => Ok None
  | Some (p, q) =>
      let phi := (p - 1) * (q - 1) in
      d <- invmod frames e phi ;;
      match d with
      | None => Ok None
      | Some d =>
          m <- pow3 c d n ;;
          pt <- long_to_bytes m ;;
          Ok (Some pt)
      end
  end.

(** [try: ... except Exception: pass] turns an exception of the
    decryption with Wiener's exponent into a fall-through.  The call of
    [invmod] is outside the [try], so its exceptions reach the caller. *)
Definition recover_and_decrypt (frames : nat) (rnd : nat -> Z) (e n c : Z)
  : result (option (list byte)) :=
  d <- wiener_attack e n ;;
  match d with
  | Some d =>
      match (m <- pow3 c d n ;; long_to_bytes m) with
      | Ok pt => Ok (Some pt)
      | Raise _ => decrypt_by_factoring frames rnd e n c
      | OutOfFuel => OutOfFuel
      end
  | None => decrypt_by_factoring frames rnd e n c
  end.

(** * Reference notions *)

(** The notions below restate, in the words of the specification, what
    the functions above are meant to compute; the theorems compare the
    two. *)

(** The convergents by the second-order recurrence
    [k_i = a_i * k_(i-1) + k_(i-2)], [d_i = a_i * d_(i-1) + d_(i-2)],
    seeded with [(k_(-1), d_(-1)) = (1, 0)] and [(k_0, d_0) = (a_0, 1)].
    [conv_pair cf i] is the pair of convergents number [i - 1] and [i]. *)
Fixpoint conv_pair (cf : list Z) (i : nat) : (Z * Z) * (Z * Z) :=
  match i with
  | O => ((1, 0), (nth 0 cf 0, 1))
  | S j =>
      let '((k0, d0), (k1, d1)) := conv_pair cf j in
      ((k1, d1), (nth (S j) cf 0 * k1 + k0, nth (S j) cf 0 * d1 + d0))
  end.

Definition convergent (cf : list Z) (i : nat) : Z * Z := snd (conv_pair cf i).

(** The value of the finite continued fraction [a0 + 1 / (a1 + ...)] as
    a pair (numerator, denominator); the empty fraction is [1 / 0]. *)
Fixpoint cf_value (cf : list Z) : Z * Z :=
  match cf with
  | [] => (1, 0)
  | a :: rest => let '(k, d) := cf_value rest in (a * k + d, k)
  end.

(** Wiener's acceptance test on a convergent [(k, d)]. *)
Definition wiener_accepts (e n k d : Z) : Prop :=
  k <> 0 /\ (k | e * d - 1) /\
  let phi := (e * d - 1) / k in
  let s := n - phi + 1 in
  let delta := s * s - 4 * n in
  0 <= delta /\ exists r, r * r = delta.

(** The four tests of the loop body of [wiener_attack] as one Boolean. *)
Definition wiener_test (e n k d : Z) : bool :=
  negb (k =? 0) && ((e * d - 1) mod k =? 0) &&
  (let disc := wiener_disc e n k d in
   (0 <=? disc) && (Z.sqrt disc * Z.sqrt disc =? disc)).

(** The accumulator of Pollard's p-1 after the bound [J]: it starts at
    2 and is raised to the power [J] modulo [n] for [J = 2, 3, ...]. *)
Fixpoint pm1_acc (n : Z) (J : nat) : Z :=
  match J with
  | O => 2
  | S J' =>
      match J' with
      | O => 2
      | S _ => (pm1_acc n J') ^ (Z.of_nat J) mod n
      end
  end.

(** Fermat's acceptance test at [a]: [a * a - n] is the square of some
    [b >= 0], and [p = a - b], [q = a + b] satisfy [p * q = n] and
    [1 < p < n]. *)
Definition fermat_accepts (n a p : Z) : Prop :=
  exists b, 0 <= b /\ b * b = a * a - n /\ p = a - b /\
            (a - b) * (a + b) = n /\ 1 < p < n.

(** The tests of one step of [fermat_loop] as one Boolean. *)
Definition fermat_test (n a : Z) : bool :=
  let b2 := a * a - n in
  let b := Z.sqrt b2 in
  (0 <=? b2) && (b * b =? b2) &&
  (((a - b) * (a + b) =? n) && ((1 <? a - b) && (a - b <? n))).

(** What holds at the head of [while g == 1] as long as [g] is 1: the
    product [q] is coprime to [n], and [y] lies at least [r - 1] steps
    down some orbit. *)
Definition brent_inv (c n : Z) (st : brent) : Prop :=
  1 <= b_r st /\ Z.gcd (b_q st) n = 1 /\
  exists z s, b_y st = rho_advance s c n z /\ (Z.to_nat (b_r st) - 1 <= s)%nat.

(** What holds when [while g == 1] is left: [g] is the gcd of the
    product with [n], and the product comes from a batch of at most [m]
    steps that started at [ys] with a product coprime to [n]. *)
Definition brent_exit (c n m : Z) (st : brent) : Prop :=
  b_g st <> 1 /\ b_g st = Z.gcd (b_q st) n /\
  exists lim q0,
    (lim <= Z.to_nat m)%nat /\ Z.gcd q0 n = 1 /\
    rho_batch lim c n (b_x st) (b_ys st) q0 = (b_y st, b_q st).

(** The orchestrator as the state machine of the specification.  The
    machine starts in [TryPMinus1] with the smallest bound; a failure
    moves to the next larger bound, after the last bound to [TryRho],
    then to [TryFermat] (with the fixed cap [fermat_cap]), then to
    [Exhausted]; a success of any method moves to [Success] at once. *)
Inductive orch_state : Set :=
| TryPMinus1 (bound : Z) (later : list Z)
| TryRho
| TryFermat
| Success (p q : Z)
| Exhausted.

Definition orch_start : orch_state :=
  TryPMinus1 100000 [300000; 700000; 1200000].

(** The method that a state invokes. *)
Definition orch_method (rnd : nat -> Z) (n : Z) (s : orch_state)
  : result (option Z) :=
  match s with
  | TryPMinus1 bound _ => pollards_p_minus_1 n bound
  | TryRho => pollards_rho rnd n
  | TryFermat => fermat_factor n fermat_cap
  | Success _ _ | Exhausted => Ok None
  end.

Definition orch_on_failure (s : orch_state) : orch_state :=
  match s with
  | TryPMinus1 _ (bound :: later) => TryPMinus1 bound later
  | TryPMinus1 _ [] => TryRho
  | TryRho => TryFermat
  | TryFermat => Exhausted
  | Success _ _ | Exhausted => s
  end.

Definition orch_step (rnd : nat -> Z) (n : Z) (s : orch_state)
  : result orch_state :=
  match s with
  | Success _ _ | Exhausted => Ok s
  | _ =>
      f <- orch_method rnd n s ;;
      match f with
      | Some f => Ok (Success f (n / f))
      | None => Ok (orch_on_failure s)
      end
  end.

(** The states that the machine goes through, the final one last. *)
Fixpoint orch_run (fuel : nat) (rnd : nat -> Z) (n : Z) (s : orch_state)
  : result (list orch_state) :=
  match s with
  | Success _ _ | Exhausted => Ok [s]
  | _ =>
      match fuel with
      | O => OutOfFuel
      | S fuel' =>
          s' <- orch_step rnd n s ;;
          tr <- orch_run fuel' rnd n s' ;;
          Ok (s :: tr)
      end
  end.

(** The six method states in the order of the specification. *)
Definition orch_schedule : list orch_state :=
  [ TryPMinus1 100000 [300000; 700000; 1200000];
    TryPMinus1 300000 [700000; 1200000];
    TryPMinus1 700000 [1200000];
    TryPMinus1 1200000 [];
    TryRho;
    TryFermat ].

Definition orch_result (s : orch_state) : option (Z * Z) :=
  match s with
  | Success p q => Some (p, q)
  | _ => None
  end.

(** Trial division, to establish the primality of small constants by
    computation. *)
Fixpoint no_divisor_from (count : nat) (d p : Z) : bool :=
  match count with
  | O => true
  | S count' => negb (p mod d =? 0) && no_divisor_from count' (d + 1) p
  end.

Definition prime_by_trial (p : Z) : bool :=
  (1 <? p) && no_divisor_from (Z.to_nat (p - 2)) 2 p.

(** The nested calls that [egcd a b] makes: one for each division step
    of the descent from [(a, b)], which are the steps of the loop of
    [cont_frac a b], and the last one, which finds [b = 0]. *)
Definition egcd_calls (a b : Z) : nat := S (length (cont_frac a b)).

(** The Fibonacci numbers: on two consecutive ones every quotient of the
    descent is 1, so the descent is as long as it can be. *)
Fixpoint fib_pair (k : nat) : Z * Z :=
  match k with
  | O => (0, 1)
  | S k' => let '(a, b) := fib_pair k' in (b, a + b)
  end.

Definition fib (k : nat) : Z := fst (fib_pair k).

(** * Properties *)

(** ** Arithmetic of the Euclidean descent *)

Lemma euclid_halves (a b : Z) :
  b <> 0 -> a mod b <> 0 -> 2 * Z.abs (b mod (a mod b)) < Z.abs b.
Proof.
  intros Hb Hr.
  set (r := a mod b) in *.
  assert (Hdm : b = r * (b / r) + b mod r) by (apply Z.div_mod; exact Hr).
  destruct (Z.lt_trichotomy b 0) as [Hneg | [H0 | Hpos]]; [ | contradiction | ].
  - assert (Hrb : b < r <= 0) by (apply Z.mod_neg_bound; lia).
    assert (Hr2 : r < b mod r <= 0) by (apply Z.mod_neg_bound; lia).
    assert (Hq : 1 <= b / r).
    { destruct (Z.le_gt_cases 1 (b / r)) as [Hle | Hgt]; [exact Hle | ].
      exfalso. assert (r * (b / r) >= 0) by nia. lia. }
    nia.
  - assert (Hrb : 0 <= r < b) by (apply Z.mod_pos_bound; lia).
    assert (Hr2 : 0 <= b mod r < r) by (apply Z.mod_pos_bound; lia).
    assert (Hq : 1 <= b / r).
    { destruct (Z.le_gt_cases 1 (b / r)) as [Hle | Hgt]; [exact Hle | ].
      exfalso. assert (r * (b / r) <= 0) by nia. lia. }
    nia.
Qed.

Lemma abs_mod_lt (a b : Z) : b <> 0 -> Z.abs (a mod b) < Z.abs b.
Proof.
  intros Hb.
  destruct (Z.lt_trichotomy b 0) as [Hneg | [H0 | Hpos]]; [ | contradiction | ].
  - pose proof (Z.mod_neg_bound a b Hneg). lia.
  - pose proof (Z.mod_pos_bound a b Hpos). lia.
Qed.

Lemma abs_lt_pow2_log2 (b : Z) :
  Z.abs b < 2 ^ Z.of_nat (Z.to_nat (Z.log2 (Z.abs b) + 1)).
Proof.
  pose proof (Z.log2_nonneg (Z.abs b)) as Hl.
  rewrite Z2Nat.id by lia.
  destruct (Z.eq_dec b 0) as [-> | Hb].
  - cbn. lia.
  - replace (Z.log2 (Z.abs b) + 1) with (Z.succ (Z.log2 (Z.abs b))) by lia.
    apply Z.log2_spec. lia.
Qed.

Lemma half_pow2 (k : nat) (x y : Z) :
  2 * x < y -> y < 2 ^ Z.of_nat (S k) -> x < 2 ^ Z.of_nat k.
Proof.
  intros Hxy Hy.
  rewrite Nat2Z.inj_succ, Z.pow_succ_r in Hy by lia. lia.
Qed.

Lemma xgcd_fuel_S (fuel : nat) (a b : Z) :
  xgcd_fuel (S fuel) a b =
  if b =? 0 then (a, 1, 0)
  else let '(g, x1, y1) := xgcd_fuel fuel b (a mod b) in
       (g, y1, x1 - (a / b) * y1).
Proof. reflexivity. Qed.

(** Beyond [2 * k + 1] steps the fuel no longer matters when
    [|b| < 2 ^ k]. *)
Lemma xgcd_fuel_stable (k : nat) :
  forall a b f1 f2,
    Z.abs b < 2 ^ Z.of_nat k ->
    (2 * k + 1 <= f1)%nat -> (2 * k + 1 <= f2)%nat ->
    xgcd_fuel f1 a b = xgcd_fuel f2 a b.
Proof.
  induction k as [| k IH]; intros a b f1 f2 Hb H1 H2.
  - assert (b = 0) by (cbn in Hb; lia). subst b.
    destruct f1 as [| f1]; [lia | ]. destruct f2 as [| f2]; [lia | ].
    reflexivity.
  - destruct f1 as [| [| f1]]; try lia. destruct f2 as [| [| f2]]; try lia.
    rewrite (xgcd_fuel_S (S f1)), (xgcd_fuel_S (S f2)).
    destruct (Z.eqb_spec b 0) as [Hb0 | Hb0]; [reflexivity | ].
    rewrite (xgcd_fuel_S f1), (xgcd_fuel_S f2).
    destruct (Z.eqb_spec (a mod b) 0) as [Hr | Hr]; [reflexivity | ].
    rewrite (IH (a mod b) (b mod (a mod b)) f1 f2); try lia.
    + reflexivity.
    + apply (half_pow2 k _ (Z.abs b)); [ | exact Hb].
      apply euclid_halves; assumption.
Qed.

Lemma depth_after_step (a b : Z) :
  b <> 0 ->
  (2 * Z.to_nat (Z.log2 (Z.abs (a mod b)) + 1) + 1
   <= S (2 * Z.to_nat (Z.log2 (Z.abs b) + 1)))%nat.
Proof.
  intros Hb.
  pose proof (abs_mod_lt a b Hb) as Hlt.
  pose proof (Z.log2_le_mono (Z.abs (a mod b)) (Z.abs b) ltac:(lia)) as Hlog.
  pose proof (Z.log2_nonneg (Z.abs (a mod b))).
  lia.
Qed.

(** [xgcd] satisfies the recursion equation of [egcd]. *)
Lemma xgcd_eqn (a b : Z) :
  xgcd a b =
  if b =? 0 then (a, 1, 0)
  else let '(g, x1, y1) := xgcd b (a mod b) in
       (g, y1, x1 - (a / b) * y1).
Proof.
  unfold xgcd at 1. unfold euclid_depth. rewrite xgcd_fuel_S.
  destruct (Z.eqb_spec b 0) as [Hb | Hb]; [reflexivity | ].
  unfold xgcd.
  rewrite (xgcd_fuel_stable (Z.to_nat (Z.log2 (Z.abs (a mod b)) + 1))
             b (a mod b) _ (euclid_depth (a mod b))).
  - reflexivity.
  - apply abs_lt_pow2_log2.
  - apply depth_after_step; exact Hb.
  - unfold euclid_depth. lia.
Qed.

(** Induction along the Euclidean descent [(a, b) -> (b, a mod b)]. *)
Lemma euclid_ind (P : Z -> Z -> Prop) :
  (forall a, P a 0) ->
  (forall a b, b <> 0 -> P b (a mod b) -> P a b) ->
  forall a b, P a b.
Proof.
  intros H0 Hstep a b.
  remember (Z.to_nat (Z.abs b)) as size eqn:Hsize.
  revert a b Hsize.
  induction size as [size IH] using lt_wf_ind; intros a b Hsize.
  destruct (Z.eq_dec b 0) as [-> | Hb]; [apply H0 | ].
  apply Hstep; [exact Hb | ].
  apply (IH (Z.to_nat (Z.abs (a mod b)))); [ | reflexivity].
  pose proof (abs_mod_lt a b Hb). lia.
Qed.

Lemma xgcd_bezout (a b : Z) :
  let '(g, x, y) := xgcd a b in a * x + b * y = g.
Proof.
  revert a b. apply (euclid_ind (fun a b =>
    let '(g, x, y) := xgcd a b in a * x + b * y = g)).
  - intros a. rewrite xgcd_eqn. cbn. lia.
  - intros a b Hb IH. rewrite xgcd_eqn.
    destruct (Z.eqb_spec b 0) as [? | _]; [contradiction | ].
    destruct (xgcd b (a mod b)) as [[g x1] y1].
    pose proof (Z.div_mod a b Hb) as Hdm.
    rewrite <- IH. nia.
Qed.

Lemma xgcd_gcd (a b : Z) :
  0 <= b -> 0 < b \/ 0 <= a -> fst (fst (xgcd a b)) = Z.gcd a b.
Proof.
  revert a b. apply (euclid_ind (fun a b =>
    0 <= b -> 0 < b \/ 0 <= a -> fst (fst (xgcd a b)) = Z.gcd a b)).
  - intros a _ Ha. rewrite xgcd_eqn. cbn.
    rewrite Z.gcd_0_r, Z.abs_eq; lia.
  - intros a b Hb IH Hb0 _. rewrite xgcd_eqn.
    destruct (Z.eqb_spec b 0) as [? | _]; [contradiction | ].
    pose proof (Z.mod_pos_bound a b ltac:(lia)) as Hr.
    specialize (IH ltac:(lia) ltac:(lia)).
    destruct (xgcd b (a mod b)) as [[g x1] y1]. cbn in IH |- *.
    rewrite IH, (Z.gcd_comm b), Z.gcd_mod by exact Hb. apply Z.gcd_comm.
Qed.

Lemma isqrt_nonneg (n : Z) : 0 <= n -> isqrt n = Ok (Z.sqrt n).
Proof.
  intros Hn. unfold isqrt.
  destruct (Z.ltb_spec n 0); [lia | reflexivity].
Qed.

Lemma square_of_sqrt (n : Z) :
  (exists r, r * r = n) <-> 0 <= n /\ Z.sqrt n * Z.sqrt n = n.
Proof.
  split.
  - intros [r Hr]. split; [nia | ].
    assert (Hs : Z.sqrt n = Z.abs r).
    { rewrite <- Hr. replace (r * r) with (Z.abs r * Z.abs r) by nia.
      apply Z.sqrt_square. lia. }
    rewrite Hs. nia.
  - intros [_ Hs]. exists (Z.sqrt n). exact Hs.
Qed.

Lemma is_perfect_square_value (n : Z) :
  is_perfect_square n = Ok ((0 <=? n) && (Z.sqrt n * Z.sqrt n =? n)).
Proof.
  unfold is_perfect_square.
  destruct (Z.ltb_spec n 0) as [Hneg | Hpos].
  - destruct (Z.leb_spec 0 n); [lia | reflexivity].
  - rewrite isqrt_nonneg by exact Hpos. cbn.
    destruct (Z.leb_spec 0 n); [reflexivity | lia].
Qed.

(** C8.  [is_perfect_square n] always returns a Boolean, and that
    Boolean is [true] exactly when [n] is the square of an integer; this
    holds for every integer [n], in particular for the nonnegative ones. *)
Theorem is_perfect_square_iff (n : Z) :
  exists b, is_perfect_square n = Ok b /\
            (b = true <-> exists r, r * r = n).
Proof.
  eexists. split; [apply is_perfect_square_value | ].
  rewrite square_of_sqrt, andb_true_iff, Z.leb_le, Z.eqb_eq. reflexivity.
Qed.

Lemma cont_frac_fuel_S (fuel : nat) (num den : Z) :
  cont_frac_fuel (S fuel) num den =
  if den =? 0 then []
  else num / den :: cont_frac_fuel fuel den (num - num / den * den).
Proof. reflexivity. Qed.

Lemma floor_remainder (num den : Z) :
  den <> 0 -> num - num / den * den = num mod den.
Proof. intros Hd. rewrite (Z.mod_eq num den Hd). lia. Qed.

Lemma cont_frac_fuel_stable (k : nat) :
  forall num den f1 f2,
    Z.abs den < 2 ^ Z.of_nat k ->
    (2 * k + 1 <= f1)%nat -> (2 * k + 1 <= f2)%nat ->
    cont_frac_fuel f1 num den = cont_frac_fuel f2 num den.
Proof.
  induction k as [| k IH]; intros num den f1 f2 Hd H1 H2.
  - assert (den = 0) by (cbn in Hd; lia). subst den.
    destruct f1 as [| f1]; [lia | ]. destruct f2 as [| f2]; [lia | ].
    reflexivity.
  - destruct f1 as [| [| f1]]; try lia. destruct f2 as [| [| f2]]; try lia.
    rewrite (cont_frac_fuel_S (S f1)), (cont_frac_fuel_S (S f2)).
    destruct (Z.eqb_spec den 0) as [Hd0 | Hd0]; [reflexivity | ].
    f_equal. rewrite (floor_remainder num den Hd0).
    rewrite (cont_frac_fuel_S f1), (cont_frac_fuel_S f2).
    destruct (Z.eqb_spec (num mod den) 0) as [Hr | Hr]; [reflexivity | ].
    f_equal. rewrite (floor_remainder den (num mod den) Hr).
    apply IH; try lia.
    apply (half_pow2 k _ (Z.abs den)); [ | exact Hd].
    apply euclid_halves; assumption.
Qed.

(** [cont_frac] satisfies the loop equation of the generator. *)
Lemma cont_frac_eqn (num den : Z) :
  cont_frac num den =
  if den =? 0 then []
  else num / den :: cont_frac den (num - num / den * den).
Proof.
  unfold cont_frac at 1. unfold euclid_depth. rewrite cont_frac_fuel_S.
  destruct (Z.eqb_spec den 0) as [Hd | Hd]; [reflexivity | ].
  f_equal. rewrite (floor_remainder num den Hd). unfold cont_frac.
  apply (cont_frac_fuel_stable (Z.to_nat (Z.log2 (Z.abs (num mod den)) + 1))).
  - apply abs_lt_pow2_log2.
  - apply depth_after_step; exact Hd.
  - unfold euclid_depth. lia.
Qed.

(** ** [egcd] and [invmod] *)

Lemma xgcd_triple (a b : Z) :
  0 <= b -> 0 < b \/ 0 <= a ->
  exists x y, xgcd a b = (Z.gcd a b, x, y) /\ a * x + b * y = Z.gcd a b.
Proof.
  intros Hb Hab.
  pose proof (xgcd_gcd a b Hb Hab) as Hg.
  pose proof (xgcd_bezout a b) as Hz.
  destruct (xgcd a b) as [[g x] y]. cbn in Hg. subst g.
  exists x, y. split; [reflexivity | exact Hz].
Qed.

Lemma egcd_S (frames : nat) (a b : Z) :
  egcd (S frames) a b =
  if b =? 0 then Ok (a, 1, 0)
  else
    r <- egcd frames b (a mod b) ;;
    let '(g, x1, y1) := r in
    Ok (g, y1, x1 - (a / b) * y1).
Proof. reflexivity. Qed.

Lemma egcd_calls_0 (a : Z) : egcd_calls a 0 = 1%nat.
Proof. unfold egcd_calls. rewrite cont_frac_eqn. reflexivity. Qed.

Lemma egcd_calls_step (a b : Z) :
  b <> 0 -> egcd_calls a b = S (egcd_calls b (a mod b)).
Proof.
  intros Hb. unfold egcd_calls. rewrite (cont_frac_eqn a b).
  destruct (Z.eqb_spec b 0) as [? | _]; [contradiction | ].
  rewrite (floor_remainder a b Hb). reflexivity.
Qed.

Lemma egcd_calls_pos (a b : Z) : (1 <= egcd_calls a b)%nat.
Proof. unfold egcd_calls. lia. Qed.

Lemma cont_frac_fuel_length (fuel : nat) :
  forall num den, (length (cont_frac_fuel fuel num den) <= fuel)%nat.
Proof.
  induction fuel as [| fuel IH]; intros num den; [cbn; lia | ].
  rewrite cont_frac_fuel_S.
  destruct (den =? 0); cbn [length]; [lia | ].
  specialize (IH den (num - num / den * den)). lia.
Qed.

(** The descent is no longer than twice the bit length of [b]. *)
Lemma egcd_calls_bound (a b : Z) :
  (egcd_calls a b <= 2 * Z.to_nat (Z.log2 (Z.abs b) + 1) + 3)%nat.
Proof.
  unfold egcd_calls, cont_frac.
  pose proof (cont_frac_fuel_length (euclid_depth b) a b) as H.
  unfold euclid_depth in H |- *. lia.
Qed.

(** With room for [egcd_calls a b] nested calls, [egcd] returns the
    triple of the descent; with less room the interpreter stops it. *)
Lemma egcd_run (a b : Z) :
  forall frames,
    egcd frames a b =
    if (egcd_calls a b <=? frames)%nat then Ok (xgcd a b)
    else Raise RecursionError.
Proof.
  apply (euclid_ind (fun a b => forall frames,
    egcd frames a b =
    if (egcd_calls a b <=? frames)%nat then Ok (xgcd a b)
    else Raise RecursionError)).
  - intros a0 frames. rewrite egcd_calls_0, xgcd_eqn.
    destruct frames as [| frames]; reflexivity.
  - intros a0 b0 Hb IH frames.
    rewrite (egcd_calls_step a0 b0 Hb).
    destruct frames as [| frames]; [reflexivity | ].
    rewrite egcd_S, (xgcd_eqn a0 b0).
    destruct (Z.eqb_spec b0 0) as [? | _]; [contradiction | ].
    rewrite IH. change (S (egcd_calls b0 (a0 mod b0)) <=? S frames)%nat
      with (egcd_calls b0 (a0 mod b0) <=? frames)%nat.
    destruct (egcd_calls b0 (a0 mod b0) <=? frames)%nat; [ | reflexivity].
    cbn [bind]. destruct (xgcd b0 (a0 mod b0)) as [[g x1] y1]. reflexivity.
Qed.

Lemma egcd_enough (frames : nat) (a b : Z) :
  (egcd_calls a b <= frames)%nat -> egcd frames a b = Ok (xgcd a b).
Proof.
  intros H. rewrite egcd_run.
  apply Nat.leb_le in H. rewrite H. reflexivity.
Qed.

Lemma egcd_overflow (frames : nat) (a b : Z) :
  (frames < egcd_calls a b)%nat -> egcd frames a b = Raise RecursionError.
Proof.
  intros H. rewrite egcd_run.
  apply Nat.leb_gt in H. rewrite H. reflexivity.
Qed.

(** [egcd] returns nothing but the triple of the descent. *)
Lemma egcd_value (frames : nat) (a b : Z) (r : Z * Z * Z) :
  egcd frames a b = Ok r -> r = xgcd a b /\ (egcd_calls a b <= frames)%nat.
Proof.
  rewrite egcd_run.
  destruct (Nat.leb_spec (egcd_calls a b) frames) as [H | H];
    [ | discriminate].
  intros [= <-]. split; [reflexivity | exact H].
Qed.

Lemma invmod_enough (frames : nat) (a m : Z) :
  (egcd_calls a m <= frames)%nat ->
  invmod frames a m =
  let '(g, x, y) := xgcd a m in
  if negb (g =? 1) then Ok None
  else if m =? 0 then Raise ZeroDivisionError
  else Ok (Some (x mod m)).
Proof.
  intros H. unfold invmod. rewrite (egcd_enough frames a m H). reflexivity.
Qed.

Lemma invmod_overflow (frames : nat) (a m : Z) :
  (frames < egcd_calls a m)%nat -> invmod frames a m = Raise RecursionError.
Proof.
  intros H. unfold invmod. rewrite (egcd_overflow frames a m H). reflexivity.
Qed.

Lemma invmod_coprime (frames : nat) (a m : Z) :
  1 < m -> (egcd_calls a m <= frames)%nat -> Z.gcd a m = 1 ->
  exists x,
    invmod frames a m = Ok (Some x) /\ 0 <= x < m /\ (a * x) mod m = 1.
Proof.
  intros Hm Hroom Hg.
  destruct (xgcd_triple a m ltac:(lia) ltac:(lia)) as (x & y & He & Hz).
  exists (x mod m). rewrite (invmod_enough frames a m Hroom), He, Hg. cbn.
  destruct (Z.eqb_spec m 0) as [? | _]; [lia | ].
  split; [reflexivity | ]. split; [apply Z.mod_pos_bound; lia | ].
  rewrite Z.mul_mod_idemp_r by lia.
  replace (a * x) with (1 + (- y) * m) by lia.
  rewrite Z.mod_add by lia. apply Z.mod_1_l. exact Hm.
Qed.

Lemma invmod_not_coprime (frames : nat) (a m : Z) :
  0 < m -> (egcd_calls a m <= frames)%nat -> Z.gcd a m <> 1 ->
  invmod frames a m = Ok None.
Proof.
  intros Hm Hroom Hg.
  destruct (xgcd_triple a m ltac:(lia) ltac:(lia)) as (x & y & He & _).
  rewrite (invmod_enough frames a m Hroom), He.
  destruct (Z.eqb_spec (Z.gcd a m) 1) as [? | _]; [contradiction | reflexivity].
Qed.

(** *** The longest descent: consecutive Fibonacci numbers *)

Lemma fib_SS (k : nat) : fib (S (S k)) = fib (S k) + fib k.
Proof.
  unfold fib. cbn [fib_pair].
  destruct (fib_pair k) as [a b]. cbn [fst]. lia.
Qed.

Lemma fib_nonneg (k : nat) : 0 <= fib k /\ 0 < fib (S k).
Proof.
  induction k as [| k [IH0 IH1]]; [cbn; lia | ].
  rewrite fib_SS. lia.
Qed.

Lemma fib_increasing (k : nat) : (2 <= k)%nat -> fib k < fib (S k).
Proof.
  intros Hk. destruct k as [| [| k]]; try lia.
  rewrite (fib_SS (S k)).
  pose proof (fib_nonneg k). lia.
Qed.

Lemma fib_coprime (k : nat) : Z.gcd (fib k) (fib (S k)) = 1.
Proof.
  induction k as [| k IH]; [reflexivity | ].
  rewrite fib_SS, (Z.add_comm (fib (S k))), Z.gcd_add_diag_r, Z.gcd_comm.
  exact IH.
Qed.

Lemma fib_mod (k : nat) :
  (2 <= k)%nat -> fib (S (S k)) mod fib (S k) = fib k.
Proof.
  intros Hk. rewrite fib_SS.
  pose proof (fib_nonneg k) as [H0 H1].
  pose proof (fib_increasing k Hk) as Hlt.
  rewrite <- (Z.mul_1_l (fib (S k))) at 1.
  rewrite Z.add_comm, Z.mod_add by lia.
  apply Z.mod_small. lia.
Qed.

(** [egcd] on the Fibonacci numbers number [k + 1] and [k] makes [k]
    nested calls. *)
Lemma egcd_calls_fib (k : nat) :
  (2 <= k)%nat -> egcd_calls (fib (S k)) (fib k) = k.
Proof.
  induction k as [| k IH]; [lia | ]. intros Hk.
  destruct (Nat.eq_dec k 1) as [-> | Hk1]; [reflexivity | ].
  pose proof (fib_nonneg k) as [_ Hpos].
  rewrite egcd_calls_step by lia.
  rewrite fib_mod by lia. rewrite IH by lia. reflexivity.
Qed.

Lemma egcd_calls_fib_swapped (k : nat) :
  (2 <= k)%nat -> egcd_calls (fib k) (fib (S k)) = S k.
Proof.
  intros Hk.
  pose proof (fib_nonneg k) as [H0 H1].
  pose proof (fib_increasing k Hk) as Hlt.
  rewrite egcd_calls_step by lia.
  rewrite Z.mod_small by lia.
  rewrite egcd_calls_fib by exact Hk. reflexivity.
Qed.

Lemma invmod_fib_overflow (frames k : nat) :
  (2 <= k)%nat -> (frames <= k)%nat ->
  1 < fib (S k) /\ Z.gcd (fib k) (fib (S k)) = 1 /\
  invmod frames (fib k) (fib (S k)) = Raise RecursionError.
Proof.
  intros Hk Hf.
  pose proof (fib_nonneg k) as [H0 H1].
  pose proof (fib_increasing k Hk) as Hlt.
  assert (0 < fib k).
  { destruct k as [| k]; [lia | ]. apply fib_nonneg. }
  split; [lia | ]. split; [apply fib_coprime | ].
  apply invmod_overflow. rewrite egcd_calls_fib_swapped by exact Hk. lia.
Qed.

(** C10, as the code has it.  Let [m > 1].  When the stack has room for
    the [egcd_calls a m] nested calls of [egcd], [invmod frames a m]
    returns the inverse of [a] in [0 .. m - 1] if [gcd a m = 1] and
    [None] otherwise; when it has not, [invmod] raises [RecursionError].
    The calls are at most twice the bit length of [m], plus three.
    Whenever [egcd frames a' b] returns [(g, x, y)], [a' * x + b * y = g]
    and [g = gcd a' b] for every [b > 0], and for [b = 0] when [a'] is
    not negative. *)
Theorem invmod_egcd_spec (frames : nat) (a m : Z) :
  1 < m ->
  ((egcd_calls a m <= frames)%nat ->
   (Z.gcd a m = 1 ->
    exists x,
      invmod frames a m = Ok (Some x) /\ 0 <= x < m /\ (a * x) mod m = 1) /\
   (Z.gcd a m <> 1 -> invmod frames a m = Ok None)) /\
  ((frames < egcd_calls a m)%nat ->
   invmod frames a m = Raise RecursionError) /\
  (egcd_calls a m <= 2 * Z.to_nat (Z.log2 m + 1) + 3)%nat /\
  (forall a' b g x y, 0 <= b -> 0 < b \/ 0 <= a' ->
     egcd frames a' b = Ok (g, x, y) ->
     g = Z.gcd a' b /\ a' * x + b * y = g).
Proof.
  intros Hm. split; [ | split; [ | split]].
  - intros Hroom. split.
    + apply invmod_coprime; assumption.
    + apply invmod_not_coprime; [lia | exact Hroom].
  - apply invmod_overflow.
  - pose proof (egcd_calls_bound a m) as H.
    rewrite Z.abs_eq in H by lia. exact H.
  - intros a' b g x y Hb Hab Hrun.
    apply egcd_value in Hrun. destruct Hrun as [Hrun _].
    destruct (xgcd_triple a' b Hb Hab) as (x0 & y0 & He & Hz).
    rewrite He in Hrun. injection Hrun as -> -> ->.
    split; [reflexivity | exact Hz].
Qed.

Lemma invmod_egcd_spec_witness :
  1 < 3120 /\ (egcd_calls 17 3120 <= recursion_limit)%nat /\
  (exists x, invmod recursion_limit 17 3120 = Ok (Some x) /\
             0 <= x < 3120 /\ (17 * x) mod 3120 = 1).
Proof.
  assert (Hroom : (egcd_calls 17 3120 <= recursion_limit)%nat).
  { apply Nat.leb_le. vm_compute. reflexivity. }
  split; [lia | ]. split; [exact Hroom | ].
  apply (invmod_egcd_spec recursion_limit 17 3120);
    [lia | exact Hroom | reflexivity].
Defined.

(** C10, as stated, fails in two places.  On the coprime Fibonacci
    numbers number 1000 and 1001 [egcd] needs 1001 nested calls, more
    than the recursion limit allows, so [invmod] raises instead of
    returning the inverse.  And where the second argument is zero and
    the first is negative, the base case of [egcd] returns its first
    argument, sign included. *)
Lemma invmod_recursion_error :
  (1 < fib 1001 /\ Z.gcd (fib 1000) (fib 1001) = 1 /\
   invmod recursion_limit (fib 1000) (fib 1001) = Raise RecursionError) /\
  (0 <= 0 /\ egcd recursion_limit (-3) 0 = Ok (-3, 1, 0) /\
   -3 <> Z.gcd (-3) 0).
Proof.
  split.
  - apply (invmod_fib_overflow recursion_limit 1000);
      unfold recursion_limit; lia.
  - split; [lia | ]. split; [reflexivity | ]. cbn. discriminate.
Qed.

(** ** Continued fractions and Wiener's attack *)

Lemma cont_frac_nonempty (num den : Z) :
  den <> 0 -> exists rest, cont_frac num den = num / den :: rest.
Proof.
  intros Hd. rewrite cont_frac_eqn.
  destruct (Z.eqb_spec den 0) as [? | _]; [contradiction | ].
  eexists. reflexivity.
Qed.

Lemma conv_pair_S (cf : list Z) (j : nat) :
  conv_pair cf (S j) =
  (snd (conv_pair cf j),
   (nth (S j) cf 0 * fst (snd (conv_pair cf j)) + fst (fst (conv_pair cf j)),
    nth (S j) cf 0 * snd (snd (conv_pair cf j)) + snd (fst (conv_pair cf j)))).
Proof.
  cbn [conv_pair]. destruct (conv_pair cf j) as [[k0 d0] [k1 d1]].
  reflexivity.
Qed.

(** The accumulators of the loop of [convergents] are two consecutive
    convergents of the recurrence. *)
Lemma convergents_from_nth (cf : list Z) :
  forall rest pre i n0 d0 n1 d1,
    cf = pre ++ rest -> length pre = S i ->
    conv_pair cf i = ((n0, d0), (n1, d1)) ->
    forall j, (j < length rest)%nat ->
      nth_error (convergents_from n0 d0 n1 d1 rest) j
      = Some (convergent cf (S i + j)).
Proof.
  induction rest as [| a rest IH]; intros pre i n0 d0 n1 d1 Hcf Hlen Hpair j Hj.
  - cbn in Hj. lia.
  - assert (Ha : nth (S i) cf 0 = a).
    { rewrite Hcf, app_nth2 by lia. rewrite Hlen, Nat.sub_diag. reflexivity. }
    assert (Hnext : conv_pair cf (S i) = ((n1, d1), (a * n1 + n0, a * d1 + d0))).
    { rewrite conv_pair_S, Hpair, Ha. reflexivity. }
    destruct j as [| j]; cbn [convergents_from nth_error].
    + unfold convergent. rewrite Nat.add_0_r, Hnext. reflexivity.
    + rewrite (IH (pre ++ [a]) (S i) n1 d1 (a * n1 + n0) (a * d1 + d0)).
      * f_equal. f_equal. lia.
      * rewrite <- app_assoc. exact Hcf.
      * rewrite length_app, Hlen. cbn. lia.
      * exact Hnext.
      * cbn in Hj. lia.
Qed.

Lemma convergents_from_length (rest : list Z) :
  forall n0 d0 n1 d1, length (convergents_from n0 d0 n1 d1 rest) = length rest.
Proof.
  induction rest as [| a rest IH]; intros; cbn; [reflexivity | ].
  rewrite IH. reflexivity.
Qed.

(** [convergents] yields one pair per coefficient, in index order, and
    pair number [i] is convergent number [i] of the recurrence. *)
Lemma convergents_spec (cf : list Z) :
  cf <> [] ->
  exists cs, convergents cf = Ok cs /\
             length cs = length cf /\
             forall i, (i < length cf)%nat ->
                       nth_error cs i = Some (convergent cf i).
Proof.
  destruct cf as [| a0 rest]; [congruence | intros _].
  eexists. split; [reflexivity | ]. split.
  - cbn. rewrite convergents_from_length. reflexivity.
  - intros [| i] Hi; [reflexivity | ].
    cbn [nth_error].
    apply (convergents_from_nth (a0 :: rest) rest [a0] 0%nat 1 0 a0 1);
      [reflexivity | reflexivity | reflexivity | cbn in Hi; lia].
Qed.

Lemma wiener_scan_cons (e n k d : Z) (rest : list (Z * Z)) :
  wiener_scan e n ((k, d) :: rest) =
  if wiener_test e n k d then Ok (Some d) else wiener_scan e n rest.
Proof.
  cbn [wiener_scan]. unfold wiener_test.
  destruct (k =? 0); [reflexivity | ].
  destruct ((e * d - 1) mod k =? 0); [ | reflexivity]. cbn [negb andb].
  rewrite Z.geb_leb.
  destruct (Z.leb_spec 0 (wiener_disc e n k d)) as [Hd | Hd]; [ | reflexivity].
  rewrite is_perfect_square_value. cbn [bind].
  destruct (Z.leb_spec 0 (wiener_disc e n k d)); [ | lia].
  reflexivity.
Qed.

Lemma wiener_test_iff (e n k d : Z) :
  wiener_test e n k d = true <-> wiener_accepts e n k d.
Proof.
  unfold wiener_test, wiener_accepts, wiener_disc.
  rewrite !andb_true_iff, negb_true_iff, Z.eqb_neq, Z.eqb_eq, Z.leb_le, Z.eqb_eq.
  set (delta := (n - (e * d - 1) / k + 1) * (n - (e * d - 1) / k + 1) - 4 * n).
  pose proof (square_of_sqrt delta) as Hsq.
  split.
  - intros [[Hk Hdiv] [Hpos Hs]]. split; [exact Hk | ]. split.
    + apply Z.mod_divide; assumption.
    + split; [exact Hpos | ]. apply Hsq. split; assumption.
  - intros (Hk & Hdiv & Hpos & Hr). split; [split | split].
    + exact Hk.
    + apply Z.mod_divide; assumption.
    + exact Hpos.
    + apply Hsq. exact Hr.
Qed.

Lemma wiener_scan_returns (e n : Z) (cs : list (Z * Z)) :
  exists r, wiener_scan e n cs = Ok r.
Proof.
  induction cs as [| [k d] rest IH]; [eexists; reflexivity | ].
  rewrite wiener_scan_cons.
  destruct (wiener_test e n k d); [eexists; reflexivity | exact IH].
Qed.

Lemma wiener_scan_none (e n : Z) (cs : list (Z * Z)) :
  wiener_scan e n cs = Ok None <->
  forall k d, In (k, d) cs -> wiener_test e n k d = false.
Proof.
  induction cs as [| [k0 d0] rest IH].
  - split; [intros _ k d [] | reflexivity].
  - rewrite wiener_scan_cons.
    destruct (wiener_test e n k0 d0) eqn:Ht.
    + split; [discriminate | ].
      intros H. rewrite (H k0 d0 (or_introl eq_refl)) in Ht. discriminate.
    + rewrite IH. split.
      * intros H k d [Heq | Hin]; [ | apply H; exact Hin].
        inversion Heq; subst. exact Ht.
      * intros H k d Hin. apply H. right. exact Hin.
Qed.

Lemma wiener_scan_some (e n : Z) (cs : list (Z * Z)) (d : Z) :
  wiener_scan e n cs = Ok (Some d) <->
  exists i k,
    nth_error cs i = Some (k, d) /\ wiener_test e n k d = true /\
    forall j kj dj, (j < i)%nat -> nth_error cs j = Some (kj, dj) ->
                    wiener_test e n kj dj = false.
Proof.
  induction cs as [| [k0 d0] rest IH].
  - split; [discriminate | ].
    intros (i & k & Hnth & _). destruct i; discriminate.
  - rewrite wiener_scan_cons.
    destruct (wiener_test e n k0 d0) eqn:Ht.
    + split.
      * intros Heq. inversion Heq; subst d0.
        exists 0%nat, k0. split; [reflexivity | ]. split; [exact Ht | ].
        intros j kj dj Hj. lia.
      * intros (i & k & Hnth & _ & Hprev).
        destruct i as [| i].
        -- cbn in Hnth. inversion Hnth; subst. reflexivity.
        -- rewrite (Hprev 0%nat k0 d0 ltac:(lia) eq_refl) in Ht. discriminate.
    + rewrite IH. split.
      * intros (i & k & Hnth & Hacc & Hprev).
        exists (S i), k. split; [exact Hnth | ]. split; [exact Hacc | ].
        intros [| j] kj dj Hj Hnj.
        -- cbn in Hnj. inversion Hnj; subst. exact Ht.
        -- apply (Hprev j); [lia | exact Hnj].
      * intros (i & k & Hnth & Hacc & Hprev).
        destruct i as [| i].
        -- cbn in Hnth. inversion Hnth; subst. congruence.
        -- exists i, k. split; [exact Hnth | ]. split; [exact Hacc | ].
           intros j kj dj Hj Hnj. apply (Hprev (S j)); [lia | exact Hnj].
Qed.

Lemma last_cons_default {A : Type} (l : list A) :
  forall x d, last (x :: l) d = last l x.
Proof.
  induction l as [| y l IH]; intros x d; [reflexivity | ].
  change (last (x :: y :: l) d) with (last (y :: l) d).
  rewrite (IH y d), (IH y x). reflexivity.
Qed.

(** The running pair of [convergents_from] multiplies out to the value
    of the remaining coefficients. *)
Lemma convergents_from_last (rest : list Z) :
  forall n0 d0 n1 d1,
    last (convergents_from n0 d0 n1 d1 rest) (n1, d1)
    = (n1 * fst (cf_value rest) + n0 * snd (cf_value rest),
       d1 * fst (cf_value rest) + d0 * snd (cf_value rest)).
Proof.
  induction rest as [| a rest IH]; intros n0 d0 n1 d1.
  - cbn. f_equal; lia.
  - cbn [convergents_from cf_value].
    rewrite last_cons_default, IH.
    destruct (cf_value rest) as [k d]. cbn [fst snd]. f_equal; lia.
Qed.

Lemma convergents_last (cf : list Z) (cs' : list (Z * Z)) :
  convergents cf = Ok cs' -> last cs' (1, 0) = cf_value cf.
Proof.
  destruct cf as [| a0 rest]; [discriminate | ].
  intros Heq. inversion Heq; subst cs'. clear Heq.
  rewrite last_cons_default, convergents_from_last. cbn [cf_value].
  destruct (cf_value rest) as [k d]. cbn [fst snd]. f_equal; lia.
Qed.

Lemma conv_pair_ext (l1 l2 : list Z) (i : nat) :
  (forall j, (j <= i)%nat -> nth j l1 0 = nth j l2 0) ->
  conv_pair l1 i = conv_pair l2 i.
Proof.
  induction i as [| i IH]; intros Hnth.
  - cbn. rewrite (Hnth 0%nat (le_n 0)). reflexivity.
  - rewrite !conv_pair_S, IH by (intros j Hj; apply Hnth; lia).
    rewrite (Hnth (S i) (le_n _)). reflexivity.
Qed.

Lemma nth_firstn_low (l : list Z) (k j : nat) :
  (j < k)%nat -> nth j (firstn k l) 0 = nth j l 0.
Proof.
  revert k j. induction l as [| a l IH]; intros k j Hj.
  - rewrite firstn_nil. reflexivity.
  - destruct k as [| k]; [lia | ]. destruct j as [| j]; [reflexivity | ].
    cbn. apply IH. lia.
Qed.

(** Convergent number [i] is the value of the fraction cut after the
    coefficient [a_i]. *)
Lemma convergent_value (cf : list Z) (i : nat) :
  (i < length cf)%nat -> convergent cf i = cf_value (firstn (S i) cf).
Proof.
  intros Hi.
  assert (Hlen : length (firstn (S i) cf) = S i)
    by (rewrite length_firstn; lia).
  destruct (convergents_spec (firstn (S i) cf)) as (cs & Hcs & Hlcs & Hnth).
  { intros Hnil. rewrite Hnil in Hlen. discriminate. }
  rewrite <- (convergents_last _ cs Hcs).
  specialize (Hnth i ltac:(lia)).
  assert (Hlast : last cs (1, 0) = convergent (firstn (S i) cf) i).
  { rewrite Hlen in Hlcs. clear Hcs.
    destruct (exists_last (l := cs)) as (front & z & ->).
    { intros ->. discriminate. }
    rewrite last_last. rewrite length_app in Hlcs. cbn in Hlcs.
    rewrite nth_error_app2 in Hnth by lia.
    replace (i - length front)%nat with 0%nat in Hnth by lia.
    cbn [nth_error] in Hnth. congruence. }
  rewrite Hlast. unfold convergent. f_equal. symmetry.
  apply conv_pair_ext. intros j Hj. apply nth_firstn_low. lia.
Qed.

(** The coefficients of [cont_frac num den] are those of [num / den]:
    the value of the whole fraction is [num / den] in lowest terms, up to
    a common factor [g]. *)
Lemma cont_frac_value (num den : Z) :
  exists g, num = g * fst (cf_value (cont_frac num den)) /\
            den = g * snd (cf_value (cont_frac num den)).
Proof.
  revert num den. apply (euclid_ind (fun num den =>
    exists g, num = g * fst (cf_value (cont_frac num den)) /\
              den = g * snd (cf_value (cont_frac num den)))).
  - intros num. exists num. rewrite cont_frac_eqn. cbn. lia.
  - intros num den Hden [g [Hk Hd]]. exists g.
    rewrite cont_frac_eqn.
    destruct (Z.eqb_spec den 0) as [? | _]; [contradiction | ].
    rewrite (floor_remainder num den Hden). cbn [cf_value].
    destruct (cf_value (cont_frac den (num mod den))) as [k d].
    cbn [fst snd] in *.
    pose proof (Z.div_mod num den Hden). split; nia.
Qed.

(** C2.  For positive [e] and [n], [wiener_attack e n] walks the
    convergents [(k, d)] of the continued fraction of [e / n] in index
    order (one pair per coefficient, pair [i] being convergent [i] of the
    recurrence, which is the value of the fraction cut after coefficient
    [i]; the whole fraction has the value [e / n]) and returns the [d] of
    the first one that passes Wiener's test; it returns [None] exactly
    when no convergent passes, and it always returns. *)
Theorem wiener_attack_first_accepting (e n : Z) :
  0 < e -> 0 < n ->
  exists cs,
    convergents (cont_frac e n) = Ok cs /\
    length cs = length (cont_frac e n) /\
    (forall i, (i < length cs)%nat ->
               nth_error cs i = Some (convergent (cont_frac e n) i) /\
               convergent (cont_frac e n) i
               = cf_value (firstn (S i) (cont_frac e n))) /\
    fst (cf_value (cont_frac e n)) * n = e * snd (cf_value (cont_frac e n)) /\
    (forall d,
        wiener_attack e n = Ok (Some d) <->
        exists i k,
          nth_error cs i = Some (k, d) /\ wiener_accepts e n k d /\
          forall j kj dj, (j < i)%nat -> nth_error cs j = Some (kj, dj) ->
                          ~ wiener_accepts e n kj dj) /\
    (wiener_attack e n = Ok None <->
     forall k d, In (k, d) cs -> ~ wiener_accepts e n k d) /\
    (exists r, wiener_attack e n = Ok r).
Proof.
  intros He Hn.
  destruct (cont_frac_nonempty e n ltac:(lia)) as [rest Hcf].
  destruct (convergents_spec (cont_frac e n)) as (cs & Hcs & Hlen & Hnth).
  { rewrite Hcf. discriminate. }
  exists cs. split; [exact Hcs | ]. split; [exact Hlen | ].
  split.
  { intros i Hi. split; [apply Hnth; lia | apply convergent_value; lia]. }
  split.
  { destruct (cont_frac_value e n) as [g [Hk Hd]]. nia. }
  unfold wiener_attack. rewrite Hcs. cbn [bind].
  split; [ | split].
  - intros d. rewrite wiener_scan_some. split.
    + intros (i & k & Hi & Hacc & Hprev). exists i, k.
      split; [exact Hi | ]. split; [apply wiener_test_iff; exact Hacc | ].
      intros j kj dj Hj Hnj Hc. apply wiener_test_iff in Hc.
      rewrite (Hprev j kj dj Hj Hnj) in Hc. discriminate.
    + intros (i & k & Hi & Hacc & Hprev). exists i, k.
      split; [exact Hi | ]. split; [apply wiener_test_iff; exact Hacc | ].
      intros j kj dj Hj Hnj.
      destruct (wiener_test e n kj dj) eqn:Ht; [ | reflexivity].
      exfalso. apply (Hprev j kj dj Hj Hnj). apply wiener_test_iff. exact Ht.
  - rewrite wiener_scan_none. split.
    + intros H k d Hin Hc. apply wiener_test_iff in Hc.
      rewrite (H k d Hin) in Hc. discriminate.
    + intros H k d Hin.
      destruct (wiener_test e n k d) eqn:Ht; [ | reflexivity].
      exfalso. apply (H k d Hin). apply wiener_test_iff. exact Ht.
  - apply wiener_scan_returns.
Qed.

Lemma wiener_attack_first_accepting_witness :
  (0 < 17 /\ 0 < 3233) /\ exists r, wiener_attack 17 3233 = Ok r.
Proof.
  split; [lia | ].
  destruct (wiener_attack_first_accepting 17 3233 ltac:(lia) ltac:(lia))
    as (cs & _ & _ & _ & _ & _ & _ & Hret).
  exact Hret.
Defined.

(** ** Modular exponentiation and Pollard's p-1 *)

Lemma powmod_pos_spec (a : Z) (p : positive) (n : Z) :
  n <> 0 -> powmod_pos a p n = a ^ Z.pos p mod n.
Proof.
  intros Hn. induction p as [p IH | p IH | ]; cbn [powmod_pos].
  - rewrite IH, Pos2Z.inj_xI.
    replace (2 * Z.pos p + 1) with (1 + (Z.pos p + Z.pos p)) by lia.
    rewrite !Z.pow_add_r, Z.pow_1_r by lia.
    rewrite <- Z.mul_mod by exact Hn.
    rewrite Z.mul_mod_idemp_r by exact Hn. reflexivity.
  - rewrite IH, Pos2Z.inj_xO.
    replace (2 * Z.pos p) with (Z.pos p + Z.pos p) by lia.
    rewrite Z.pow_add_r by lia.
    rewrite <- Z.mul_mod by exact Hn. reflexivity.
  - rewrite Z.pow_1_r. reflexivity.
Qed.

Lemma pow3_nonneg (a j n : Z) :
  n <> 0 -> 0 <= j -> pow3 a j n = Ok (a ^ j mod n).
Proof.
  intros Hn Hj. unfold pow3.
  destruct (Z.eqb_spec n 0) as [? | _]; [contradiction | ].
  destruct j as [| p | p]; [reflexivity | | lia].
  rewrite powmod_pos_spec by exact Hn. reflexivity.
Qed.

Lemma pm1_acc_S (n : Z) (J : nat) :
  (1 <= J)%nat -> pm1_acc n (S J) = (pm1_acc n J) ^ (Z.of_nat (S J)) mod n.
Proof. intros HJ. destruct J as [| J]; [lia | reflexivity]. Qed.

(** The loop computes the accumulator of the specification. *)
Lemma pm1_loop_acc (n : Z) :
  n <> 0 ->
  forall count J, (1 <= J)%nat ->
    pm1_loop count (Z.of_nat J + 1) (pm1_acc n J) n
    = Ok (pm1_acc n (J + count)).
Proof.
  intros Hn. induction count as [| count IH]; intros J HJ.
  - cbn. rewrite Nat.add_0_r. reflexivity.
  - cbn [pm1_loop]. rewrite pow3_nonneg by lia. cbn [bind].
    replace (Z.of_nat J + 1) with (Z.of_nat (S J)) by lia.
    rewrite <- pm1_acc_S by exact HJ.
    rewrite (IH (S J)) by lia.
    f_equal. f_equal. lia.
Qed.

Lemma mod_pow_base (a b n : Z) :
  n <> 0 -> 0 <= b -> (a mod n) ^ b mod n = a ^ b mod n.
Proof.
  intros Hn Hb. revert b Hb.
  apply (natlike_ind (fun b => (a mod n) ^ b mod n = a ^ b mod n)).
  - reflexivity.
  - intros b Hb IH. rewrite !Z.pow_succ_r by exact Hb.
    rewrite Z.mul_mod, IH by exact Hn.
    rewrite Z.mod_mod by exact Hn.
    rewrite <- Z.mul_mod by exact Hn. reflexivity.
Qed.

(** The accumulator is 2 raised to the factorial of the bound. *)
Lemma pm1_acc_factorial (n : Z) (J : nat) :
  n <> 0 -> (2 <= J)%nat -> pm1_acc n J = 2 ^ Z.of_nat (fact J) mod n.
Proof.
  intros Hn HJ. induction J as [| J IH]; [lia | ].
  destruct (Nat.eq_dec J 1) as [-> | HJ1].
  - reflexivity.
  - rewrite pm1_acc_S by lia. rewrite IH by lia.
    rewrite mod_pow_base by lia.
    rewrite <- Z.pow_mul_r by lia.
    f_equal. f_equal. change (fact (S J)) with (S J * fact J)%nat. lia.
Qed.

Lemma pm1_loop_run (n B : Z) :
  n <> 0 -> 2 <= B ->
  pm1_loop (Z.to_nat (B + 1 - 2)) 2 2 n = Ok (pm1_acc n (Z.to_nat B)).
Proof.
  intros Hn HB.
  pose proof (pm1_loop_acc n Hn (Z.to_nat (B + 1 - 2)) 1%nat (le_n 1)) as Hrun.
  change (Z.of_nat 1 + 1) with 2 in Hrun.
  change (pm1_acc n 1) with 2 in Hrun.
  rewrite Hrun. f_equal. f_equal. lia.
Qed.

Lemma pollards_p_minus_1_value (n B : Z) :
  n <> 0 -> 2 <= B ->
  pollards_p_minus_1 n B =
  let d := Z.gcd (pm1_acc n (Z.to_nat B) - 1) n in
  if (1 <? d) && (d <? n) then Ok (Some d) else Ok None.
Proof.
  intros Hn HB. unfold pollards_p_minus_1.
  rewrite pm1_loop_run by assumption. reflexivity.
Qed.

(** C7.  For [n > 1] and [B >= 2], the accumulator [A] of
    [pollards_p_minus_1 n B] is the one obtained from 2 by the updates
    [A <- A ^ J mod n] for [J = 2 .. B], which is [2 ^ (B!) mod n]; the
    function returns [gcd (A - 1) n] when that value lies strictly
    between 1 and [n], and [None] otherwise. *)
Theorem pollards_p_minus_1_spec (n B : Z) :
  1 < n -> 2 <= B ->
  let A := pm1_acc n (Z.to_nat B) in
  let d := Z.gcd (A - 1) n in
  A = 2 ^ Z.of_nat (fact (Z.to_nat B)) mod n /\
  (1 < d < n -> pollards_p_minus_1 n B = Ok (Some d)) /\
  (~ 1 < d < n -> pollards_p_minus_1 n B = Ok None) /\
  (forall f, pollards_p_minus_1 n B = Ok (Some f) <-> f = d /\ 1 < d < n).
Proof.
  intros Hn HB A d.
  split; [apply pm1_acc_factorial; lia | ].
  rewrite pollards_p_minus_1_value by lia. fold A. fold d. cbv zeta.
  destruct (Z.ltb_spec 1 d) as [H1 | H1];
    destruct (Z.ltb_spec d n) as [H2 | H2]; cbn [andb].
  - split; [reflexivity | ]. split; [intros Hc; exfalso; apply Hc; lia | ].
    intros f. split; [intros Hf; inversion Hf; lia | ].
    intros [-> _]. reflexivity.
  - split; [lia | ]. split; [reflexivity | ].
    intros f. split; [discriminate | lia].
  - split; [lia | ]. split; [reflexivity | ].
    intros f. split; [discriminate | lia].
  - split; [lia | ]. split; [reflexivity | ].
    intros f. split; [discriminate | lia].
Qed.

Lemma pollards_p_minus_1_spec_witness :
  (1 < 6 /\ 2 <= 2) /\ pollards_p_minus_1 6 2 = Ok (Some 3).
Proof.
  split; [lia | ].
  destruct (pollards_p_minus_1_spec 6 2 ltac:(lia) ltac:(lia)) as (_ & Hsome & _).
  apply Hsome. vm_compute. split; reflexivity.
Defined.

(** ** Fermat's method *)

Lemma fermat_loop_S (steps : nat) (n a : Z) :
  fermat_loop (S steps) n a =
  if fermat_test n a then Ok (Some (a - Z.sqrt (a * a - n)))
  else fermat_loop steps n (a + 1).
Proof.
  cbn [fermat_loop]. unfold fermat_test.
  rewrite is_perfect_square_value. cbn [bind].
  destruct (Z.leb_spec 0 (a * a - n)) as [Hpos | Hneg]; cbn [andb];
    [ | reflexivity].
  destruct (Z.sqrt (a * a - n) * Z.sqrt (a * a - n) =? a * a - n);
    [ | reflexivity].
  rewrite isqrt_nonneg by exact Hpos. reflexivity.
Qed.

Lemma fermat_test_accepts (n a : Z) :
  fermat_test n a = true <-> fermat_accepts n a (a - Z.sqrt (a * a - n)).
Proof.
  unfold fermat_test, fermat_accepts.
  rewrite !andb_true_iff, Z.leb_le, !Z.eqb_eq, !Z.ltb_lt.
  split.
  - intros [[Hpos Hsq] [Hpq [H1 H2]]].
    exists (Z.sqrt (a * a - n)).
    split; [apply Z.sqrt_nonneg | ]. split; [exact Hsq | ].
    split; [reflexivity | ]. split; [exact Hpq | lia].
  - intros (b & Hb & Hsq & Hp & Hpq & Hrange).
    assert (Hs : Z.sqrt (a * a - n) = b).
    { rewrite <- Hsq. apply Z.sqrt_square. exact Hb. }
    rewrite Hs. repeat split; try lia.
Qed.

Lemma fermat_accepts_unique (n a p : Z) :
  fermat_accepts n a p -> p = a - Z.sqrt (a * a - n) /\ fermat_test n a = true.
Proof.
  intros Hacc.
  assert (Hp : p = a - Z.sqrt (a * a - n)).
  { destruct Hacc as (b & Hb & Hsq & Hp & _).
    rewrite <- Hsq, Z.sqrt_square by exact Hb. exact Hp. }
  split; [exact Hp | ]. apply fermat_test_accepts. rewrite <- Hp. exact Hacc.
Qed.

Lemma fermat_loop_returns (n : Z) (steps : nat) :
  forall a, exists r, fermat_loop steps n a = Ok r.
Proof.
  induction steps as [| steps IH]; intros a; [eexists; reflexivity | ].
  rewrite fermat_loop_S.
  destruct (fermat_test n a); [eexists; reflexivity | apply IH].
Qed.

Lemma fermat_loop_none (n : Z) (steps : nat) :
  forall a,
    fermat_loop steps n a = Ok None <->
    forall i p, (i < steps)%nat -> ~ fermat_accepts n (a + Z.of_nat i) p.
Proof.
  induction steps as [| steps IH]; intros a.
  - split; [intros _ i p Hi; lia | reflexivity].
  - rewrite fermat_loop_S. destruct (fermat_test n a) eqn:Ht.
    + split; [discriminate | ].
      intros H. exfalso. apply (H 0%nat (a - Z.sqrt (a * a - n))); [lia | ].
      rewrite Z.add_0_r. apply fermat_test_accepts. exact Ht.
    + rewrite IH. split.
      * intros H [| i] p Hi Hacc.
        -- rewrite Z.add_0_r in Hacc.
           apply fermat_accepts_unique in Hacc. destruct Hacc. congruence.
        -- apply (H i p); [lia | ].
           replace (a + 1 + Z.of_nat i) with (a + Z.of_nat (S i)) by lia.
           exact Hacc.
      * intros H i p Hi Hacc. apply (H (S i) p); [lia | ].
        replace (a + Z.of_nat (S i)) with (a + 1 + Z.of_nat i) by lia.
        exact Hacc.
Qed.

Lemma fermat_loop_some (n : Z) (steps : nat) :
  forall a p,
    fermat_loop steps n a = Ok (Some p) <->
    exists i, (i < steps)%nat /\ fermat_accepts n (a + Z.of_nat i) p /\
              forall j p', (j < i)%nat -> ~ fermat_accepts n (a + Z.of_nat j) p'.
Proof.
  induction steps as [| steps IH]; intros a p.
  - split; [discriminate | intros (i & Hi & _); lia].
  - rewrite fermat_loop_S. destruct (fermat_test n a) eqn:Ht.
    + split.
      * intros Heq. inversion Heq; subst p. exists 0%nat.
        split; [lia | ]. rewrite Z.add_0_r.
        split; [apply fermat_test_accepts; exact Ht | intros j p' Hj; lia].
      * intros (i & Hi & Hacc & Hprev). destruct i as [| i].
        -- rewrite Z.add_0_r in Hacc.
           apply fermat_accepts_unique in Hacc. destruct Hacc as [-> _].
           reflexivity.
        -- exfalso. apply (Hprev 0%nat (a - Z.sqrt (a * a - n))); [lia | ].
           rewrite Z.add_0_r. apply fermat_test_accepts. exact Ht.
    + rewrite IH. split.
      * intros (i & Hi & Hacc & Hprev). exists (S i).
        split; [lia | ].
        replace (a + Z.of_nat (S i)) with (a + 1 + Z.of_nat i) by lia.
        split; [exact Hacc | ].
        intros [| j] p' Hj Hc.
        -- rewrite Z.add_0_r in Hc.
           apply fermat_accepts_unique in Hc. destruct Hc. congruence.
        -- apply (Hprev j p'); [lia | ].
           replace (a + 1 + Z.of_nat j) with (a + Z.of_nat (S j)) by lia.
           exact Hc.
      * intros (i & Hi & Hacc & Hprev). destruct i as [| i].
        -- rewrite Z.add_0_r in Hacc.
           apply fermat_accepts_unique in Hacc. destruct Hacc. congruence.
        -- exists i. split; [lia | ].
           replace (a + 1 + Z.of_nat i) with (a + Z.of_nat (S i)) by lia.
           split; [exact Hacc | ].
           intros j p' Hj Hc. apply (Hprev (S j) p'); [lia | ].
           replace (a + Z.of_nat (S j)) with (a + 1 + Z.of_nat j) by lia.
           exact Hc.
Qed.

(** The start value of [fermat_factor]: the least [a >= 0] whose square
    reaches [n]. *)
Lemma fermat_start (n : Z) :
  0 <= n ->
  let a0 := if Z.sqrt n * Z.sqrt n <? n then Z.sqrt n + 1 else Z.sqrt n in
  0 <= a0 /\ n <= a0 * a0 /\ forall a, 0 <= a -> n <= a * a -> a0 <= a.
Proof.
  intros Hn. pose proof (Z.sqrt_spec n Hn) as [Hlo Hhi].
  pose proof (Z.sqrt_nonneg n) as Hs.
  destruct (Z.ltb_spec (Z.sqrt n * Z.sqrt n) n) as [Hlt | Hge]; cbn zeta.
  - split; [lia | ]. split; [lia | ].
    intros a Ha Hsq.
    destruct (Z.le_gt_cases (Z.sqrt n + 1) a) as [? | Hgt]; [assumption | ].
    exfalso. assert (a <= Z.sqrt n) by lia. nia.
  - split; [lia | ]. split; [lia | ].
    intros a Ha Hsq.
    destruct (Z.le_gt_cases (Z.sqrt n) a) as [? | Hgt]; [assumption | ].
    exfalso. nia.
Qed.

Lemma fermat_factor_odd (n cap : Z) :
  n mod 2 <> 0 -> 0 <= n ->
  fermat_factor n cap =
  fermat_loop (Z.to_nat cap) n
    (if Z.sqrt n * Z.sqrt n <? n then Z.sqrt n + 1 else Z.sqrt n).
Proof.
  intros Hodd Hn. unfold fermat_factor.
  destruct (Z.eqb_spec (n mod 2) 0) as [? | _]; [contradiction | ].
  rewrite isqrt_nonneg by exact Hn. reflexivity.
Qed.

Lemma fermat_factor_even (n cap : Z) :
  n mod 2 = 0 -> fermat_factor n cap = Ok (Some 2).
Proof. intros Heven. unfold fermat_factor. rewrite Heven. reflexivity. Qed.

(** C6.  For an odd modulus [n > 0], [fermat_factor n cap]
    starts at the least [a0 >= 0] with [n <= a0 * a0] (the ceiling of the
    square root) and examines [a0, a0 + 1, ...], at most [cap] values: it
    returns [p = a - b] at the first [a] where [a * a - n = b * b],
    [(a - b) * (a + b) = n] and [1 < p < n]; it returns [None] exactly
    when none of the [cap] values is accepted; it always returns.  For an
    even [n] it returns 2 at once. *)
Theorem fermat_factor_spec (n cap : Z) :
  (n mod 2 = 0 -> fermat_factor n cap = Ok (Some 2)) /\
  (n mod 2 <> 0 -> 0 < n ->
   exists a0,
     (0 <= a0 /\ n <= a0 * a0 /\ forall a, 0 <= a -> n <= a * a -> a0 <= a) /\
     (forall p,
         fermat_factor n cap = Ok (Some p) <->
         exists i, Z.of_nat i < cap /\ fermat_accepts n (a0 + Z.of_nat i) p /\
                   forall j p', (j < i)%nat ->
                                ~ fermat_accepts n (a0 + Z.of_nat j) p') /\
     (fermat_factor n cap = Ok None <->
      forall i p, Z.of_nat i < cap -> ~ fermat_accepts n (a0 + Z.of_nat i) p) /\
     (exists r, fermat_factor n cap = Ok r)).
Proof.
  split; [apply fermat_factor_even | ].
  intros Hodd Hn.
  rewrite (fermat_factor_odd n cap Hodd) by lia.
  set (a0 := if Z.sqrt n * Z.sqrt n <? n then Z.sqrt n + 1 else Z.sqrt n).
  exists a0. split; [apply fermat_start; lia | ]. split; [ | split].
  - intros p. rewrite fermat_loop_some. split.
    + intros (i & Hi & Hacc & Hprev). exists i.
      split; [lia | ]. split; assumption.
    + intros (i & Hi & Hacc & Hprev). exists i.
      split; [lia | ]. split; assumption.
  - rewrite fermat_loop_none. split.
    + intros H i p Hi. apply H. lia.
    + intros H i p Hi. apply H. lia.
  - apply fermat_loop_returns.
Qed.

(** A modulus is positive.  On a negative odd [n] the integer square
    root is not defined and [isqrt] raises. *)
Lemma fermat_factor_negative_odd :
  (-3) mod 2 <> 0 /\ fermat_factor (-3) 10 = Raise ValueError.
Proof. split; [discriminate | reflexivity]. Qed.

Lemma fermat_factor_spec_witness :
  (6 mod 2 = 0 /\ fermat_factor 6 100 = Ok (Some 2)) /\
  ((15 mod 2 <> 0 /\ 0 < 15) /\ exists r, fermat_factor 15 100 = Ok r).
Proof.
  split.
  - split; [reflexivity | ].
    apply (proj1 (fermat_factor_spec 6 100)). reflexivity.
  - split; [split; [discriminate | lia] | ].
    destruct (proj2 (fermat_factor_spec 15 100) ltac:(discriminate) ltac:(lia))
      as (a0 & _ & _ & _ & Hret).
    exact Hret.
Defined.

(** ** Pollard's rho: the iterated map *)

(** A list of integers either has no repetition or shows one. *)
Lemma repeat_in_list (l : list Z) :
  NoDup l \/
  exists i j, (i < j < length l)%nat /\ nth i l 0 = nth j l 0.
Proof.
  induction l as [| a l [IH | (i & j & Hij & Heq)]].
  - left. constructor.
  - destruct (in_dec Z.eq_dec a l) as [Hin | Hnot].
    + right. destruct (In_nth l a 0 Hin) as (j & Hj & Hnth).
      exists 0%nat, (S j). split; [cbn; lia | ]. cbn. symmetry. exact Hnth.
    + left. constructor; assumption.
  - right. exists (S i), (S j). split; [cbn; lia | exact Heq].
Qed.

Lemma nth_map_seq (f : nat -> Z) (len i : nat) :
  (i < len)%nat -> nth i (map f (seq 0 len)) 0 = f i.
Proof.
  intros Hi.
  rewrite (nth_indep _ 0 (f 0%nat)) by (rewrite length_map, length_seq; exact Hi).
  rewrite map_nth, seq_nth by exact Hi. reflexivity.
Qed.

Section RhoMap.

Variables c n : Z.
Hypothesis n_pos : 0 < n.

Lemma rho_step_range (y : Z) : 0 <= rho_step c n y < n.
Proof. unfold rho_step. apply Z.mod_pos_bound. exact n_pos. Qed.

Lemma rho_advance_add (a b : nat) :
  forall y, rho_advance (a + b) c n y = rho_advance b c n (rho_advance a c n y).
Proof.
  induction a as [| a IH]; intros y; [reflexivity | ].
  cbn [Nat.add rho_advance]. apply IH.
Qed.

Lemma rho_advance_last (k : nat) (y : Z) :
  rho_advance (S k) c n y = rho_step c n (rho_advance k c n y).
Proof.
  replace (S k) with (k + 1)%nat by lia.
  rewrite rho_advance_add. reflexivity.
Qed.

Lemma rho_advance_range (k : nat) (y : Z) :
  (1 <= k)%nat -> 0 <= rho_advance k c n y < n.
Proof.
  intros Hk. destruct k as [| k]; [lia | ].
  rewrite rho_advance_last. apply rho_step_range.
Qed.

(** Pigeonhole: among the first [n + 1] points of an orbit inside
    [0 .. n - 1] two coincide. *)
Lemma orbit_repeats (w : Z) :
  0 <= w < n ->
  exists i j, (i < j <= Z.to_nat n)%nat /\
              rho_advance i c n w = rho_advance j c n w.
Proof.
  intros Hw.
  set (orbit := map (fun i => rho_advance i c n w) (seq 0 (S (Z.to_nat n)))).
  set (range := map Z.of_nat (seq 0 (Z.to_nat n))).
  assert (Hlen : length orbit = S (Z.to_nat n)).
  { unfold orbit. rewrite length_map, length_seq. reflexivity. }
  destruct (repeat_in_list orbit) as [Hnd | (i & j & Hij & Heq)].
  - exfalso.
    assert (Hincl : incl orbit range).
    { intros z Hz. apply in_map_iff in Hz. destruct Hz as (k & <- & Hk).
      assert (Hr : 0 <= rho_advance k c n w < n).
      { destruct k as [| k]; [exact Hw | apply rho_advance_range; lia]. }
      apply in_map_iff. exists (Z.to_nat (rho_advance k c n w)).
      split; [apply Z2Nat.id; lia | ]. apply in_seq. lia. }
    pose proof (NoDup_incl_length Hnd Hincl) as Hle.
    unfold range in Hle. rewrite Hlen, length_map, length_seq in Hle. lia.
  - rewrite Hlen in Hij. exists i, j. split; [lia | ].
    unfold orbit in Heq. rewrite !nth_map_seq in Heq by lia. exact Heq.
Qed.

(** After [n + 1] steps every orbit has entered a cycle of length at
    most [n]. *)
Lemma eventually_periodic (z : Z) (s : nat) :
  (Z.to_nat n + 1 <= s)%nat ->
  exists lam, (1 <= lam <= Z.to_nat n)%nat /\
              rho_advance lam c n (rho_advance s c n z) = rho_advance s c n z.
Proof.
  intros Hs.
  destruct (orbit_repeats (rho_step c n z) (rho_step_range z))
    as (i & j & Hij & Heq).
  exists (j - i)%nat. split; [lia | ].
  set (w := rho_step c n z) in *.
  assert (HP : rho_advance s c n z
               = rho_advance (s - 1 - i) c n (rho_advance i c n w)).
  { replace s with (S (i + (s - 1 - i))) at 1 by lia.
    cbn [rho_advance]. apply rho_advance_add. }
  rewrite HP.
  transitivity (rho_advance (j + (s - 1 - i)) c n w).
  - rewrite <- !rho_advance_add. f_equal. lia.
  - rewrite rho_advance_add, <- Heq. reflexivity.
Qed.

Lemma periodic_mult (lam : nat) (p : Z) :
  rho_advance lam c n p = p ->
  forall k, rho_advance (k * lam) c n p = p.
Proof.
  intros Hp. induction k as [| k IH]; [reflexivity | ].
  cbn [Nat.mul]. rewrite rho_advance_add, Hp. exact IH.
Qed.

(** A window of [r] consecutive steps that starts [r] steps after a
    point of period at most [r] comes back to that point. *)
Lemma hit_in_window (lam r : nat) (p : Z) :
  rho_advance lam c n p = p -> (1 <= lam <= r)%nat ->
  exists i, (1 <= i <= r)%nat /\
            rho_advance i c n (rho_advance r c n p) = p.
Proof.
  intros Hp Hlam.
  pose proof (Nat.Div0.mul_div_le r lam) as Hlo.
  pose proof (Nat.mul_succ_div_gt r lam ltac:(lia)) as Hhi.
  exists (S (r / lam) * lam - r)%nat. split; [nia | ].
  rewrite <- rho_advance_add.
  replace (r + (S (r / lam) * lam - r))%nat with (S (r / lam) * lam)%nat by nia.
  apply periodic_mult. exact Hp.
Qed.

End RhoMap.

(** ** Pollard's rho: batches and the fallback *)

Lemma gcd_mul_mod_coprime (a b n : Z) :
  n <> 0 -> Z.gcd a n = 1 -> Z.gcd b n = 1 -> Z.gcd ((a * b) mod n) n = 1.
Proof.
  intros Hn Ha Hb.
  rewrite Z.gcd_mod by exact Hn. rewrite Z.gcd_comm.
  apply Z.coprime_mul_l; assumption.
Qed.

Section RhoLoops.

Variables c n : Z.
Hypothesis n_big : 1 < n.

Lemma rho_batch_fst (x : Z) (count : nat) :
  forall y q, fst (rho_batch count c n x y q) = rho_advance count c n y.
Proof.
  induction count as [| count IH]; intros y q; [reflexivity | ].
  cbn [rho_batch rho_advance]. apply IH.
Qed.

Lemma rho_batch_zero (x : Z) (count : nat) :
  forall y, snd (rho_batch count c n x y 0) = 0.
Proof.
  induction count as [| count IH]; intros y; [reflexivity | ].
  cbn [rho_batch]. rewrite Z.mul_0_l, Z.mod_0_l by lia. apply IH.
Qed.

(** A batch that passes through [x] leaves the product at zero. *)
Lemma rho_batch_hit (x : Z) (count : nat) :
  forall y q i,
    (1 <= i <= count)%nat -> rho_advance i c n y = x ->
    snd (rho_batch count c n x y q) = 0.
Proof.
  induction count as [| count IH]; intros y q i Hi Hx; [lia | ].
  cbn [rho_batch].
  destruct i as [| [| i]]; [lia | | ].
  - cbn in Hx. rewrite Hx, Z.sub_diag. cbn [Z.abs].
    rewrite Z.mul_0_r, Z.mod_0_l by lia. apply rho_batch_zero.
  - apply (IH _ _ (S i)); [lia | exact Hx].
Qed.

(** The fallback replays the last batch one step at a time; when the
    product of that batch shares a factor with [n], one of its steps
    does. *)
Lemma rho_fallback_finds (x : Z) (count : nat) :
  forall fuel ys q,
    (count <= fuel)%nat -> Z.gcd q n = 1 ->
    Z.gcd (snd (rho_batch count c n x ys q)) n <> 1 ->
    exists g, rho_fallback fuel c n x ys = Ok g /\ 1 < g /\ (g | n).
Proof.
  induction count as [| count IH]; intros fuel ys q Hfuel Hq Hbatch.
  - cbn in Hbatch. contradiction.
  - destruct fuel as [| fuel]; [lia | ].
    cbn [rho_fallback]. cbn [rho_batch] in Hbatch.
    set (ys' := rho_step c n ys) in *.
    set (g := Z.gcd (Z.abs (x - ys')) n).
    destruct (Z.ltb_spec 1 g) as [Hg | Hg].
    + exists g. split; [reflexivity | ]. split; [exact Hg | ].
      apply Z.gcd_divide_r.
    + assert (Hg1 : g = 1).
      { pose proof (Z.gcd_nonneg (Z.abs (x - ys')) n) as Hnn.
        destruct (Z.eq_dec g 0) as [H0 | H0]; [ | unfold g in *; lia].
        apply Z.gcd_eq_0_r in H0. lia. }
      apply (IH fuel ys' ((q * Z.abs (x - ys')) mod n)); [lia | | exact Hbatch].
      apply gcd_mul_mod_coprime; [lia | exact Hq | exact Hg1].
Qed.

Variables m x r : Z.
Hypothesis m_pos : 1 <= m.

Lemma brent_batches_eq (fuel : nat) (k y q g ys : Z) :
  brent_batches fuel c n m x r k y q g ys =
  if (k <? r) && (g =? 1) then
    match fuel with
    | O => OutOfFuel
    | S fuel' =>
        let lim := Z.min m (r - k) in
        brent_batches fuel' c n m x r (k + lim)
          (fst (rho_batch (Z.to_nat lim) c n x y q))
          (snd (rho_batch (Z.to_nat lim) c n x y q))
          (Z.gcd (snd (rho_batch (Z.to_nat lim) c n x y q)) n) y
    end
  else Ok (y, q, g, ys).
Proof.
  destruct fuel as [| fuel]; cbn [brent_batches]; [reflexivity | ].
  destruct (rho_batch (Z.to_nat (Z.min m (r - k))) c n x y q) as [y' q'].
  reflexivity.
Qed.

Lemma brent_batches_returns (fuel : nat) :
  forall k y q g ys,
    0 <= k -> (Z.to_nat (r - k) <= fuel)%nat ->
    exists out, brent_batches fuel c n m x r k y q g ys = Ok out.
Proof.
  induction fuel as [| fuel IH]; intros k y q g ys Hk Hfuel;
    rewrite brent_batches_eq;
    destruct ((k <? r) && (g =? 1)) eqn:Hcond;
    try (eexists; reflexivity);
    apply andb_true_iff in Hcond; destruct Hcond as [Hkr _];
    apply Z.ltb_lt in Hkr.
  - lia.
  - cbv zeta. apply IH; lia.
Qed.

(** When some step of the round meets [x], the batches end with a
    [g] different from 1. *)
Lemma brent_batches_hit (fuel : nat) :
  forall k y q g ys y' q' g' ys' i,
    brent_batches fuel c n m x r k y q g ys = Ok (y', q', g', ys') ->
    0 <= k -> (1 <= i)%nat -> k + Z.of_nat i <= r ->
    rho_advance i c n y = x ->
    g' <> 1.
Proof.
  induction fuel as [| fuel IH];
    intros k y q g ys y' q' g' ys' i Hrun Hk Hi Hir Hx;
    rewrite brent_batches_eq in Hrun;
    destruct ((k <? r) && (g =? 1)) eqn:Hcond.
  - discriminate.
  - inversion Hrun; subst. apply andb_false_iff in Hcond.
    destruct Hcond as [Hc | Hc];
      [apply Z.ltb_ge in Hc; lia | apply Z.eqb_neq in Hc; exact Hc].
  - cbv zeta in Hrun.
    set (lim := Z.min m (r - k)) in *.
    assert (Hlim : 1 <= lim) by (unfold lim; lia).
    destruct (Nat.le_gt_cases i (Z.to_nat lim)) as [Hin | Hout].
    + rewrite (rho_batch_hit x (Z.to_nat lim) y q i) in Hrun by (lia || exact Hx).
      rewrite brent_batches_eq in Hrun.
      rewrite Z.gcd_0_l, Z.abs_eq in Hrun by lia.
      destruct (Z.eqb_spec n 1) as [? | _]; [lia | ].
      rewrite andb_false_r in Hrun. inversion Hrun; subst. lia.
    + apply (IH _ _ _ _ _ _ _ _ _ (i - Z.to_nat lim)%nat Hrun); try lia.
      rewrite rho_batch_fst, <- rho_advance_add.
      replace (Z.to_nat lim + (i - Z.to_nat lim))%nat with i by lia.
      exact Hx.
  - inversion Hrun; subst. apply andb_false_iff in Hcond.
    destruct Hcond as [Hc | Hc];
      [apply Z.ltb_ge in Hc; lia | apply Z.eqb_neq in Hc; exact Hc].
Qed.

(** Batches that end with [g = 1] have run the whole round. *)
Lemma brent_batches_full (fuel : nat) :
  forall k y q g ys y' q' g' ys',
    brent_batches fuel c n m x r k y q g ys = Ok (y', q', g', ys') ->
    0 <= k <= r -> g' = 1 ->
    y' = rho_advance (Z.to_nat (r - k)) c n y.
Proof.
  induction fuel as [| fuel IH];
    intros k y q g ys y' q' g' ys' Hrun Hk Hg;
    rewrite brent_batches_eq in Hrun;
    destruct ((k <? r) && (g =? 1)) eqn:Hcond;
    try discriminate;
    try (inversion Hrun; subst; apply andb_false_iff in Hcond;
         destruct Hcond as [Hc | Hc];
         [apply Z.ltb_ge in Hc; replace (r - k) with 0 by lia; reflexivity
         | apply Z.eqb_neq in Hc; contradiction]).
  cbv zeta in Hrun. apply andb_true_iff in Hcond. destruct Hcond as [Hkr _].
  apply Z.ltb_lt in Hkr.
  set (lim := Z.min m (r - k)) in *.
  assert (Hlim : 1 <= lim <= r - k) by (unfold lim; lia).
  rewrite (IH _ _ _ _ _ _ _ _ _ Hrun) by lia.
  rewrite rho_batch_fst, <- rho_advance_add. f_equal. lia.
Qed.

(** What the batches leave behind once at least one of them has run. *)
Lemma brent_batches_post (fuel : nat) :
  forall k y q g ys y' q' g' ys',
    brent_batches fuel c n m x r k y q g ys = Ok (y', q', g', ys') ->
    (k <? r) && (g =? 1) = true -> Z.gcd q n = 1 ->
    g' = Z.gcd q' n /\
    exists lim q0,
      (lim <= Z.to_nat m)%nat /\ Z.gcd q0 n = 1 /\
      rho_batch lim c n x ys' q0 = (y', q').
Proof.
  induction fuel as [| fuel IH];
    intros k y q g ys y' q' g' ys' Hrun Hcond Hq;
    rewrite brent_batches_eq, Hcond in Hrun; [discriminate | ].
  cbv zeta in Hrun.
  set (lim := Z.min m (r - k)) in *.
  set (y1 := fst (rho_batch (Z.to_nat lim) c n x y q)) in *.
  set (q1 := snd (rho_batch (Z.to_nat lim) c n x y q)) in *.
  destruct ((k + lim <? r) && (Z.gcd q1 n =? 1)) eqn:Hnext.
  - apply (IH _ _ _ _ _ _ _ _ _ Hrun Hnext).
    apply andb_true_iff in Hnext. destruct Hnext as [_ Hg1].
    apply Z.eqb_eq in Hg1. exact Hg1.
  - rewrite brent_batches_eq, Hnext in Hrun. inversion Hrun; subst.
    split; [reflexivity | ].
    exists (Z.to_nat lim), q. split; [unfold lim; lia | ].
    split; [exact Hq | ].
    apply surjective_pairing.
Qed.

Lemma brent_batches_divides (fuel : nat) :
  forall k y q g ys y' q' g' ys',
    brent_batches fuel c n m x r k y q g ys = Ok (y', q', g', ys') ->
    (g | n) -> (g' | n).
Proof.
  induction fuel as [| fuel IH];
    intros k y q g ys y' q' g' ys' Hrun Hg;
    rewrite brent_batches_eq in Hrun;
    destruct ((k <? r) && (g =? 1));
    try discriminate;
    try (inversion Hrun; subst; exact Hg).
  cbv zeta in Hrun. apply (IH _ _ _ _ _ _ _ _ _ Hrun).
  apply Z.gcd_divide_r.
Qed.

End RhoLoops.

(** ** Pollard's rho: the rounds end *)

Section RhoRounds.

Variables c n m : Z.
Hypothesis n_big : 1 < n.
Hypothesis m_pos : 1 <= m.

Lemma brent_rounds_done (fuel : nat) (st : brent) :
  b_g st <> 1 -> brent_rounds fuel c n m st = Ok st.
Proof.
  intros Hg. destruct fuel; cbn [brent_rounds];
    destruct (Z.eqb_spec (b_g st) 1); (contradiction || reflexivity).
Qed.

Lemma brent_rounds_step (fuel : nat) (st : brent) (y' q' g' ys' : Z) :
  b_g st = 1 ->
  brent_batches (Z.to_nat (b_r st)) c n m (b_y st) (b_r st) 0
    (rho_advance (Z.to_nat (b_r st)) c n (b_y st)) (b_q st) 1 (b_ys st)
  = Ok (y', q', g', ys') ->
  brent_rounds (S fuel) c n m st =
  brent_rounds fuel c n m
    (mkBrent y' g' (Z.shiftl (b_r st) 1) q' (b_y st) ys').
Proof.
  intros Hg Hrun. cbn [brent_rounds]. rewrite Hg, Hrun. reflexivity.
Qed.

(** Once [r] exceeds [n + 1], the round meets its own start. *)
Lemma round_must_exit (st : brent) (y' q' g' ys' : Z) :
  brent_inv c n st -> n + 2 <= b_r st ->
  brent_batches (Z.to_nat (b_r st)) c n m (b_y st) (b_r st) 0
    (rho_advance (Z.to_nat (b_r st)) c n (b_y st)) (b_q st) 1 (b_ys st)
  = Ok (y', q', g', ys') ->
  g' <> 1.
Proof.
  intros (Hr & _ & z & s & Hy & Hs) Hbig Hrun.
  destruct (eventually_periodic c n ltac:(lia) z s ltac:(lia))
    as (lam & Hlam & Hper).
  rewrite <- Hy in Hper.
  destruct (hit_in_window c n lam (Z.to_nat (b_r st)) (b_y st) Hper ltac:(lia))
    as (i & Hi & Hhit).
  apply (brent_batches_hit c n n_big m (b_y st) (b_r st) m_pos _
           _ _ _ _ _ _ _ _ _ i Hrun); [lia | lia | lia | exact Hhit].
Qed.

Lemma brent_rounds_exit (fuel : nat) :
  forall st,
    brent_inv c n st -> b_g st = 1 ->
    n + 2 <= b_r st * 2 ^ Z.of_nat fuel ->
    exists st', brent_rounds (S fuel) c n m st = Ok st' /\ brent_exit c n m st'.
Proof.
  induction fuel as [| fuel IH]; intros st Hinv Hg Hbound;
    pose proof Hinv as (Hr & Hq & z & s & Hy & Hs);
    destruct (brent_batches_returns c n m (b_y st) (b_r st) m_pos
                (Z.to_nat (b_r st)) 0
                (rho_advance (Z.to_nat (b_r st)) c n (b_y st))
                (b_q st) 1 (b_ys st) ltac:(lia) ltac:(lia))
      as ([[[y' q'] g'] ys'] & Hrun);
    rewrite (brent_rounds_step _ st y' q' g' ys' Hg Hrun);
    assert (Hcond : (0 <? b_r st) && (1 =? 1) = true)
      by (apply andb_true_iff; split; [apply Z.ltb_lt; lia | reflexivity]);
    destruct (brent_batches_post c n m (b_y st) (b_r st) m_pos
                _ _ _ _ _ _ _ _ _ _ Hrun Hcond Hq)
      as (Hg' & lim & q0 & Hlim & Hq0 & Hbatch).
  - assert (Hne : g' <> 1).
    { apply (round_must_exit st y' q' g' ys' Hinv); [ | exact Hrun].
      rewrite Z.pow_0_r in Hbound. lia. }
    eexists. split; [apply brent_rounds_done; exact Hne | ].
    split; [exact Hne | ]. split; [exact Hg' | ].
    exists lim, q0. repeat split; assumption.
  - destruct (Z.eq_dec g' 1) as [Heq | Hne].
    + apply IH.
      * unfold brent_inv. cbn [b_r b_q b_y].
        rewrite Z.shiftl_mul_pow2, Z.pow_1_r by lia.
        split; [lia | ]. split; [congruence | ].
        exists z, (s + Z.to_nat (b_r st) + Z.to_nat (b_r st))%nat.
        split; [ | lia].
        rewrite (brent_batches_full c n m (b_y st) (b_r st) m_pos _
                   _ _ _ _ _ _ _ _ _ Hrun ltac:(lia) Heq).
        rewrite Z.sub_0_r, Hy, <- !rho_advance_add. f_equal. lia.
      * exact Heq.
      * cbn [b_r]. rewrite Z.shiftl_mul_pow2, Z.pow_1_r by lia.
        rewrite Nat2Z.inj_succ, Z.pow_succ_r in Hbound by lia. lia.
    + eexists. split; [apply brent_rounds_done; exact Hne | ].
      split; [exact Hne | ]. split; [exact Hg' | ].
      exists lim, q0. repeat split; assumption.
Qed.

End RhoRounds.

(** One attempt always comes back, with a divisor of [n]. *)
Lemma rho_attempt_returns (n y c : Z) :
  1 < n -> exists g, rho_attempt n y c = Ok g /\ (g | n).
Proof.
  intros Hn. unfold rho_attempt.
  change (Z.shiftl 1 12) with 4096.
  destruct (brent_rounds_exit c n 4096 Hn ltac:(lia)
              (Z.to_nat (Z.log2_up (n + 2))) (mkBrent y 1 1 1 y y))
    as (st & Hrun & Hne & Hg & lim & q0 & Hlim & Hq0 & Hbatch).
  - split; [cbn; lia | ]. split; [apply Z.gcd_1_l | ].
    exists y, 0%nat. split; [reflexivity | cbn; lia].
  - reflexivity.
  - cbn [b_r]. pose proof (Z.log2_up_spec (n + 2) ltac:(lia)) as [_ Hup].
    pose proof (Z.log2_up_nonneg (n + 2)).
    rewrite Z2Nat.id by lia. lia.
  - unfold rho_rounds_budget. rewrite Hrun. cbn [bind].
    destruct (Z.eqb_spec (b_g st) n) as [Heq | Hneq].
    + destruct (rho_fallback_finds c n Hn (b_x st) lim (Z.to_nat 4096)
                  (b_ys st) q0 Hlim Hq0) as (g & Hfb & _ & Hdiv).
      { rewrite Hbatch. cbn [snd]. rewrite <- Hg. exact Hne. }
      exists g. split; assumption.
    + exists (b_g st). split; [reflexivity | ].
      rewrite Hg. apply Z.gcd_divide_r.
Qed.

Lemma randrange_odd (rnd : nat -> Z) (i : nat) (n : Z) :
  3 <= n -> exists v, randrange rnd i 1 (n - 1) = Ok v.
Proof.
  intros Hn. unfold randrange.
  destruct (Z.leb_spec (n - 1) 1); [lia | eexists; reflexivity].
Qed.

Lemma randrange_ok (rnd : nat -> Z) (i : nat) (n v : Z) :
  randrange rnd i 1 (n - 1) = Ok v -> 3 <= n.
Proof.
  unfold randrange. destruct (Z.leb_spec (n - 1) 1); [discriminate | lia].
Qed.

Lemma rho_attempts_returns (rnd : nat -> Z) (n : Z) (count : nat) :
  3 <= n -> forall i, exists r, rho_attempts count rnd i n = Ok r.
Proof.
  intros Hn. induction count as [| count IH]; intros i;
    [eexists; reflexivity | ].
  cbn [rho_attempts].
  destruct (randrange_odd rnd i n Hn) as [y ->].
  destruct (randrange_odd rnd (S i) n Hn) as [c ->]. cbn [bind].
  destruct (rho_attempt_returns n y c ltac:(lia)) as (g & -> & _). cbn [bind].
  destruct ((1 <? g) && (g <? n)); [eexists; reflexivity | apply IH].
Qed.

Lemma rho_attempts_sound (rnd : nat -> Z) (n g : Z) (count : nat) :
  forall i, rho_attempts count rnd i n = Ok (Some g) ->
            1 < g < n /\ (g | n).
Proof.
  induction count as [| count IH]; intros i Hrun; [discriminate | ].
  cbn [rho_attempts] in Hrun.
  destruct (randrange rnd i 1 (n - 1)) as [y | e | ] eqn:Hy;
    try discriminate.
  destruct (randrange rnd (S i) 1 (n - 1)) as [c | e | ];
    try discriminate.
  cbn [bind] in Hrun. apply randrange_ok in Hy.
  destruct (rho_attempt_returns n y c ltac:(lia)) as (g0 & Hg0 & Hdiv).
  rewrite Hg0 in Hrun. cbn [bind] in Hrun.
  destruct (Z.ltb_spec 1 g0); destruct (Z.ltb_spec g0 n); cbn [andb] in Hrun;
    try (apply (IH _ Hrun)).
  inversion Hrun; subst. split; [lia | exact Hdiv].
Qed.

(** [pollards_rho] comes back for every even [n] and every [n >= 3]. *)
Lemma pollards_rho_returns (rnd : nat -> Z) (n : Z) :
  n mod 2 = 0 \/ 3 <= n -> exists r, pollards_rho rnd n = Ok r.
Proof.
  intros Hn. unfold pollards_rho.
  destruct (Z.eqb_spec (n mod 2) 0) as [_ | Hodd]; [eexists; reflexivity | ].
  apply rho_attempts_returns. destruct Hn; [contradiction | assumption].
Qed.

(** The step budgets of the model are never exhausted. *)
Lemma pollards_rho_budget (rnd : nat -> Z) (n : Z) :
  pollards_rho rnd n <> OutOfFuel.
Proof.
  destruct (Z.eq_dec (n mod 2) 0) as [Heven | Hodd].
  - destruct (pollards_rho_returns rnd n (or_introl Heven)) as [r ->].
    discriminate.
  - destruct (Z.le_gt_cases 3 n) as [Hbig | Hsmall].
    + destruct (pollards_rho_returns rnd n (or_intror Hbig)) as [r ->].
      discriminate.
    + unfold pollards_rho, rho_attempts, randrange.
      destruct (Z.eqb_spec (n mod 2) 0) as [? | _]; [contradiction | ].
      destruct (Z.leb_spec (n - 1) 1); [discriminate | lia].
Qed.

Lemma pollards_rho_sound (rnd : nat -> Z) (n g : Z) :
  2 < n -> pollards_rho rnd n = Ok (Some g) -> 1 < g < n /\ (g | n).
Proof.
  intros Hn. unfold pollards_rho.
  destruct (Z.eqb_spec (n mod 2) 0) as [Heven | Hodd].
  - intros Hrun. inversion Hrun; subst. split; [lia | ].
    apply Z.mod_divide; [lia | exact Heven].
  - apply rho_attempts_sound.
Qed.

(** ** Every factor found is a proper divisor *)

Lemma pollards_p_minus_1_sound (n B d : Z) :
  pollards_p_minus_1 n B = Ok (Some d) -> 1 < d < n /\ (d | n).
Proof.
  unfold pollards_p_minus_1.
  destruct (pm1_loop (Z.to_nat (B + 1 - 2)) 2 2 n) as [a | e | ];
    try discriminate.
  cbn [bind].
  destruct (Z.ltb_spec 1 (Z.gcd (a - 1) n));
    destruct (Z.ltb_spec (Z.gcd (a - 1) n) n); cbn [andb];
    try discriminate.
  intros Heq. inversion Heq; subst d. split; [lia | apply Z.gcd_divide_r].
Qed.

Lemma fermat_accepts_divides (n a p : Z) :
  fermat_accepts n a p -> 1 < p < n /\ (p | n).
Proof.
  intros (b & _ & _ & Hp & Hpq & Hrange). split; [exact Hrange | ].
  exists (a + b). rewrite <- Hpq, Hp. lia.
Qed.

Lemma fermat_factor_sound (n cap p : Z) :
  2 < n -> fermat_factor n cap = Ok (Some p) -> 1 < p < n /\ (p | n).
Proof.
  intros Hn Hrun.
  destruct (Z.eq_dec (n mod 2) 0) as [Heven | Hodd].
  - rewrite (fermat_factor_even n cap Heven) in Hrun.
    inversion Hrun; subst p. split; [lia | ].
    apply Z.mod_divide; [lia | exact Heven].
  - rewrite (fermat_factor_odd n cap Hodd) in Hrun by lia.
    apply fermat_loop_some in Hrun. destruct Hrun as (i & _ & Hacc & _).
    apply (fermat_accepts_divides n _ p Hacc).
Qed.

Lemma cofactor (n f : Z) : 1 < f -> (f | n) -> f * (n / f) = n.
Proof.
  intros Hf [k Hk]. subst n. rewrite Z.div_mul by lia. lia.
Qed.

Lemma try_bounds_sound (n : Z) (bounds : list Z) (p q : Z) :
  try_bounds n bounds = Ok (Some (p, q)) -> p * q = n /\ 1 < p < n.
Proof.
  induction bounds as [| B rest IH]; [discriminate | ].
  cbn [try_bounds].
  destruct (pollards_p_minus_1 n B) as [[d | ] | e | ] eqn:Hpm1;
    cbn [bind]; try discriminate; [ | exact IH].
  intros Heq. inversion Heq; subst.
  destruct (pollards_p_minus_1_sound n B p Hpm1) as [Hrange Hdiv].
  split; [apply cofactor; [lia | exact Hdiv] | exact Hrange].
Qed.

Lemma try_factor_sound (rnd : nat -> Z) (n p q : Z) :
  2 < n -> try_factor rnd n = Ok (Some (p, q)) -> p * q = n /\ 1 < p < n.
Proof.
  intros Hn. unfold try_factor.
  destruct (try_bounds n pm1_bounds) as [[[p0 q0] | ] | e | ] eqn:Hb;
    cbn [bind]; try discriminate.
  - intros Heq. inversion Heq; subst.
    apply (try_bounds_sound n pm1_bounds p q Hb).
  - destruct (pollards_rho rnd n) as [[g | ] | e | ] eqn:Hrho;
      cbn [bind]; try discriminate.
    + intros Heq. inversion Heq; subst.
      destruct (pollards_rho_sound rnd n p Hn Hrho) as [Hrange Hdiv].
      split; [apply cofactor; [lia | exact Hdiv] | exact Hrange].
    + destruct (fermat_factor n fermat_cap) as [[f | ] | e | ] eqn:Hf;
        cbn [bind]; try discriminate.
      intros Heq. inversion Heq; subst.
      destruct (fermat_factor_sound n fermat_cap p Hn Hf) as [Hrange Hdiv].
      split; [apply cofactor; [lia | exact Hdiv] | exact Hrange].
Qed.

Lemma prime_product_gt_2 (P Q : Z) : Z.prime P -> Z.prime Q -> 2 < P * Q.
Proof.
  intros HP HQ. apply Z.prime_ge_2 in HP. apply Z.prime_ge_2 in HQ. nia.
Qed.

(** C5.  When [n] is a product of two primes and [try_factor] returns a
    pair [(p, q)], then [p * q = n] and [1 < p < n]. *)
Theorem try_factor_pair_nontrivial (rnd : nat -> Z) (P Q n p q : Z) :
  Z.prime P -> Z.prime Q -> n = P * Q ->
  try_factor rnd n = Ok (Some (p, q)) ->
  p * q = n /\ 1 < p < n.
Proof.
  intros HP HQ Hn. apply try_factor_sound.
  rewrite Hn. apply prime_product_gt_2; assumption.
Qed.

(** ** No method raises on a modulus of at least 2 *)

Lemma pm1_loop_returns (n : Z) (count : nat) :
  n <> 0 -> forall j a, 0 <= j -> exists a', pm1_loop count j a n = Ok a'.
Proof.
  intros Hn. induction count as [| count IH]; intros j a Hj;
    [eexists; reflexivity | ].
  cbn [pm1_loop]. rewrite pow3_nonneg by assumption. cbn [bind].
  apply IH. lia.
Qed.

Lemma pollards_p_minus_1_returns (n B : Z) :
  n <> 0 -> exists r, pollards_p_minus_1 n B = Ok r.
Proof.
  intros Hn. unfold pollards_p_minus_1.
  destruct (pm1_loop_returns n (Z.to_nat (B + 1 - 2)) Hn 2 2 ltac:(lia))
    as [a ->].
  cbn [bind].
  destruct ((1 <? Z.gcd (a - 1) n) && (Z.gcd (a - 1) n <? n));
    eexists; reflexivity.
Qed.

Lemma fermat_factor_returns (n cap : Z) :
  n mod 2 = 0 \/ 0 <= n -> exists r, fermat_factor n cap = Ok r.
Proof.
  intros Hn. destruct (Z.eq_dec (n mod 2) 0) as [Heven | Hodd].
  - rewrite (fermat_factor_even n cap Heven). eexists; reflexivity.
  - rewrite (fermat_factor_odd n cap Hodd) by (destruct Hn; [contradiction | lia]).
    apply fermat_loop_returns.
Qed.

Lemma wiener_attack_returns (e n : Z) :
  n <> 0 -> exists r, wiener_attack e n = Ok r.
Proof.
  intros Hn. unfold wiener_attack.
  destruct (cont_frac_nonempty e n Hn) as [rest ->]. cbn [convergents bind].
  apply wiener_scan_returns.
Qed.

(** C9, as the code has it.  On every modulus [n >= 2], which covers
    the even and the prime ones, each of the four methods returns an
    ordinary value, whatever the exponent, the bound, the cap and the
    random draws are; on an even [n], rho and Fermat return the factor 2
    at once. *)
Theorem methods_return (rnd : nat -> Z) (e n B cap : Z) :
  2 <= n ->
  returns (wiener_attack e n) /\
  returns (pollards_rho rnd n) /\
  returns (pollards_p_minus_1 n B) /\
  returns (fermat_factor n cap) /\
  (n mod 2 = 0 ->
   pollards_rho rnd n = Ok (Some 2) /\ fermat_factor n cap = Ok (Some 2)).
Proof.
  intros Hn. unfold returns. split; [ | split; [ | split; [ | split]]].
  - apply wiener_attack_returns. lia.
  - apply pollards_rho_returns.
    destruct (Z.eq_dec (n mod 2) 0) as [Heven | Hodd]; [left; exact Heven | ].
    right. destruct (Z.eq_dec n 2) as [-> | Hn2]; [ | lia].
    exfalso. apply Hodd. reflexivity.
  - apply pollards_p_minus_1_returns. lia.
  - apply fermat_factor_returns. right. lia.
  - intros Heven. split; [ | apply fermat_factor_even; exact Heven].
    unfold pollards_rho. rewrite Heven. reflexivity.
Qed.

Lemma methods_return_witness :
  2 <= 7 /\
  returns (wiener_attack 17 7) /\
  returns (pollards_rho (fun _ => 0) 7) /\
  returns (pollards_p_minus_1 7 100000) /\
  returns (fermat_factor 7 1000000).
Proof.
  split; [lia | ].
  destruct (methods_return (fun _ => 0) 17 7 100000 1000000 ltac:(lia))
    as (Hw & Hr & Hp & Hf & _).
  repeat split; assumption.
Defined.

(** C9, as stated, fails below 2: rho draws from the empty range
    [1 .. n - 2] when [n = 1], Wiener's attack indexes an empty list of
    coefficients when [n = 0], and [pow] rejects the modulus 0. *)
Lemma methods_raise_below_2 :
  pollards_rho (fun _ => 0) 1 = Raise ValueError /\
  wiener_attack 17 0 = Raise IndexError /\
  pollards_p_minus_1 0 2 = Raise ValueError.
Proof. repeat split. Qed.

(** *** Two moduli on which the orchestrator can be followed by hand *)

Lemma idem_pow (a n k : Z) :
  n <> 0 -> (a * a) mod n = a -> 1 <= k -> a ^ k mod n = a.
Proof.
  intros Hn Hidem Hk.
  assert (Ha : a mod n = a).
  { rewrite <- Hidem at 1. rewrite Z.mod_mod by exact Hn. exact Hidem. }
  replace k with (Z.succ (k - 1)) by lia.
  assert (Hk' : 0 <= k - 1) by lia. revert Hk'. generalize (k - 1).
  apply (natlike_ind (fun j => a ^ Z.succ j mod n = a)).
  - rewrite Z.pow_1_r. exact Ha.
  - intros j Hj IH. rewrite (Z.pow_succ_r a (Z.succ j)) by lia.
    rewrite Z.mul_mod, IH, Ha by exact Hn. exact Hidem.
Qed.

(** Once the accumulator of p-1 is idempotent modulo [n] it stays put. *)
Lemma pm1_acc_stable (n : Z) (J0 J : nat) :
  n <> 0 -> (2 <= J0 <= J)%nat ->
  (pm1_acc n J0 * pm1_acc n J0) mod n = pm1_acc n J0 ->
  pm1_acc n J = pm1_acc n J0.
Proof.
  intros Hn HJ Hidem. induction J as [| J IH]; [lia | ].
  destruct (Nat.eq_dec (S J) J0) as [<- | Hne]; [reflexivity | ].
  rewrite pm1_acc_S by lia. rewrite IH by lia.
  apply idem_pow; [exact Hn | exact Hidem | lia].
Qed.

Lemma pollards_p_minus_1_at_6 (B : Z) :
  2 <= B -> pollards_p_minus_1 6 B = Ok (Some 3).
Proof.
  intros HB. rewrite pollards_p_minus_1_value by lia.
  rewrite (pm1_acc_stable 6 2 (Z.to_nat B)) by (lia || reflexivity).
  reflexivity.
Qed.

Lemma try_factor_6 (rnd : nat -> Z) : try_factor rnd 6 = Ok (Some (3, 2)).
Proof.
  unfold try_factor, pm1_bounds. cbn [try_bounds].
  rewrite pollards_p_minus_1_at_6 by lia. reflexivity.
Qed.

Lemma prime_no_proper_divisor (n d : Z) :
  Z.prime n -> 1 < d < n -> ~ (d | n).
Proof. intros [_ Hp] Hd. apply Hp. exact Hd. Qed.

Lemma try_bounds_prime (n : Z) (bounds : list Z) :
  Z.prime n -> try_bounds n bounds = Ok None.
Proof.
  intros Hp. pose proof (Z.prime_ge_2 n Hp) as Hn.
  induction bounds as [| B rest IH]; [reflexivity | ].
  cbn [try_bounds].
  destruct (pollards_p_minus_1_returns n B ltac:(lia)) as [[d | ] Hrun];
    rewrite Hrun; cbn [bind]; [ | exact IH].
  exfalso. destruct (pollards_p_minus_1_sound n B d Hrun) as [Hrange Hdiv].
  apply (prime_no_proper_divisor n d Hp Hrange Hdiv).
Qed.

(** On an odd prime every method fails and the orchestrator reports
    that it is exhausted. *)
Lemma try_factor_prime (rnd : nat -> Z) (n : Z) :
  Z.prime n -> 2 < n -> try_factor rnd n = Ok None.
Proof.
  intros Hp Hn. unfold try_factor.
  assert (H3 : 3 <= n) by lia. assert (H0 : 0 <= n) by lia.
  rewrite (try_bounds_prime n pm1_bounds Hp). cbn [bind].
  destruct (pollards_rho_returns rnd n (or_intror H3)) as [[g | ] Hrho];
    rewrite Hrho; cbn [bind].
  { exfalso. destruct (pollards_rho_sound rnd n g Hn Hrho) as [Hrange Hdiv].
    apply (prime_no_proper_divisor n g Hp Hrange Hdiv). }
  destruct (fermat_factor_returns n fermat_cap (or_intror H0))
    as [[f | ] Hf]; rewrite Hf; cbn [bind]; [ | reflexivity].
  exfalso. destruct (fermat_factor_sound n fermat_cap f Hn Hf) as [Hrange Hdiv].
  apply (prime_no_proper_divisor n f Hp Hrange Hdiv).
Qed.

Lemma try_factor_pair_nontrivial_witness :
  (Z.prime 3 /\ Z.prime 2 /\ 6 = 3 * 2 /\
   try_factor (fun _ => 0) 6 = Ok (Some (3, 2))) /\
  (3 * 2 = 6 /\ 1 < 3 < 6).
Proof.
  split.
  - split; [exact Z.prime_3 | ]. split; [exact Z.prime_2 | ].
    split; [reflexivity | apply try_factor_6].
  - apply (try_factor_pair_nontrivial (fun _ => 0) 3 2 6 3 2
             Z.prime_3 Z.prime_2 eq_refl (try_factor_6 (fun _ => 0))).
Defined.

(** ** The orchestrator follows the state machine *)

(** Closes the case in which the method of the last visited state has
    found the factor [p]. *)
Ltac orch_found n visited p count :=
  exists visited, (Success p (n / p));
  cbn [app last removelast In orch_method orch_result];
  split; [reflexivity | ];
  split; [exists count; split; [lia | reflexivity] | ];
  split;
  [ intros s Hin;
    repeat (destruct Hin as [<- | Hin]; [cbn [orch_method]; assumption | ]);
    contradiction
  | split; [left; exists p; split; [assumption | reflexivity] | reflexivity] ].

(** C4.  For every [n > 1], hence for every composite [n], [try_factor]
    does what the state machine of the specification does: the machine
    visits a prefix of the schedule p-1 at the bounds 100000, 300000,
    700000 and 1200000, then rho, then Fermat with the cap 1000000;
    every visited method but the last has failed; either the last
    visited method has found [p] and the result is [(p, n / p)], or the
    whole schedule was visited, every method failed and the result is
    [None]. *)
Theorem try_factor_orchestrated (rnd : nat -> Z) (n : Z) :
  1 < n ->
  exists visited final,
    orch_run 6 rnd n orch_start = Ok (visited ++ [final]) /\
    (exists k, (1 <= k <= 6)%nat /\ visited = firstn k orch_schedule) /\
    (forall s, In s (removelast visited) -> orch_method rnd n s = Ok None) /\
    ((exists p, orch_method rnd n (last visited Exhausted) = Ok (Some p) /\
                final = Success p (n / p)) \/
     (orch_method rnd n (last visited Exhausted) = Ok None /\
      visited = orch_schedule /\ final = Exhausted)) /\
    try_factor rnd n = Ok (orch_result final).
Proof.
  intros Hn.
  assert (Hn0 : n <> 0) by lia.
  assert (Hrho : n mod 2 = 0 \/ 3 <= n).
  { destruct (Z.eq_dec n 2) as [-> | ?]; [left; reflexivity | right; lia]. }
  assert (Hfer : n mod 2 = 0 \/ 0 <= n) by (right; lia).
  destruct (pollards_p_minus_1_returns n 100000 Hn0) as [r1 H1].
  destruct (pollards_p_minus_1_returns n 300000 Hn0) as [r2 H2].
  destruct (pollards_p_minus_1_returns n 700000 Hn0) as [r3 H3].
  destruct (pollards_p_minus_1_returns n 1200000 Hn0) as [r4 H4].
  destruct (pollards_rho_returns rnd n Hrho) as [r5 H5].
  destruct (fermat_factor_returns n fermat_cap Hfer) as [r6 H6].
  unfold try_factor, pm1_bounds, orch_start, orch_schedule.
  cbn [orch_run orch_step orch_method orch_on_failure try_bounds].
  rewrite H1. cbn [bind].
  destruct r1 as [p | ];
    [orch_found n [TryPMinus1 100000 [300000; 700000; 1200000]] p 1%nat | ].
  cbn [orch_run orch_step orch_method orch_on_failure bind].
  rewrite H2. cbn [bind].
  destruct r2 as [p | ];
    [orch_found n [TryPMinus1 100000 [300000; 700000; 1200000];
                 TryPMinus1 300000 [700000; 1200000]] p 2%nat | ].
  cbn [orch_run orch_step orch_method orch_on_failure bind].
  rewrite H3. cbn [bind].
  destruct r3 as [p | ];
    [orch_found n [TryPMinus1 100000 [300000; 700000; 1200000];
                 TryPMinus1 300000 [700000; 1200000];
                 TryPMinus1 700000 [1200000]] p 3%nat | ].
  cbn [orch_run orch_step orch_method orch_on_failure bind].
  rewrite H4. cbn [bind].
  destruct r4 as [p | ];
    [orch_found n [TryPMinus1 100000 [300000; 700000; 1200000];
                 TryPMinus1 300000 [700000; 1200000];
                 TryPMinus1 700000 [1200000];
                 TryPMinus1 1200000 []] p 4%nat | ].
  cbn [orch_run orch_step orch_method orch_on_failure bind].
  rewrite H5. cbn [bind].
  destruct r5 as [p | ];
    [orch_found n [TryPMinus1 100000 [300000; 700000; 1200000];
                 TryPMinus1 300000 [700000; 1200000];
                 TryPMinus1 700000 [1200000];
                 TryPMinus1 1200000 []; TryRho] p 5%nat | ].
  cbn [orch_run orch_step orch_method orch_on_failure bind].
  rewrite H6. cbn [bind].
  destruct r6 as [p | ];
    [orch_found n [TryPMinus1 100000 [300000; 700000; 1200000];
                 TryPMinus1 300000 [700000; 1200000];
                 TryPMinus1 700000 [1200000];
                 TryPMinus1 1200000 []; TryRho; TryFermat] p 6%nat | ].
  cbn [orch_run orch_step orch_method orch_on_failure bind].
  exists [TryPMinus1 100000 [300000; 700000; 1200000];
          TryPMinus1 300000 [700000; 1200000];
          TryPMinus1 700000 [1200000];
          TryPMinus1 1200000 []; TryRho; TryFermat], Exhausted.
  cbn [app last removelast In orch_method orch_result].
  split; [reflexivity | ].
  split; [exists 6%nat; split; [lia | reflexivity] | ].
  split.
  - intros s Hin.
    repeat (destruct Hin as [<- | Hin]; [cbn [orch_method]; assumption | ]).
    contradiction.
  - split; [right; repeat split; assumption | reflexivity].
Qed.

Lemma try_factor_orchestrated_witness :
  1 < 15 /\
  exists visited final,
    orch_run 6 (fun _ => 0) 15 orch_start = Ok (visited ++ [final]) /\
    try_factor (fun _ => 0) 15 = Ok (orch_result final).
Proof.
  split; [lia | ].
  destruct (try_factor_orchestrated (fun _ => 0) 15 ltac:(lia))
    as (visited & final & Hrun & _ & _ & _ & Hres).
  exists visited, final. split; assumption.
Defined.

(** ** Failures of the key recovery service *)

Lemma recover_without_wiener (frames : nat) (rnd : nat -> Z) (e n c : Z) :
  wiener_attack e n = Ok None ->
  recover_and_decrypt frames rnd e n c = decrypt_by_factoring frames rnd e n c.
Proof. intros Hw. unfold recover_and_decrypt. rewrite Hw. reflexivity. Qed.






(** ** Decryption *)

Lemma no_divisor_from_sound (p : Z) (count : nat) :
  forall d, 0 < d -> no_divisor_from count d p = true ->
            forall k, d <= k < d + Z.of_nat count -> ~ (k | p).
Proof.
  induction count as [| count IH]; intros d Hd Hrun k Hk; [lia | ].
  cbn [no_divisor_from] in Hrun. apply andb_true_iff in Hrun.
  destruct Hrun as [Hhere Hrest].
  destruct (Z.eq_dec k d) as [-> | Hne].
  - apply negb_true_iff, Z.eqb_neq in Hhere. intros Hdiv. apply Hhere.
    apply Z.mod_divide; [lia | exact Hdiv].
  - apply (IH (d + 1)); [lia | exact Hrest | lia].
Qed.

Lemma prime_by_trial_sound (p : Z) : prime_by_trial p = true -> Z.prime p.
Proof.
  unfold prime_by_trial. intros Hrun. apply andb_true_iff in Hrun.
  destruct Hrun as [Hp Hnd]. apply Z.ltb_lt in Hp.
  split; [exact Hp | ]. intros k Hk.
  apply (no_divisor_from_sound p (Z.to_nat (p - 2)) 2 ltac:(lia) Hnd). lia.
Qed.

Lemma distinct_primes_coprime (P Q : Z) :
  Z.prime P -> Z.prime Q -> P <> Q -> Z.gcd P Q = 1.
Proof.
  intros HP HQ Hne. apply Z.coprime_prime_l; [exact HP | ].
  intros Hdiv. apply Hne. apply Z.divide_prime_prime; assumption.
Qed.

(** Fermat's little theorem, iterated. *)
Lemma pow_fermat_cycle (P M k : Z) :
  Z.prime P -> 0 <= k -> M ^ (1 + k * (P - 1)) mod P = M mod P.
Proof.
  intros HP Hk. pose proof (Z.prime_ge_2 P HP) as HP2.
  rewrite Z.pow_add_r, Z.pow_1_r by nia.
  destruct (Z.eq_dec (M mod P) 0) as [Hz | Hnz].
  - rewrite Z.mul_mod, Hz by lia. rewrite Z.mul_0_l. apply Z.mod_0_l. lia.
  - rewrite (Z.mul_comm k), Z.pow_mul_r by lia.
    rewrite Z.mul_mod by lia.
    rewrite <- (mod_pow_base (M ^ (P - 1)) k P) by lia.
    rewrite (Z.fermat_nz P M HP Hnz), Z.pow_1_l by lia.
    rewrite Z.mod_1_l by lia. rewrite Z.mul_1_r. apply Z.mod_mod. lia.
Qed.

(** The RSA identity for a modulus that is a product of two distinct
    primes. *)
Lemma rsa_identity (P Q M k : Z) :
  Z.prime P -> Z.prime Q -> P <> Q -> 0 <= k ->
  M ^ (1 + k * ((P - 1) * (Q - 1))) mod (P * Q) = M mod (P * Q).
Proof.
  intros HP HQ Hne Hk.
  pose proof (Z.prime_ge_2 P HP) as HP2. pose proof (Z.prime_ge_2 Q HQ) as HQ2.
  set (x := M ^ (1 + k * ((P - 1) * (Q - 1)))).
  assert (HxP : exists u, x - M = u * P).
  { apply Z.cong_iff_ex. unfold x.
    replace (k * ((P - 1) * (Q - 1))) with (k * (Q - 1) * (P - 1)) by lia.
    apply pow_fermat_cycle; [exact HP | nia]. }
  assert (HxQ : exists v, x - M = v * Q).
  { apply Z.cong_iff_ex. unfold x.
    replace (k * ((P - 1) * (Q - 1))) with (k * (P - 1) * (Q - 1)) by lia.
    apply pow_fermat_cycle; [exact HQ | nia]. }
  destruct HxP as [u Hu]. destruct HxQ as [v Hv].
  assert (HQu : (Q | u)).
  { apply (Z.gauss Q P u).
    - exists v. lia.
    - apply distinct_primes_coprime; [exact HQ | exact HP | congruence]. }
  destruct HQu as [w Hw]. apply Z.cong_iff_ex. exists w. nia.
Qed.

(** The factors of a product of two primes are these two primes. *)
Lemma factor_pair_of_semiprime (P Q p q : Z) :
  Z.prime P -> Z.prime Q -> p * q = P * Q -> 1 < p < P * Q ->
  (p = P /\ q = Q) \/ (p = Q /\ q = P).
Proof.
  intros HP HQ Hpq Hrange.
  pose proof (Z.prime_ge_2 P HP) as HP2. pose proof (Z.prime_ge_2 Q HQ) as HQ2.
  assert (Hq : 1 < q) by nia.
  assert (HPdiv : (P | p * q)) by (exists Q; lia).
  apply Z.divide_prime_mul in HPdiv; [ | exact HP].
  destruct HPdiv as [[a Ha] | [a Ha]].
  - assert (HaQ : (a | Q)) by (exists q; nia).
    apply Z.divide_prime_r in HaQ; [ | exact HQ].
    destruct HaQ as [-> | [-> | [-> | ->]]]; try nia.
  - assert (HaQ : (a | Q)) by (exists p; nia).
    apply Z.divide_prime_r in HaQ; [ | exact HQ].
    destruct HaQ as [-> | [-> | [-> | ->]]]; try nia.
Qed.

Lemma totient_gt_1 (P Q : Z) :
  Z.prime P -> Z.prime Q -> P <> Q -> 1 < (P - 1) * (Q - 1).
Proof.
  intros HP HQ Hne.
  pose proof (Z.prime_ge_2 P HP). pose proof (Z.prime_ge_2 Q HQ). nia.
Qed.

Lemma long_to_bytes_nonneg (m : Z) :
  0 <= m -> exists pt, long_to_bytes m = Ok pt.
Proof.
  intros Hm. unfold long_to_bytes.
  destruct (Z.ltb_spec m 0); [lia | eexists; reflexivity].
Qed.

(** Decrypting [m ^ e mod n] with the inverse of [e] modulo the totient
    gives [m] back. *)
Lemma pow3_decrypts (P Q e d m : Z) :
  Z.prime P -> Z.prime Q -> P <> Q ->
  0 < e -> 0 <= d -> (e * d) mod ((P - 1) * (Q - 1)) = 1 ->
  0 <= m < P * Q ->
  pow3 (m ^ e mod (P * Q)) d (P * Q) = Ok m.
Proof.
  intros HP HQ Hne He Hd Hinv Hm.
  pose proof (totient_gt_1 P Q HP HQ Hne) as Hphi.
  rewrite pow3_nonneg by lia.
  rewrite mod_pow_base by lia. rewrite <- Z.pow_mul_r by lia.
  pose proof (Z.div_mod (e * d) ((P - 1) * (Q - 1)) ltac:(lia)) as Hdm.
  rewrite Hinv in Hdm.
  assert (Hk : 0 <= e * d / ((P - 1) * (Q - 1))) by (apply Z.div_pos; nia).
  replace (e * d) with (1 + e * d / ((P - 1) * (Q - 1)) * ((P - 1) * (Q - 1)))
    by lia.
  rewrite rsa_identity by assumption.
  rewrite Z.mod_small by exact Hm. reflexivity.
Qed.

(** The factoring path decrypts correctly: for distinct primes [P], [Q],
    a positive exponent coprime to the totient and a plaintext below the
    modulus, a successful factorization leads to the byte rendering of
    the plaintext, when the stack has room for the nested calls of
    [egcd] on the exponent and the totient. *)
Theorem decrypt_by_factoring_correct
  (frames : nat) (rnd : nat -> Z) (P Q e m p q : Z) :
  Z.prime P -> Z.prime Q -> P <> Q ->
  0 < e -> Z.gcd e ((P - 1) * (Q - 1)) = 1 ->
  (egcd_calls e ((P - 1) * (Q - 1)) <= frames)%nat ->
  0 <= m < P * Q ->
  try_factor rnd (P * Q) = Ok (Some (p, q)) ->
  exists pt,
    long_to_bytes m = Ok pt /\
    decrypt_by_factoring frames rnd e (P * Q) (m ^ e mod (P * Q))
    = Ok (Some pt).
Proof.
  intros HP HQ Hne He Hgcd Hroom Hm Hfac.
  pose proof (totient_gt_1 P Q HP HQ Hne) as Hphi.
  destruct (try_factor_sound rnd (P * Q) p q
              (prime_product_gt_2 P Q HP HQ) Hfac) as [Hpq Hrange].
  assert (Htot : (p - 1) * (q - 1) = (P - 1) * (Q - 1)).
  { destruct (factor_pair_of_semiprime P Q p q HP HQ Hpq Hrange)
      as [[-> ->] | [-> ->]]; lia. }
  destruct (invmod_coprime frames e ((P - 1) * (Q - 1)) Hphi Hroom Hgcd)
    as (d & Hinv & Hd & Hed).
  destruct (long_to_bytes_nonneg m ltac:(lia)) as [pt Hpt].
  exists pt. split; [exact Hpt | ].
  unfold decrypt_by_factoring. rewrite Hfac. cbn [bind].
  rewrite Htot, Hinv. cbn [bind].
  rewrite (pow3_decrypts P Q e d m) by (assumption || lia).
  cbn [bind]. rewrite Hpt. reflexivity.
Qed.

(** A method that succeeds late is still reached when the earlier ones
    fail, so the orchestrator succeeds whenever Fermat's method does. *)
Lemma try_factor_succeeds_with_fermat (rnd : nat -> Z) (n f : Z) :
  1 < n -> fermat_factor n fermat_cap = Ok (Some f) ->
  exists p q, try_factor rnd n = Ok (Some (p, q)).
Proof.
  intros Hn Hf. unfold try_factor.
  assert (Hb : exists r, try_bounds n pm1_bounds = Ok r).
  { unfold pm1_bounds. generalize [100000; 300000; 700000; 1200000].
    intros bounds. induction bounds as [| B rest IH]; [eexists; reflexivity | ].
    cbn [try_bounds].
    destruct (pollards_p_minus_1_returns n B ltac:(lia)) as [[d | ] ->];
      cbn [bind]; [eexists; reflexivity | exact IH]. }
  destruct Hb as [[[p q] | ] ->]; cbn [bind]; [eexists; eexists; reflexivity | ].
  assert (Hrho : n mod 2 = 0 \/ 3 <= n).
  { destruct (Z.eq_dec n 2) as [-> | ?]; [left; reflexivity | right; lia]. }
  destruct (pollards_rho_returns rnd n Hrho) as [[g | ] ->]; cbn [bind];
    [eexists; eexists; reflexivity | ].
  rewrite Hf. cbn [bind]. eexists; eexists; reflexivity.
Qed.

Lemma fermat_factor_3233 : fermat_factor 3233 fermat_cap = Ok (Some 53).
Proof.
  rewrite fermat_factor_odd by (discriminate || lia).
  replace (Z.to_nat fermat_cap) with (S (Z.to_nat (fermat_cap - 1)))
    by (unfold fermat_cap; lia).
  change (if Z.sqrt 3233 * Z.sqrt 3233 <? 3233
          then Z.sqrt 3233 + 1 else Z.sqrt 3233) with 57.
  rewrite fermat_loop_S.
  change (fermat_test 3233 57) with true. reflexivity.
Qed.

Lemma egcd_calls_17_3120 : egcd_calls 17 ((61 - 1) * (53 - 1)) = 6%nat.
Proof. reflexivity. Qed.

(** The end-to-end example of the specification: [e = 17], [P = 61],
    [Q = 53], plaintext 65, ciphertext 2790; whatever the random draws
    are, the service returns the one byte [0x41].  [egcd] nests six
    calls on the exponent 17 and the totient 3120. *)
Example recover_3233 (frames : nat) (rnd : nat -> Z) :
  (6 <= frames)%nat ->
  65 ^ 17 mod 3233 = 2790 /\
  recover_and_decrypt frames rnd 17 3233 2790 = Ok (Some [x41]).
Proof.
  intros Hroom. rewrite <- egcd_calls_17_3120 in Hroom.
  split; [reflexivity | ].
  assert (H61 : Z.prime 61) by (apply prime_by_trial_sound; reflexivity).
  assert (H53 : Z.prime 53) by (apply prime_by_trial_sound; reflexivity).
  destruct (try_factor_succeeds_with_fermat rnd 3233 53 ltac:(lia)
              fermat_factor_3233) as (p & q & Hfac).
  rewrite recover_without_wiener by reflexivity.
  destruct (decrypt_by_factoring_correct frames rnd 61 53 17 65 p q H61 H53
              ltac:(lia) ltac:(lia) eq_refl Hroom ltac:(lia) Hfac)
    as (pt & Hpt & Hdec).
  change (61 * 53) with 3233 in Hdec.
  change (65 ^ 17 mod 3233) with 2790 in Hdec.
  rewrite Hdec. inversion Hpt. reflexivity.
Qed.

(** C1 at a failing input.  For the primes 11 and 61, the exponent 149
    (coprime to the totient 600) and the plaintext 2, Wiener's attack
    accepts the convergent [(1, 5)]: there [phi = 744 = 12 * 62] and the
    discriminant [(671 - 744 + 1) ^ 2 - 4 * 671 = 2500] is a square, with
    the negative roots [-11] and [-61].  The service decrypts with the
    exponent 5 and returns the bytes of 406 instead of the bytes of 2. *)
Theorem wiener_false_positive (frames : nat) (rnd : nat -> Z) :
  Z.prime 11 /\ Z.prime 61 /\ Z.gcd 149 ((11 - 1) * (61 - 1)) = 1 /\
  0 <= 2 < 11 * 61 /\
  wiener_attack 149 (11 * 61) = Ok (Some 5) /\
  wiener_disc 149 (11 * 61) 1 5 = 50 * 50 /\
  recover_and_decrypt frames rnd 149 (11 * 61) (2 ^ 149 mod (11 * 61))
  = Ok (Some [x01; x96]) /\
  long_to_bytes 2 = Ok [x02] /\
  long_to_bytes 406 = Ok [x01; x96].
Proof.
  split; [apply prime_by_trial_sound; reflexivity | ].
  split; [apply prime_by_trial_sound; reflexivity | ].
  repeat split; try reflexivity; lia.
Qed.

(** * Further properties of the code *)

(** ** [egcd] and [invmod] on all integers *)

Lemma xgcd_abs_gcd (a b : Z) : Z.abs (fst (fst (xgcd a b))) = Z.gcd a b.
Proof.
  revert a b. apply (euclid_ind (fun a b =>
    Z.abs (fst (fst (xgcd a b))) = Z.gcd a b)).
  - intros a. rewrite xgcd_eqn. cbn. rewrite Z.gcd_0_r. reflexivity.
  - intros a b Hb IH. rewrite xgcd_eqn.
    destruct (Z.eqb_spec b 0) as [? | _]; [contradiction | ].
    destruct (xgcd b (a mod b)) as [[g x1] y1]. cbn [fst] in IH |- *.
    rewrite IH, (Z.gcd_comm b), Z.gcd_mod by exact Hb. apply Z.gcd_comm.
Qed.

Lemma xgcd_negative (a b : Z) : b < 0 -> fst (fst (xgcd a b)) < 0.
Proof.
  revert a b. apply (euclid_ind (fun a b =>
    b < 0 -> fst (fst (xgcd a b)) < 0)).
  - intros a Hb. lia.
  - intros a b Hb IH Hneg. rewrite xgcd_eqn.
    destruct (Z.eqb_spec b 0) as [? | _]; [contradiction | ].
    pose proof (Z.mod_neg_bound a b Hneg) as Hr.
    destruct (Z.eq_dec (a mod b) 0) as [Hz | Hnz].
    + rewrite Hz, xgcd_eqn. cbn. exact Hneg.
    + specialize (IH ltac:(lia)).
      destruct (xgcd b (a mod b)) as [[g x1] y1]. exact IH.
Qed.

(** For all integers [a] and [b]: when the stack has room for the
    [egcd_calls a b] nested calls, [egcd frames a b] returns [(g, x, y)]
    with [a * x + b * y = g], and [g] is the greatest common divisor up
    to its sign: [|g| = gcd a b], with [g < 0] when [b < 0] and [g = a]
    when [b = 0].  With less room [egcd] raises [RecursionError].  The
    calls are at most twice the bit length of [b], plus three. *)
Theorem egcd_all_integers (frames : nat) (a b : Z) :
  ((egcd_calls a b <= frames)%nat ->
   exists g x y,
     egcd frames a b = Ok (g, x, y) /\
     a * x + b * y = g /\ Z.abs g = Z.gcd a b /\
     (b < 0 -> g < 0) /\ (b = 0 -> g = a)) /\
  ((frames < egcd_calls a b)%nat -> egcd frames a b = Raise RecursionError) /\
  (egcd_calls a b <= 2 * Z.to_nat (Z.log2 (Z.abs b) + 1) + 3)%nat.
Proof.
  split; [ | split; [apply egcd_overflow | apply egcd_calls_bound]].
  intros Hroom. rewrite (egcd_enough frames a b Hroom).
  pose proof (xgcd_bezout a b) as Hz.
  pose proof (xgcd_abs_gcd a b) as Hg.
  pose proof (xgcd_negative a b) as Hs.
  pose proof (xgcd_eqn a b) as He.
  destruct (xgcd a b) as [[g x] y]. cbn [fst] in Hg, Hs.
  exists g, x, y. repeat split; try assumption.
  intros ->. cbn in He. inversion He. reflexivity.
Qed.

Lemma egcd_all_integers_witness :
  ((egcd_calls 3 (-7) <= recursion_limit)%nat /\
   exists g x y,
     egcd recursion_limit 3 (-7) = Ok (g, x, y) /\
     3 * x + -7 * y = g /\ g < 0) /\
  ((2 < egcd_calls 5 3)%nat /\ egcd 2 5 3 = Raise RecursionError).
Proof.
  assert (Hroom : (egcd_calls 3 (-7) <= recursion_limit)%nat).
  { apply Nat.leb_le. vm_compute. reflexivity. }
  assert (Hshort : (2 < egcd_calls 5 3)%nat).
  { apply Nat.ltb_lt. vm_compute. reflexivity. }
  split; split; try assumption.
  - destruct (proj1 (egcd_all_integers recursion_limit 3 (-7)) Hroom)
      as (g & x & y & Hrun & Hz & _ & Hneg & _).
    exists g, x, y. split; [exact Hrun | ]. split; [exact Hz | ].
    apply Hneg. lia.
  - apply (proj1 (proj2 (egcd_all_integers 2 5 3))). exact Hshort.
Defined.

Lemma coprime_of_inverse (a m x : Z) :
  1 < m -> (a * x) mod m = 1 -> Z.gcd a m = 1.
Proof.
  intros Hm Hinv. apply Z.bezout_1_gcd.
  exists x, (- ((a * x) / m)).
  pose proof (Z.div_mod (a * x) m ltac:(lia)). lia.
Qed.

Lemma invmod_returned (frames : nat) (a m : Z) (r : option Z) :
  invmod frames a m = Ok r -> (egcd_calls a m <= frames)%nat.
Proof.
  intros Hrun.
  destruct (Nat.le_gt_cases (egcd_calls a m) frames) as [H | H];
    [exact H | ].
  rewrite (invmod_overflow frames a m H) in Hrun. discriminate.
Qed.

Lemma invmod_inverse (frames : nat) (a m x : Z) :
  1 < m -> (egcd_calls a m <= frames)%nat ->
  (invmod frames a m = Ok (Some x) <-> 0 <= x < m /\ (a * x) mod m = 1).
Proof.
  intros Hm Hroom. split.
  - intros Hrun.
    destruct (Z.eq_dec (Z.gcd a m) 1) as [Hg | Hg].
    + destruct (invmod_coprime frames a m Hm Hroom Hg)
        as (x0 & Hx0 & Hrange & Hinv).
      rewrite Hx0 in Hrun. inversion Hrun; subst. split; assumption.
    + rewrite (invmod_not_coprime frames a m ltac:(lia) Hroom Hg) in Hrun.
      discriminate.
  - intros [Hrange Hinv].
    pose proof (coprime_of_inverse a m x Hm Hinv) as Hg.
    destruct (invmod_coprime frames a m Hm Hroom Hg)
      as (x0 & Hx0 & Hrange0 & Hinv0).
    rewrite Hx0. f_equal. f_equal.
    assert (Hdiv : (m | a * (x0 - x))).
    { apply Z.mod_divide; [lia | ].
      rewrite Z.mul_sub_distr_l, Zminus_mod, Hinv0, Hinv. reflexivity. }
    apply Z.gauss in Hdiv; [ | rewrite Z.gcd_comm; exact Hg].
    destruct Hdiv as [k Hk].
    destruct (Z.eq_dec k 0) as [-> | Hk0]; [lia | ].
    exfalso. assert (1 <= k \/ k <= -1) as [Hpos | Hneg] by lia; nia.
Qed.

(** For a modulus [m > 1], a value [x] that [invmod frames a m] returns
    is the inverse of [a] in [0 .. m - 1]; and when the stack has room
    for the nested calls of [egcd], [invmod] returns [x] exactly when [x]
    is that inverse, which is therefore unique. *)
Theorem invmod_iff (frames : nat) (a m x : Z) :
  1 < m ->
  (invmod frames a m = Ok (Some x) -> 0 <= x < m /\ (a * x) mod m = 1) /\
  ((egcd_calls a m <= frames)%nat ->
   (invmod frames a m = Ok (Some x) <-> 0 <= x < m /\ (a * x) mod m = 1)).
Proof.
  intros Hm. split.
  - intros Hrun.
    apply (invmod_inverse frames a m x Hm); [ | exact Hrun].
    apply (invmod_returned frames a m (Some x) Hrun).
  - apply invmod_inverse. exact Hm.
Qed.

Lemma invmod_iff_witness :
  1 < 3120 /\ (egcd_calls 17 3120 <= recursion_limit)%nat /\
  invmod recursion_limit 17 3120 = Ok (Some 2753).
Proof.
  assert (Hroom : (egcd_calls 17 3120 <= recursion_limit)%nat).
  { apply Nat.leb_le. vm_compute. reflexivity. }
  split; [lia | ]. split; [exact Hroom | ].
  apply (proj2 (invmod_iff recursion_limit 17 3120 2753 ltac:(lia)) Hroom).
  split; [lia | reflexivity].
Defined.

(** Outside that domain, with room on the stack for the nested calls of
    [egcd] (one for the modulus 0, two for the modulus 1): with the
    modulus 0, [invmod] raises [ZeroDivisionError] for [a = 1] and
    returns [None] for every other [a]; with the modulus 1 it returns 0;
    with a negative modulus it returns [None] for every [a], invertible
    or not.  Without that room [invmod] raises [RecursionError], whatever
    the modulus. *)
Theorem invmod_degenerate_modulus (frames : nat) (a m : Z) :
  (m = 0 -> (1 <= frames)%nat ->
   invmod frames a m = if a =? 1 then Raise ZeroDivisionError else Ok None) /\
  (m = 1 -> (2 <= frames)%nat -> invmod frames a m = Ok (Some 0)) /\
  (m < 0 -> (egcd_calls a m <= frames)%nat -> invmod frames a m = Ok None) /\
  ((frames < egcd_calls a m)%nat -> invmod frames a m = Raise RecursionError).
Proof.
  split; [ | split; [ | split]].
  - intros -> Hroom. rewrite invmod_enough by (rewrite egcd_calls_0; exact Hroom).
    rewrite xgcd_eqn. cbn. destruct (a =? 1); reflexivity.
  - intros -> Hroom.
    rewrite invmod_enough.
    + rewrite xgcd_eqn. cbn [Z.eqb].
      rewrite Z.mod_1_r, xgcd_eqn. cbn. reflexivity.
    + rewrite egcd_calls_step by discriminate.
      rewrite Z.mod_1_r, egcd_calls_0. exact Hroom.
  - intros Hneg Hroom. rewrite (invmod_enough frames a m Hroom).
    pose proof (xgcd_negative a m Hneg) as Hg.
    destruct (xgcd a m) as [[g x] y]. cbn [fst] in Hg.
    destruct (Z.eqb_spec g 1) as [-> | _]; [lia | reflexivity].
  - apply invmod_overflow.
Qed.

Lemma invmod_degenerate_modulus_witness :
  (0 = 0 /\ (1 <= recursion_limit)%nat /\
   invmod recursion_limit 1 0 = Raise ZeroDivisionError) /\
  (1 = 1 /\ (2 <= recursion_limit)%nat /\
   invmod recursion_limit 5 1 = Ok (Some 0)) /\
  (-7 < 0 /\ (egcd_calls 3 (-7) <= recursion_limit)%nat /\
   invmod recursion_limit 3 (-7) = Ok None) /\
  ((2 < egcd_calls 5 (-3))%nat /\ invmod 2 5 (-3) = Raise RecursionError).
Proof.
  assert (H1 : (1 <= recursion_limit)%nat) by (unfold recursion_limit; lia).
  assert (H2 : (2 <= recursion_limit)%nat) by (unfold recursion_limit; lia).
  assert (Hroom : (egcd_calls 3 (-7) <= recursion_limit)%nat).
  { apply Nat.leb_le. vm_compute. reflexivity. }
  assert (Hshort : (2 < egcd_calls 5 (-3))%nat).
  { apply Nat.ltb_lt. vm_compute. reflexivity. }
  split; [ | split; [ | split]].
  - split; [reflexivity | ]. split; [exact H1 | ].
    apply (proj1 (invmod_degenerate_modulus recursion_limit 1 0));
      [reflexivity | exact H1].
  - split; [reflexivity | ]. split; [exact H2 | ].
    apply (proj1 (proj2 (invmod_degenerate_modulus recursion_limit 5 1)));
      [reflexivity | exact H2].
  - split; [lia | ]. split; [exact Hroom | ].
    apply (proj1 (proj2 (proj2
             (invmod_degenerate_modulus recursion_limit 3 (-7)))));
      [lia | exact Hroom].
  - split; [exact Hshort | ].
    apply (proj2 (proj2 (proj2 (invmod_degenerate_modulus 2 5 (-3))))).
    exact Hshort.
Defined.

(** On the Fibonacci numbers number [k + 1] and [k], [k >= 2], [egcd]
    nests exactly [k] calls: with room for [k] calls it returns the
    greatest common divisor 1, with less room it raises
    [RecursionError]; and [invmod] of the number [k] modulo the number
    [k + 1], which is greater than 1 and coprime to it, raises
    [RecursionError] unless there is room for [k + 1] calls. *)
Theorem egcd_fibonacci_depth (frames k : nat) :
  (2 <= k)%nat ->
  egcd_calls (fib (S k)) (fib k) = k /\
  ((k <= frames)%nat ->
   exists x y, egcd frames (fib (S k)) (fib k) = Ok (1, x, y)) /\
  ((frames < k)%nat ->
   egcd frames (fib (S k)) (fib k) = Raise RecursionError) /\
  ((frames <= k)%nat ->
   1 < fib (S k) /\ Z.gcd (fib k) (fib (S k)) = 1 /\
   invmod frames (fib k) (fib (S k)) = Raise RecursionError).
Proof.
  intros Hk. pose proof (egcd_calls_fib k Hk) as Hcalls.
  split; [exact Hcalls | ]. split; [ | split].
  - intros Hroom. rewrite egcd_enough by lia.
    destruct (xgcd_triple (fib (S k)) (fib k))
      as (x & y & He & _).
    + apply fib_nonneg.
    + right. pose proof (fib_nonneg k). lia.
    + rewrite Z.gcd_comm, fib_coprime in He. exists x, y.
      rewrite He. reflexivity.
  - intros Hshort. apply egcd_overflow. lia.
  - intros Hshort. apply invmod_fib_overflow; assumption.
Qed.

Lemma egcd_fibonacci_depth_witness :
  ((2 <= 10)%nat /\ (10 <= recursion_limit)%nat /\
   exists x y, egcd recursion_limit (fib 11) (fib 10) = Ok (1, x, y)) /\
  ((2 <= 1001)%nat /\ (recursion_limit < 1001)%nat /\
   egcd recursion_limit (fib 1002) (fib 1001) = Raise RecursionError) /\
  ((2 <= 1000)%nat /\ (recursion_limit <= 1000)%nat /\
   invmod recursion_limit (fib 1000) (fib 1001) = Raise RecursionError).
Proof.
  assert (H10 : (2 <= 10)%nat) by lia.
  assert (H1001 : (2 <= 1001)%nat) by lia.
  assert (H1000 : (2 <= 1000)%nat) by lia.
  assert (Hroom : (10 <= recursion_limit)%nat)
    by (unfold recursion_limit; lia).
  assert (Hshort : (recursion_limit < 1001)%nat)
    by (unfold recursion_limit; lia).
  assert (Hfull : (recursion_limit <= 1000)%nat)
    by (unfold recursion_limit; lia).
  split; [ | split].
  - split; [exact H10 | ]. split; [exact Hroom | ].
    apply (proj1 (proj2 (egcd_fibonacci_depth recursion_limit 10 H10))).
    exact Hroom.
  - split; [exact H1001 | ]. split; [exact Hshort | ].
    apply (proj1 (proj2 (proj2
             (egcd_fibonacci_depth recursion_limit 1001 H1001)))).
    exact Hshort.
  - split; [exact H1000 | ]. split; [exact Hfull | ].
    apply (proj2 (proj2 (proj2
             (egcd_fibonacci_depth recursion_limit 1000 H1000)))).
    exact Hfull.
Defined.

(** ** Shape of the continued fraction and of its convergents *)

(** After a division by a positive number every further quotient of the
    descent is at least 1. *)
Lemma cont_frac_tail_positive (a b : Z) :
  0 <= b < a -> Forall (fun q => 1 <= q) (cont_frac a b).
Proof.
  revert a b. apply (euclid_ind (fun a b =>
    0 <= b < a -> Forall (fun q => 1 <= q) (cont_frac a b))).
  - intros a _. rewrite cont_frac_eqn. constructor.
  - intros a b Hb IH Hab. rewrite cont_frac_eqn.
    destruct (Z.eqb_spec b 0) as [? | _]; [contradiction | ].
    constructor.
    + apply Z.div_le_lower_bound; lia.
    + rewrite floor_remainder by exact Hb. apply IH.
      pose proof (Z.mod_pos_bound a b ltac:(lia)). lia.
Qed.

(** For a positive denominator, [cont_frac num den] starts with the
    floor of [num / den], all its later coefficients are at least 1, and
    it has at most [2 * (log2 den + 1) + 2] coefficients. *)
Theorem cont_frac_shape (num den : Z) :
  0 < den ->
  exists rest,
    cont_frac num den = num / den :: rest /\
    Forall (fun q => 1 <= q) rest /\
    Z.of_nat (length (cont_frac num den)) <= 2 * (Z.log2 den + 1) + 2.
Proof.
  intros Hden.
  exists (cont_frac den (num - num / den * den)). split; [ | split].
  - rewrite cont_frac_eqn.
    destruct (Z.eqb_spec den 0) as [? | _]; [lia | reflexivity].
  - rewrite floor_remainder by lia. apply cont_frac_tail_positive.
    pose proof (Z.mod_pos_bound num den Hden). lia.
  - unfold cont_frac.
    pose proof (cont_frac_fuel_length (euclid_depth den) num den) as Hlen.
    pose proof (Z.log2_nonneg den).
    unfold euclid_depth in *. rewrite Z.abs_eq in * by lia. lia.
Qed.

Lemma cont_frac_shape_witness :
  0 < 3233 /\
  exists rest,
    cont_frac 17 3233 = 17 / 3233 :: rest /\
    Forall (fun q => 1 <= q) rest /\
    Z.of_nat (length (cont_frac 17 3233)) <= 2 * (Z.log2 3233 + 1) + 2.
Proof.
  split; [lia | ]. apply (cont_frac_shape 17 3233). lia.
Defined.

(** The invariant of the loop of [convergents]: the cross product of two
    consecutive pairs alternates between 1 and -1. *)
Lemma convergents_from_det (rest : list Z) :
  forall n0 d0 n1 d1 sign,
    n1 * d0 - n0 * d1 = sign ->
    forall i k0 e0 k1 e1,
      nth_error ((n1, d1) :: convergents_from n0 d0 n1 d1 rest) i
      = Some (k0, e0) ->
      nth_error ((n1, d1) :: convergents_from n0 d0 n1 d1 rest) (S i)
      = Some (k1, e1) ->
      k1 * e0 - k0 * e1 = sign * (-1) ^ (Z.of_nat (S i)).
Proof.
  induction rest as [| a rest IH]; intros n0 d0 n1 d1 sign Hdet i k0 e0 k1 e1 H0 H1.
  - destruct i; cbn in H1; discriminate.
  - cbn [convergents_from] in H0, H1. destruct i as [| i].
    + cbn in H0, H1. inversion H0; inversion H1; subst. lia.
    + cbn [nth_error] in H0, H1.
      rewrite (IH n1 d1 (a * n1 + n0) (a * d1 + d0) (- sign)
                 ltac:(lia) i k0 e0 k1 e1 H0 H1).
      rewrite (Nat2Z.inj_succ (S i)), Z.pow_succ_r by lia. lia.
Qed.

Lemma coprime_of_det (k0 d0 k1 d1 : Z) :
  k1 * d0 - k0 * d1 = 1 \/ k1 * d0 - k0 * d1 = -1 ->
  Z.gcd k0 d0 = 1 /\ Z.gcd k1 d1 = 1.
Proof.
  intros [Hdet | Hdet]; split; apply Z.bezout_1_gcd.
  - exists (- d1), k1. lia.
  - exists d0, (- k0). lia.
  - exists d1, (- k1). lia.
  - exists (- d0), k0. lia.
Qed.

Lemma pow_m1_cases (i : nat) : (-1) ^ Z.of_nat i = 1 \/ (-1) ^ Z.of_nat i = -1.
Proof.
  induction i as [| i IH]; [left; reflexivity | ].
  rewrite Nat2Z.inj_succ, Z.pow_succ_r by lia. lia.
Qed.

Lemma convergents_det_gcd (cf : list Z) (cs : list (Z * Z)) :
  convergents cf = Ok cs ->
  (forall i k0 d0 k1 d1,
      nth_error cs i = Some (k0, d0) -> nth_error cs (S i) = Some (k1, d1) ->
      k1 * d0 - k0 * d1 = (-1) ^ Z.of_nat i) /\
  (forall k d, In (k, d) cs -> Z.gcd k d = 1).
Proof.
  destruct cf as [| a0 rest]; [discriminate | ].
  intros Heq. inversion Heq; subst cs. clear Heq.
  assert (Hdet : forall i k0 d0 k1 d1,
             nth_error ((a0, 1) :: convergents_from 1 0 a0 1 rest) i
             = Some (k0, d0) ->
             nth_error ((a0, 1) :: convergents_from 1 0 a0 1 rest) (S i)
             = Some (k1, d1) ->
             k1 * d0 - k0 * d1 = (-1) ^ Z.of_nat i).
  { intros i k0 d0 k1 d1 H0 H1.
    rewrite (convergents_from_det rest 1 0 a0 1 (-1) ltac:(lia)
               i k0 d0 k1 d1 H0 H1).
    rewrite Nat2Z.inj_succ, Z.pow_succ_r by lia. lia. }
  split; [exact Hdet | ].
  intros k d Hin. apply In_nth_error in Hin. destruct Hin as [i Hi].
  destruct i as [| i].
  - cbn in Hi. inversion Hi; subst. apply Z.gcd_1_r.
  - destruct (nth_error ((a0, 1) :: convergents_from 1 0 a0 1 rest) i)
      as [[k0 d0] | ] eqn:Hprev.
    + pose proof (Hdet i k0 d0 k d Hprev Hi) as Hd.
      apply (coprime_of_det k0 d0 k d).
      destruct (pow_m1_cases i) as [Hs | Hs]; rewrite Hs in Hd; lia.
    + exfalso. apply nth_error_None in Hprev.
      assert (Hsome : nth_error ((a0, 1) :: convergents_from 1 0 a0 1 rest) (S i)
                      <> None) by congruence.
      apply nth_error_Some in Hsome. lia.
Qed.

(** For every coefficient list, two consecutive pairs [(k0, d0)],
    [(k1, d1)] yielded by [convergents], the first at index [i], satisfy
    [k1 * d0 - k0 * d1 = (-1) ^ i]; hence every pair is in lowest
    terms. *)
Theorem convergents_lowest_terms (cf : list Z) (cs : list (Z * Z)) :
  convergents cf = Ok cs ->
  (forall i k0 d0 k1 d1,
      nth_error cs i = Some (k0, d0) -> nth_error cs (S i) = Some (k1, d1) ->
      k1 * d0 - k0 * d1 = (-1) ^ Z.of_nat i) /\
  (forall k d, In (k, d) cs -> Z.gcd k d = 1).
Proof. apply convergents_det_gcd. Qed.

Lemma convergents_lowest_terms_witness :
  convergents [0; 190; 5; 1; 2]
  = Ok [(0, 1); (1, 190); (5, 951); (6, 1141); (17, 3233)] /\
  6 * 951 - 5 * 1141 = (-1) ^ Z.of_nat 2 /\
  Z.gcd 17 3233 = 1.
Proof.
  split; [reflexivity | ].
  destruct (convergents_lowest_terms [0; 190; 5; 1; 2]
              [(0, 1); (1, 190); (5, 951); (6, 1141); (17, 3233)] eq_refl)
    as [Hdet Hgcd].
  split.
  - apply (Hdet 2%nat 5 951 6 1141); reflexivity.
  - apply Hgcd. cbn. tauto.
Defined.

Lemma cf_value_positive (l : list Z) :
  Forall (fun q => 1 <= q) l ->
  1 <= fst (cf_value l) /\ 0 <= snd (cf_value l).
Proof.
  induction 1 as [| a l Ha Hl [Hk Hd]]; [cbn; lia | ].
  cbn [cf_value]. destruct (cf_value l) as [k d]. cbn [fst snd] in *. nia.
Qed.

Lemma Forall_firstn_ge_1 (l : list Z) (k : nat) :
  Forall (fun q => 1 <= q) l -> Forall (fun q => 1 <= q) (firstn k l).
Proof.
  intros Hl. revert k.
  induction Hl as [| a l Ha Hl IH]; intros [| k]; cbn [firstn];
    constructor; [exact Ha | apply IH].
Qed.

(** With a positive denominator every convergent has a denominator of
    at least 1. *)
Lemma convergent_denominator (num den : Z) (i : nat) :
  0 < den -> (i < length (cont_frac num den))%nat ->
  1 <= snd (convergent (cont_frac num den) i).
Proof.
  intros Hden Hi. rewrite convergent_value by exact Hi.
  assert (Hshape : exists rest, cont_frac num den = num / den :: rest /\
                                Forall (fun q => 1 <= q) rest).
  { exists (cont_frac den (num - num / den * den)). split.
    - rewrite cont_frac_eqn.
      destruct (Z.eqb_spec den 0) as [? | _]; [lia | reflexivity].
    - rewrite floor_remainder by lia. apply cont_frac_tail_positive.
      pose proof (Z.mod_pos_bound num den Hden). lia. }
  destruct Hshape as (rest & -> & Hrest).
  cbn [firstn cf_value].
  destruct (cf_value_positive (firstn i rest) (Forall_firstn_ge_1 rest i Hrest))
    as [Hk _].
  destruct (cf_value (firstn i rest)) as [k d]. exact Hk.
Qed.

Lemma convergents_denominators (num den : Z) (cs : list (Z * Z)) :
  0 < den -> convergents (cont_frac num den) = Ok cs ->
  forall k d, In (k, d) cs -> 1 <= d.
Proof.
  intros Hden Hcs k d Hin.
  destruct (convergents_spec (cont_frac num den)) as (cs' & Hcs' & Hlen & Hnth).
  { intros Hnil. rewrite Hnil in Hcs. discriminate. }
  assert (cs' = cs) by congruence. subst cs'.
  apply In_nth_error in Hin. destruct Hin as [i Hi].
  assert (Hlt : (i < length cs)%nat) by (apply nth_error_Some; congruence).
  rewrite Hnth in Hi by lia. inversion Hi as [Hconv].
  pose proof (convergent_denominator num den i Hden ltac:(lia)) as Hpos.
  rewrite Hconv in Hpos. exact Hpos.
Qed.

(** For a positive denominator the convergents of [cont_frac num den]
    have denominators of at least 1, and the last one is [num / den] in
    lowest terms: [(num / g, den / g)] with [g = gcd num den]. *)
Theorem cont_frac_reduced (num den : Z) :
  0 < den ->
  exists cs K D,
    convergents (cont_frac num den) = Ok cs /\
    last cs (1, 0) = (K, D) /\
    1 <= D /\ Z.gcd K D = 1 /\
    num = Z.gcd num den * K /\ den = Z.gcd num den * D /\
    (forall k d, In (k, d) cs -> 1 <= d).
Proof.
  intros Hden.
  destruct (cont_frac_nonempty num den ltac:(lia)) as [rest Hcf].
  destruct (convergents_spec (cont_frac num den)) as (cs & Hcs & Hlen & Hnth).
  { rewrite Hcf. discriminate. }
  pose proof (convergents_last _ cs Hcs) as Hlast.
  destruct (cf_value (cont_frac num den)) as [K D] eqn:Hval.
  exists cs, K, D.
  assert (Hin : In (K, D) cs).
  { rewrite <- Hlast. destruct (exists_last (l := cs)) as (front & z & ->).
    - intros ->. rewrite Hcf in Hlen. discriminate.
    - rewrite last_last. apply in_or_app. right. left. reflexivity. }
  pose proof (convergents_denominators num den cs Hden Hcs) as Hdens.
  pose proof (Hdens K D Hin) as HD.
  pose proof (proj2 (convergents_det_gcd _ cs Hcs) K D Hin) as Hgcd.
  destruct (cont_frac_value num den) as [g [Hnum Hd]].
  rewrite Hval in Hnum, Hd. cbn [fst snd] in Hnum, Hd.
  assert (Hg : Z.gcd num den = g).
  { rewrite Hnum, Hd, Z.gcd_mul_mono_l, Hgcd. nia. }
  rewrite Hg. repeat split; assumption.
Qed.

Lemma cont_frac_reduced_witness :
  0 < 4 /\
  exists cs K D,
    convergents (cont_frac 6 4) = Ok cs /\
    last cs (1, 0) = (K, D) /\
    1 <= D /\ Z.gcd K D = 1 /\
    6 = Z.gcd 6 4 * K /\ 4 = Z.gcd 6 4 * D /\
    (forall k d, In (k, d) cs -> 1 <= d).
Proof.
  split; [lia | ]. apply (cont_frac_reduced 6 4). lia.
Defined.

(** ** The service trusts Wiener's exponent *)

Lemma wiener_exponent_positive (e n d : Z) :
  0 < n -> wiener_attack e n = Ok (Some d) -> 1 <= d.
Proof.
  intros Hn. unfold wiener_attack.
  destruct (convergents (cont_frac e n)) as [cs | ex | ] eqn:Hcs;
    cbn [bind]; try discriminate.
  intros Hscan. apply wiener_scan_some in Hscan.
  destruct Hscan as (i & k & Hi & _).
  apply (convergents_denominators e n cs Hn Hcs k d).
  apply (nth_error_In cs i). exact Hi.
Qed.

Lemma recover_wiener_path (frames : nat) (rnd : nat -> Z) (e n c d : Z) :
  0 < n -> wiener_attack e n = Ok (Some d) ->
  exists pt, long_to_bytes (c ^ d mod n) = Ok pt /\
             recover_and_decrypt frames rnd e n c = Ok (Some pt).
Proof.
  intros Hn Hw.
  pose proof (wiener_exponent_positive e n d Hn Hw) as Hd.
  pose proof (Z.mod_pos_bound (c ^ d) n Hn) as Hm.
  destruct (long_to_bytes_nonneg (c ^ d mod n) ltac:(lia)) as [pt Hpt].
  exists pt. split; [exact Hpt | ].
  unfold recover_and_decrypt. rewrite Hw. cbn [bind].
  rewrite pow3_nonneg by lia. cbn [bind]. rewrite Hpt. reflexivity.
Qed.

(** For a positive modulus, an exponent [d] returned by [wiener_attack]
    is at least 1, the decryption with it cannot raise, and the service
    returns the bytes of [c ^ d mod n] without ever trying to factor:
    the [except] branch is dead and [d] is not checked further. *)
Theorem recover_trusts_wiener (frames : nat) (rnd : nat -> Z) (e n c d : Z) :
  0 < n -> wiener_attack e n = Ok (Some d) ->
  1 <= d /\
  exists pt, long_to_bytes (c ^ d mod n) = Ok pt /\
             recover_and_decrypt frames rnd e n c = Ok (Some pt).
Proof.
  intros Hn Hw. split.
  - apply (wiener_exponent_positive e n d Hn Hw).
  - apply recover_wiener_path; assumption.
Qed.

Lemma recover_trusts_wiener_witness :
  (0 < 671 /\ wiener_attack 149 671 = Ok (Some 5)) /\
  1 <= 5 /\
  exists pt, long_to_bytes (457 ^ 5 mod 671) = Ok pt /\
             recover_and_decrypt recursion_limit (fun _ => 0) 149 671 457
             = Ok (Some pt).
Proof.
  split; [split; [lia | reflexivity] | ].
  apply (recover_trusts_wiener recursion_limit (fun _ => 0) 149 671 457 5);
    [lia | reflexivity].
Defined.

(** ** When Wiener's test is right *)

(** A discriminant that is a square, with a positive root sum [s], splits
    [n] into two positive integer factors whose sum is [s]. *)
Lemma square_discriminant_factors (n s t : Z) :
  0 < n -> 0 < s -> 0 <= t -> t * t = s * s - 4 * n ->
  exists x1 x2, 1 <= x1 <= x2 /\ x1 * x2 = n /\ x1 + x2 = s.
Proof.
  intros Hn Hs Ht Hsq.
  assert (Hts : t < s) by nia.
  destruct (Z.Even_or_Odd (s - t)) as [[x1 Hx1] | [x1 Hx1]].
  - exists x1, (x1 + t). split; [lia | ]. split; [nia | lia].
  - exfalso.
    assert (Hprod : (s - t) * (s + t) = 4 * n) by nia.
    replace (s + t) with (2 * (x1 + t) + 1) in Hprod by lia.
    rewrite Hx1 in Hprod.
    assert (Hexp : (2 * x1 + 1) * (2 * (x1 + t) + 1)
                   = 2 * (2 * (x1 * (x1 + t)) + x1 + (x1 + t)) + 1) by ring.
    lia.
Qed.

Lemma wiener_candidate_is_totient (P Q e k d : Z) :
  Z.prime P -> Z.prime Q ->
  wiener_accepts e (P * Q) k d ->
  0 < (e * d - 1) / k <= P * Q ->
  (e * d - 1) / k = (P - 1) * (Q - 1).
Proof.
  intros HP HQ (Hk & Hdiv & Hpos & r & Hr) Hphi.
  pose proof (Z.prime_ge_2 P HP) as HP2. pose proof (Z.prime_ge_2 Q HQ) as HQ2.
  cbv zeta in Hpos, Hr.
  set (phi := (e * d - 1) / k) in *.
  destruct (square_discriminant_factors (P * Q) (P * Q - phi + 1) (Z.abs r))
    as (x1 & x2 & Hx & Hprod & Hsum); try nia.
  destruct (Z.eq_dec x1 1) as [-> | Hx1]; [nia | ].
  destruct (factor_pair_of_semiprime P Q x1 x2 HP HQ Hprod ltac:(nia))
    as [[-> ->] | [-> ->]]; lia.
Qed.

(** Wiener's test is sound when the totient candidate lies between 1 and
    [n]: for [n = P * Q] with primes [P] and [Q], a pair [(k, d)] that
    passes the test with [0 < (e * d - 1) / k <= n] yields the true
    totient, so [e * d = 1 + k * (P - 1) * (Q - 1)]. *)
Theorem wiener_test_sound (P Q e k d : Z) :
  Z.prime P -> Z.prime Q ->
  wiener_test e (P * Q) k d = true ->
  0 < (e * d - 1) / k <= P * Q ->
  (e * d - 1) / k = (P - 1) * (Q - 1) /\
  e * d = 1 + k * ((P - 1) * (Q - 1)).
Proof.
  intros HP HQ Htest Hphi. apply wiener_test_iff in Htest.
  pose proof (wiener_candidate_is_totient P Q e k d HP HQ Htest Hphi) as Htot.
  split; [exact Htot | ].
  destruct Htest as (Hk & [u Hu] & _).
  rewrite <- Htot, Hu, Z.div_mul by exact Hk. lia.
Qed.

Lemma wiener_test_sound_witness :
  (Z.prime 13 /\ Z.prime 23 /\ wiener_test 53 (13 * 23) 1 5 = true /\
   0 < (53 * 5 - 1) / 1 <= 13 * 23) /\
  (53 * 5 - 1) / 1 = (13 - 1) * (23 - 1) /\
  53 * 5 = 1 + 1 * ((13 - 1) * (23 - 1)).
Proof.
  assert (H13 : Z.prime 13) by (apply prime_by_trial_sound; reflexivity).
  assert (H23 : Z.prime 23) by (apply prime_by_trial_sound; reflexivity).
  assert (Hrange : 0 < (53 * 5 - 1) / 1 <= 13 * 23)
    by (split; [reflexivity | discriminate]).
  split; [exact (conj H13 (conj H23 (conj eq_refl Hrange))) | ].
  apply (wiener_test_sound 13 23 53 1 5 H13 H23 eq_refl Hrange).
Defined.

(** When the exponent returned by [wiener_attack] is a private exponent
    of the key ([e * d = 1] modulo the totient), the service returns the
    bytes of the plaintext. *)
Theorem recover_correct_via_wiener
  (frames : nat) (rnd : nat -> Z) (P Q e m d : Z) :
  Z.prime P -> Z.prime Q -> P <> Q ->
  0 < e -> 0 <= m < P * Q ->
  wiener_attack e (P * Q) = Ok (Some d) ->
  (e * d) mod ((P - 1) * (Q - 1)) = 1 ->
  exists pt,
    long_to_bytes m = Ok pt /\
    recover_and_decrypt frames rnd e (P * Q) (m ^ e mod (P * Q))
    = Ok (Some pt).
Proof.
  intros HP HQ Hne He Hm Hw Hinv.
  pose proof (Z.prime_ge_2 P HP) as HP2. pose proof (Z.prime_ge_2 Q HQ) as HQ2.
  pose proof (wiener_exponent_positive e (P * Q) d ltac:(nia) Hw) as Hd.
  destruct (long_to_bytes_nonneg m ltac:(lia)) as [pt Hpt].
  exists pt. split; [exact Hpt | ].
  unfold recover_and_decrypt. rewrite Hw. cbn [bind].
  rewrite (pow3_decrypts P Q e d m) by (assumption || lia).
  cbn [bind]. rewrite Hpt. reflexivity.
Qed.

Lemma recover_correct_via_wiener_witness :
  (Z.prime 13 /\ Z.prime 23 /\ 13 <> 23 /\ 0 < 53 /\ 0 <= 2 < 13 * 23 /\
   wiener_attack 53 (13 * 23) = Ok (Some 5) /\
   (53 * 5) mod ((13 - 1) * (23 - 1)) = 1) /\
  exists pt,
    long_to_bytes 2 = Ok pt /\
    recover_and_decrypt recursion_limit (fun _ => 0) 53 (13 * 23)
      (2 ^ 53 mod (13 * 23))
    = Ok (Some pt).
Proof.
  assert (H13 : Z.prime 13) by (apply prime_by_trial_sound; reflexivity).
  assert (H23 : Z.prime 23) by (apply prime_by_trial_sound; reflexivity).
  assert (Hm : 0 <= 2 < 13 * 23) by (split; [discriminate | reflexivity]).
  split.
  - split; [exact H13 | ]. split; [exact H23 | ]. split; [discriminate | ].
    split; [reflexivity | ]. split; [exact Hm | ]. split; reflexivity.
  - apply (recover_correct_via_wiener recursion_limit (fun _ => 0)
             13 23 53 2 5 H13 H23
             ltac:(discriminate) ltac:(reflexivity) Hm eq_refl eq_refl).
Defined.

(** ** The factoring path and the safety of the service *)

Lemma pollards_p_minus_1_3233 (B : Z) :
  13 <= B -> pollards_p_minus_1 3233 B = Ok None.
Proof.
  intros HB. rewrite pollards_p_minus_1_value by lia.
  rewrite (pm1_acc_stable 3233 13 (Z.to_nat B)) by (lia || reflexivity).
  reflexivity.
Qed.

Lemma try_factor_3233 : try_factor (fun _ => 0) 3233 = Ok (Some (53, 61)).
Proof.
  unfold try_factor, pm1_bounds. cbn [try_bounds].
  rewrite !pollards_p_minus_1_3233 by lia. reflexivity.
Qed.

(** When Wiener's attack finds nothing and the orchestrator factors the
    modulus, the service returns the bytes of the plaintext: for distinct
    primes [P], [Q], a positive exponent coprime to the totient, a
    plaintext below the modulus, and a stack with room for the nested
    calls of [egcd] on the exponent and the totient. *)
Theorem recover_correct_by_factoring
  (frames : nat) (rnd : nat -> Z) (P Q e m p q : Z) :
  Z.prime P -> Z.prime Q -> P <> Q ->
  0 < e -> Z.gcd e ((P - 1) * (Q - 1)) = 1 ->
  (egcd_calls e ((P - 1) * (Q - 1)) <= frames)%nat ->
  0 <= m < P * Q ->
  wiener_attack e (P * Q) = Ok None ->
  try_factor rnd (P * Q) = Ok (Some (p, q)) ->
  exists pt,
    long_to_bytes m = Ok pt /\
    recover_and_decrypt frames rnd e (P * Q) (m ^ e mod (P * Q))
    = Ok (Some pt).
Proof.
  intros HP HQ Hne He Hgcd Hroom Hm Hw Hfac.
  rewrite (recover_without_wiener frames rnd e (P * Q) _ Hw).
  apply (decrypt_by_factoring_correct frames rnd P Q e m p q); assumption.
Qed.

Lemma recover_correct_by_factoring_witness :
  (Z.prime 61 /\ Z.prime 53 /\ 61 <> 53 /\ 0 < 17 /\
   Z.gcd 17 ((61 - 1) * (53 - 1)) = 1 /\
   (egcd_calls 17 ((61 - 1) * (53 - 1)) <= recursion_limit)%nat /\
   0 <= 65 < 61 * 53 /\
   wiener_attack 17 (61 * 53) = Ok None /\
   try_factor (fun _ => 0) (61 * 53) = Ok (Some (53, 61))) /\
  exists pt,
    long_to_bytes 65 = Ok pt /\
    recover_and_decrypt recursion_limit (fun _ => 0) 17 (61 * 53)
      (65 ^ 17 mod (61 * 53))
    = Ok (Some pt).
Proof.
  assert (H61 : Z.prime 61) by (apply prime_by_trial_sound; reflexivity).
  assert (H53 : Z.prime 53) by (apply prime_by_trial_sound; reflexivity).
  assert (Hm : 0 <= 65 < 61 * 53) by (split; [discriminate | reflexivity]).
  assert (Hroom : (egcd_calls 17 ((61 - 1) * (53 - 1)) <= recursion_limit)%nat).
  { rewrite egcd_calls_17_3120. unfold recursion_limit. lia. }
  split.
  - split; [exact H61 | ]. split; [exact H53 | ]. split; [discriminate | ].
    split; [reflexivity | ]. split; [reflexivity | ]. split; [exact Hroom | ].
    split; [exact Hm | ]. split; [reflexivity | exact try_factor_3233].
  - apply (recover_correct_by_factoring recursion_limit (fun _ => 0)
             61 53 17 65 53 61 H61 H53
             ltac:(discriminate) ltac:(reflexivity) eq_refl Hroom Hm eq_refl
             try_factor_3233).
Defined.

Lemma try_bounds_returns (n : Z) (bounds : list Z) :
  n <> 0 -> exists r, try_bounds n bounds = Ok r.
Proof.
  intros Hn. induction bounds as [| B rest IH]; [eexists; reflexivity | ].
  cbn [try_bounds].
  destruct (pollards_p_minus_1_returns n B Hn) as [[d | ] ->];
    cbn [bind]; [eexists; reflexivity | exact IH].
Qed.

Lemma try_factor_returns (rnd : nat -> Z) (n : Z) :
  1 < n -> exists r, try_factor rnd n = Ok r.
Proof.
  intros Hn. unfold try_factor.
  destruct (try_bounds_returns n pm1_bounds ltac:(lia)) as [[pq | ] ->];
    cbn [bind]; [eexists; reflexivity | ].
  assert (Hrho : n mod 2 = 0 \/ 3 <= n).
  { destruct (Z.eq_dec n 2) as [-> | ?]; [left; reflexivity | right; lia]. }
  destruct (pollards_rho_returns rnd n Hrho) as [[g | ] ->]; cbn [bind];
    [eexists; reflexivity | ].
  assert (Hfer : n mod 2 = 0 \/ 0 <= n) by (right; lia).
  destruct (fermat_factor_returns n fermat_cap Hfer) as [[f | ] ->];
    cbn [bind]; eexists; reflexivity.
Qed.

Lemma invmod_positive_modulus (frames : nat) (a m : Z) :
  0 < m -> (egcd_calls a m <= frames)%nat ->
  invmod frames a m = Ok None \/
  exists x, invmod frames a m = Ok (Some x) /\ 0 <= x < m.
Proof.
  intros Hm Hroom. rewrite (invmod_enough frames a m Hroom).
  destruct (xgcd a m) as [[g x] y].
  destruct (g =? 1); cbn [negb]; [ | left; reflexivity].
  destruct (Z.eqb_spec m 0) as [? | _]; [lia | ].
  right. exists (x mod m). split; [reflexivity | ].
  apply Z.mod_pos_bound. exact Hm.
Qed.

(** The factoring path returns, unless [egcd] runs out of stack on the
    exponent and the totient of the pair that was found. *)
Lemma decrypt_by_factoring_outcome
  (frames : nat) (rnd : nat -> Z) (e n c : Z) :
  2 < n ->
  (exists r, decrypt_by_factoring frames rnd e n c = Ok r) \/
  (decrypt_by_factoring frames rnd e n c = Raise RecursionError /\
   exists p q,
     try_factor rnd n = Ok (Some (p, q)) /\ 0 < (p - 1) * (q - 1) < n /\
     (frames < egcd_calls e ((p - 1) * (q - 1)))%nat).
Proof.
  intros Hn. unfold decrypt_by_factoring.
  destruct (try_factor_returns rnd n ltac:(lia)) as [[[p q] | ] Hfac];
    rewrite Hfac; cbn [bind]; [ | left; eexists; reflexivity].
  destruct (try_factor_sound rnd n p q Hn Hfac) as [Hpq Hp].
  assert (Hphi : 0 < (p - 1) * (q - 1) < n) by nia.
  destruct (Nat.le_gt_cases (egcd_calls e ((p - 1) * (q - 1))) frames)
    as [Hroom | Hshort].
  - left.
    destruct (invmod_positive_modulus frames e ((p - 1) * (q - 1))
                ltac:(lia) Hroom)
      as [-> | (d & -> & Hd)]; cbn [bind]; [eexists; reflexivity | ].
    rewrite pow3_nonneg by lia. cbn [bind].
    pose proof (Z.mod_pos_bound (c ^ d) n ltac:(lia)) as Hm.
    destruct (long_to_bytes_nonneg (c ^ d mod n) ltac:(lia)) as [pt ->].
    cbn [bind]. eexists; reflexivity.
  - right. rewrite (invmod_overflow frames e _ Hshort). cbn [bind].
    split; [reflexivity | ]. exists p, q.
    split; [reflexivity | ]. split; [exact Hphi | exact Hshort].
Qed.

Lemma try_factor_2 (rnd : nat -> Z) : try_factor rnd 2 = Ok (Some (2, 1)).
Proof.
  assert (Hpm1 : forall B, 2 <= B -> pollards_p_minus_1 2 B = Ok None).
  { intros B HB. rewrite pollards_p_minus_1_value by lia.
    rewrite (pm1_acc_stable 2 2 (Z.to_nat B)) by (lia || reflexivity).
    reflexivity. }
  unfold try_factor, pm1_bounds. cbn [try_bounds].
  rewrite !Hpm1 by lia. reflexivity.
Qed.

(** On every modulus [n > 2] the service either returns a value (the
    bytes of a candidate plaintext or [None]) or raises
    [RecursionError], and the latter only on the factoring path, when
    [egcd] runs out of stack on the exponent and the totient of the pair
    that [try_factor] found.  Room for twice the bit length of [n], plus
    three, nested calls rules that out, whatever the exponent, the
    ciphertext and the random draws are.  On [n = 2] rho's fast path
    yields the pair [(2, 1)], the totient is 0, and with [e = 1] the
    reduction [x % 0] of [invmod] raises [ZeroDivisionError]. *)
Theorem recover_and_decrypt_returns
  (frames : nat) (rnd : nat -> Z) (e n c : Z) :
  (2 < n ->
   (exists r, recover_and_decrypt frames rnd e n c = Ok r) \/
   (recover_and_decrypt frames rnd e n c = Raise RecursionError /\
    wiener_attack e n = Ok None /\
    exists p q,
      try_factor rnd n = Ok (Some (p, q)) /\
      (frames < egcd_calls e ((p - 1) * (q - 1)))%nat)) /\
  (2 < n -> (2 * Z.to_nat (Z.log2 n + 1) + 3 <= frames)%nat ->
   exists r, recover_and_decrypt frames rnd e n c = Ok r) /\
  ((1 <= frames)%nat ->
   recover_and_decrypt frames rnd 1 2 c = Raise ZeroDivisionError).
Proof.
  assert (Hcases : 2 < n ->
    (exists r, recover_and_decrypt frames rnd e n c = Ok r) \/
    (recover_and_decrypt frames rnd e n c = Raise RecursionError /\
     wiener_attack e n = Ok None /\
     exists p q,
       try_factor rnd n = Ok (Some (p, q)) /\ 0 < (p - 1) * (q - 1) < n /\
       (frames < egcd_calls e ((p - 1) * (q - 1)))%nat)).
  { intros Hn.
    destruct (wiener_attack_returns e n ltac:(lia)) as [[d | ] Hw].
    - destruct (recover_wiener_path frames rnd e n c d ltac:(lia) Hw)
        as (pt & _ & ->).
      left. eexists; reflexivity.
    - rewrite (recover_without_wiener frames rnd e n c Hw).
      destruct (decrypt_by_factoring_outcome frames rnd e n c Hn)
        as [Hret | [Hraise Hwhy]]; [left; exact Hret | right].
      split; [exact Hraise | ]. split; [exact Hw | exact Hwhy]. }
  split; [ | split].
  - intros Hn.
    destruct (Hcases Hn) as [Hret | (Hraise & Hw & p & q & Hfac & _ & Hshort)];
      [left; exact Hret | right].
    split; [exact Hraise | ]. split; [exact Hw | ].
    exists p, q. split; [exact Hfac | exact Hshort].
  - intros Hn Hroom.
    destruct (Hcases Hn) as [Hret | (_ & _ & p & q & _ & Hphi & Hshort)];
      [exact Hret | exfalso].
    pose proof (egcd_calls_bound e ((p - 1) * (q - 1))) as Hbound.
    rewrite Z.abs_eq in Hbound by lia.
    pose proof (Z.log2_le_mono ((p - 1) * (q - 1)) n ltac:(lia)) as Hlog.
    pose proof (Z.log2_nonneg ((p - 1) * (q - 1))) as Hlog0.
    lia.
  - intros Hroom. rewrite recover_without_wiener by reflexivity.
    unfold decrypt_by_factoring. rewrite try_factor_2.
    destruct frames as [| frames]; [lia | reflexivity].
Qed.

Lemma recover_and_decrypt_returns_witness :
  2 < 3233 /\ (2 * Z.to_nat (Z.log2 3233 + 1) + 3 <= recursion_limit)%nat /\
  exists r, recover_and_decrypt recursion_limit (fun _ => 0) 17 3233 2790 = Ok r.
Proof.
  assert (Hroom :
    (2 * Z.to_nat (Z.log2 3233 + 1) + 3 <= recursion_limit)%nat).
  { apply Nat.leb_le. vm_compute. reflexivity. }
  split; [lia | ]. split; [exact Hroom | ].
  apply (proj1 (proj2 (recover_and_decrypt_returns recursion_limit
                         (fun _ => 0) 17 3233 2790)));
    [lia | exact Hroom].
Defined.

(** For every modulus [n > 2], not only a product of two primes, a pair
    [(p, q)] returned by [try_factor] is a proper factorization:
    [p * q = n] with both factors strictly between 1 and [n].  On
    [n = 2] the pair is [(2, 1)]. *)
Theorem try_factor_proper (rnd : nat -> Z) (n p q : Z) :
  (2 < n -> try_factor rnd n = Ok (Some (p, q)) ->
   p * q = n /\ 1 < p < n /\ 1 < q < n) /\
  try_factor rnd 2 = Ok (Some (2, 1)).
Proof.
  split; [ | apply try_factor_2].
  intros Hn Hfac.
  destruct (try_factor_sound rnd n p q Hn Hfac) as [Hpq Hp].
  split; [exact Hpq | ]. split; [exact Hp | nia].
Qed.

Lemma try_factor_proper_witness :
  (2 < 3233 /\ try_factor (fun _ => 0) 3233 = Ok (Some (53, 61))) /\
  53 * 61 = 3233 /\ 1 < 53 < 3233 /\ 1 < 61 < 3233.
Proof.
  split; [split; [lia | exact try_factor_3233] | ].
  apply (proj1 (try_factor_proper (fun _ => 0) 3233 53 61));
    [lia | exact try_factor_3233].
Defined.

(** On an odd prime modulus every factorization method fails: p-1 at
    any bound, rho with any random draws and Fermat with any cap return
    [None], and so does the orchestrator. *)
Theorem prime_modulus_exhausts (rnd : nat -> Z) (n B cap : Z) :
  Z.prime n -> 2 < n ->
  pollards_p_minus_1 n B = Ok None /\
  pollards_rho rnd n = Ok None /\
  fermat_factor n cap = Ok None /\
  try_factor rnd n = Ok None.
Proof.
  intros Hp Hn.
  assert (H3 : 3 <= n) by lia. assert (H0 : 0 <= n) by lia.
  split; [ | split; [ | split]].
  - destruct (pollards_p_minus_1_returns n B ltac:(lia)) as [[d | ] Hrun];
      [ | exact Hrun].
    exfalso. destruct (pollards_p_minus_1_sound n B d Hrun) as [Hrange Hdiv].
    apply (prime_no_proper_divisor n d Hp Hrange Hdiv).
  - destruct (pollards_rho_returns rnd n (or_intror H3)) as [[g | ] Hrun];
      [ | exact Hrun].
    exfalso. destruct (pollards_rho_sound rnd n g Hn Hrun) as [Hrange Hdiv].
    apply (prime_no_proper_divisor n g Hp Hrange Hdiv).
  - destruct (fermat_factor_returns n cap (or_intror H0)) as [[f | ] Hrun];
      [ | exact Hrun].
    exfalso. destruct (fermat_factor_sound n cap f Hn Hrun) as [Hrange Hdiv].
    apply (prime_no_proper_divisor n f Hp Hrange Hdiv).
  - apply try_factor_prime; assumption.
Qed.

Lemma prime_modulus_exhausts_witness :
  (Z.prime 7 /\ 2 < 7) /\
  pollards_p_minus_1 7 100000 = Ok None /\
  pollards_rho (fun _ => 0) 7 = Ok None /\
  fermat_factor 7 1000000 = Ok None /\
  try_factor (fun _ => 0) 7 = Ok None.
Proof.
  assert (H7 : Z.prime 7) by (apply prime_by_trial_sound; reflexivity).
  split; [split; [exact H7 | lia] | ].
  apply (prime_modulus_exhausts (fun _ => 0) 7 100000 1000000 H7). lia.
Defined.

(** ** What the factorization methods are guaranteed to find *)

Lemma fermat_accepts_square_le (n a f : Z) :
  fermat_accepts n a f -> f * f <= n.
Proof. intros (b & Hb & _ & Hf & Hpq & Hrange). subst f. nia. Qed.

Lemma fermat_midpoint_accepted (p q : Z) :
  1 < p <= q -> p mod 2 = 1 -> q mod 2 = 1 ->
  fermat_accepts (p * q) ((p + q) / 2) p.
Proof.
  intros Hpq Hp Hq.
  pose proof (Z.div_mod p 2 ltac:(lia)) as Hp2.
  pose proof (Z.div_mod q 2 ltac:(lia)) as Hq2.
  rewrite Hp in Hp2. rewrite Hq in Hq2.
  set (u := p / 2) in *. set (v := q / 2) in *.
  assert (Hmid : (p + q) / 2 = u + v + 1).
  { replace (p + q) with ((u + v + 1) * 2) by lia. apply Z.div_mul. lia. }
  rewrite Hmid. exists (v - u). repeat split; nia.
Qed.

Lemma fermat_close_factors (p q cap : Z) :
  1 < p <= q -> p mod 2 = 1 -> q mod 2 = 1 ->
  (p + q) / 2 - Z.sqrt (p * q) < cap ->
  exists f, fermat_factor (p * q) cap = Ok (Some f) /\
            1 < f /\ f * f <= p * q /\ (f | p * q).
Proof.
  intros Hpq Hp Hq Hcap.
  assert (Hn : 2 < p * q) by nia.
  assert (Hodd : (p * q) mod 2 <> 0).
  { rewrite Z.mul_mod, Hp, Hq by lia. discriminate. }
  pose proof (fermat_midpoint_accepted p q Hpq Hp Hq) as Hmid.
  pose proof (fermat_start (p * q) ltac:(lia)) as Hstart. cbv zeta in Hstart.
  set (a0 := if Z.sqrt (p * q) * Z.sqrt (p * q) <? p * q
             then Z.sqrt (p * q) + 1 else Z.sqrt (p * q)) in *.
  destruct Hstart as (Ha0 & Hsq & Hleast).
  assert (Hle : a0 <= (p + q) / 2).
  { destruct Hmid as (b & Hb & Hbb & _).
    apply Hleast; [apply Z.div_pos; lia | nia]. }
  assert (Hlo : Z.sqrt (p * q) <= a0).
  { unfold a0. destruct (Z.sqrt (p * q) * Z.sqrt (p * q) <? p * q); lia. }
  assert (Hnn : 0 <= p * q) by lia.
  destruct (fermat_factor_returns (p * q) cap (or_intror Hnn))
    as [[f | ] Hrun].
  - exists f. split; [exact Hrun | ].
    destruct (fermat_factor_sound (p * q) cap f Hn Hrun) as [Hrange Hdiv].
    split; [lia | ]. split; [ | exact Hdiv].
    rewrite (fermat_factor_odd (p * q) cap Hodd) in Hrun by lia.
    apply fermat_loop_some in Hrun. destruct Hrun as (i & _ & Hacc & _).
    apply (fermat_accepts_square_le _ _ _ Hacc).
  - exfalso. rewrite (fermat_factor_odd (p * q) cap Hodd) in Hrun by lia.
    fold a0 in Hrun.
    apply (proj1 (fermat_loop_none (p * q) (Z.to_nat cap) a0) Hrun
             (Z.to_nat ((p + q) / 2 - a0)) p); [lia | ].
    rewrite Z2Nat.id by lia.
    replace (a0 + ((p + q) / 2 - a0)) with ((p + q) / 2) by lia.
    exact Hmid.
Qed.

(** Fermat's method finds close factors: for odd [p <= q] greater than
    1, once the cap exceeds the distance from the square root of [p * q]
    to the midpoint [(p + q) / 2], [fermat_factor] returns a proper
    divisor [f] of [p * q], and it is the smaller one of its pair
    ([f * f <= p * q]). *)
Theorem fermat_finds_close_factors (p q cap : Z) :
  1 < p <= q -> p mod 2 = 1 -> q mod 2 = 1 ->
  (p + q) / 2 - Z.sqrt (p * q) < cap ->
  exists f, fermat_factor (p * q) cap = Ok (Some f) /\
            1 < f /\ f * f <= p * q /\ (f | p * q).
Proof. apply fermat_close_factors. Qed.

Lemma fermat_finds_close_factors_witness :
  (1 < 53 <= 61 /\ 53 mod 2 = 1 /\ 61 mod 2 = 1 /\
   (53 + 61) / 2 - Z.sqrt (53 * 61) < 100) /\
  exists f, fermat_factor (53 * 61) 100 = Ok (Some f) /\
            1 < f /\ f * f <= 53 * 61 /\ (f | 53 * 61).
Proof.
  assert (Hpq : 1 < 53 <= 61) by lia.
  assert (Hcap : (53 + 61) / 2 - Z.sqrt (53 * 61) < 100) by reflexivity.
  split; [exact (conj Hpq (conj eq_refl (conj eq_refl Hcap))) | ].
  apply (fermat_finds_close_factors 53 61 100 Hpq eq_refl eq_refl Hcap).
Defined.

Lemma mod_of_divisor_mod (x n P : Z) :
  0 < P -> 0 < n -> (P | n) -> (x mod n) mod P = x mod P.
Proof.
  intros HP Hn [k Hk].
  rewrite (Z.mod_eq x n) by lia. rewrite Hk.
  replace (x - k * P * (x / (k * P))) with (x + (- (k * (x / (k * P)))) * P)
    by ring.
  apply Z.mod_add. lia.
Qed.

Lemma pm1_acc_one_mod_prime (n P : Z) (J : nat) :
  0 < n -> Z.prime P -> P <> 2 -> (P | n) -> (2 <= J)%nat ->
  (P - 1 | Z.of_nat (fact J)) ->
  (P | pm1_acc n J - 1).
Proof.
  intros Hn HP HP2 HPn HJ [k Hk].
  pose proof (Z.prime_ge_2 P HP) as Hge.
  apply Z.mod_divide; [lia | ].
  rewrite pm1_acc_factorial by lia.
  rewrite Zminus_mod, mod_of_divisor_mod by (lia || assumption).
  assert (Hk0 : 0 <= k).
  { pose proof (Nat2Z.is_nonneg (fact J)). nia. }
  rewrite Hk, Z.mul_comm, Z.pow_mul_r by lia.
  rewrite <- mod_pow_base by lia.
  rewrite Z.fermat_nz; [ | exact HP | ].
  - rewrite Z.pow_1_l by lia. rewrite (Z.mod_1_l P) by lia.
    rewrite Z.sub_diag. apply Z.mod_0_l. lia.
  - rewrite Z.mod_small by lia. discriminate.
Qed.

(** Pollard's p-1 catches a smooth prime factor: when an odd prime [P]
    divides [n] and [P - 1] divides [B!], [P] divides every factor that
    [pollards_p_minus_1 n B] returns, and the method can only fail
    because the accumulator is 1 modulo all of [n]. *)
Theorem pollards_p_minus_1_smooth_factor (n B P : Z) :
  1 < n -> 2 <= B ->
  Z.prime P -> P <> 2 -> (P | n) ->
  (P - 1 | Z.of_nat (fact (Z.to_nat B))) ->
  (forall d, pollards_p_minus_1 n B = Ok (Some d) -> (P | d)) /\
  (pollards_p_minus_1 n B = Ok None ->
   (n | 2 ^ Z.of_nat (fact (Z.to_nat B)) mod n - 1)).
Proof.
  intros Hn HB HP HP2 HPn Hsmooth.
  pose proof (Z.prime_ge_2 P HP) as Hge.
  pose proof (pm1_acc_one_mod_prime n P (Z.to_nat B) ltac:(lia) HP HP2 HPn
                ltac:(lia) Hsmooth) as HPA.
  assert (HPg : (P | Z.gcd (pm1_acc n (Z.to_nat B) - 1) n))
    by (apply Z.gcd_greatest; assumption).
  rewrite <- (pm1_acc_factorial n (Z.to_nat B)) by lia.
  rewrite pollards_p_minus_1_value by lia. cbv zeta.
  set (g := Z.gcd (pm1_acc n (Z.to_nat B) - 1) n) in *.
  assert (Hgn : (g | n)) by apply Z.gcd_divide_r.
  assert (Hg0 : 0 <= g) by apply Z.gcd_nonneg.
  assert (Hg1 : 1 < g).
  { destruct HPg as [k Hk]. destruct (Z.eq_dec g 0) as [Hz | Hz].
    - unfold g in Hz. apply Z.gcd_eq_0_r in Hz. lia.
    - assert (Hk1 : 1 <= k).
      { destruct (Z.le_gt_cases 1 k) as [? | Hk0]; [assumption | ].
        exfalso. assert (k * P <= 0) by nia. lia. }
      nia. }
  assert (Hgle : g <= n) by (apply Z.divide_pos_le; [lia | exact Hgn]).
  destruct (Z.ltb_spec 1 g); [ | lia].
  destruct (Z.ltb_spec g n) as [Hlt | Hge']; cbn [andb].
  - split; [ | discriminate].
    intros d Hd. inversion Hd; subst d. exact HPg.
  - split; [discriminate | ].
    intros _. assert (g = n) by lia.
    rewrite <- H0 at 1. apply Z.gcd_divide_l.
Qed.

Lemma pollards_p_minus_1_smooth_factor_witness :
  (1 < 15 /\ 2 <= 2 /\ Z.prime 3 /\ 3 <> 2 /\ (3 | 15) /\
   (3 - 1 | Z.of_nat (fact (Z.to_nat 2)))) /\
  pollards_p_minus_1 15 2 = Ok (Some 3) /\ (3 | 3).
Proof.
  assert (Hdiv : (3 | 15)) by (exists 5; reflexivity).
  assert (Hsmooth : (3 - 1 | Z.of_nat (fact (Z.to_nat 2))))
    by (exists 1; reflexivity).
  split.
  - split; [lia | ]. split; [lia | ]. split; [exact Z.prime_3 | ].
    split; [discriminate | ]. split; assumption.
  - split; [reflexivity | ].
    apply (proj1 (pollards_p_minus_1_smooth_factor 15 2 3 ltac:(lia) ltac:(lia)
                   Z.prime_3 ltac:(discriminate) Hdiv Hsmooth) 3).
    reflexivity.
Defined.

Lemma odd_prime_mod_2 (P : Z) : Z.prime P -> 2 < P -> P mod 2 = 1.
Proof.
  intros HP Hgt. pose proof (Z.mod_pos_bound P 2 ltac:(lia)) as Hr.
  destruct (Z.eq_dec (P mod 2) 0) as [Hz | Hnz]; [ | lia].
  exfalso. apply Z.mod_divide in Hz; [ | lia].
  apply (Z.divide_prime_prime 2 P Z.prime_2 HP) in Hz. lia.
Qed.

(** For odd primes [P < Q] that are close enough for Fermat's cap of
    1000000, the service is correct whatever the random draws of rho
    are: when Wiener's attack finds nothing and the stack has room for
    the nested calls of [egcd] on the exponent and the totient, it
    returns the bytes of the plaintext. *)
Theorem recover_correct_close_primes
  (frames : nat) (rnd : nat -> Z) (P Q e m : Z) :
  Z.prime P -> Z.prime Q -> 2 < P < Q ->
  (P + Q) / 2 - Z.sqrt (P * Q) < 1000000 ->
  0 < e -> Z.gcd e ((P - 1) * (Q - 1)) = 1 ->
  (egcd_calls e ((P - 1) * (Q - 1)) <= frames)%nat ->
  0 <= m < P * Q ->
  wiener_attack e (P * Q) = Ok None ->
  exists pt,
    long_to_bytes m = Ok pt /\
    recover_and_decrypt frames rnd e (P * Q) (m ^ e mod (P * Q))
    = Ok (Some pt).
Proof.
  intros HP HQ Hord Hclose He Hgcd Hroom Hm Hw.
  destruct (fermat_close_factors P Q fermat_cap ltac:(lia)
              (odd_prime_mod_2 P HP ltac:(lia))
              (odd_prime_mod_2 Q HQ ltac:(lia)) Hclose) as (f & Hf & _).
  destruct (try_factor_succeeds_with_fermat rnd (P * Q) f ltac:(nia) Hf)
    as (p & q & Hfac).
  rewrite (recover_without_wiener frames rnd e (P * Q) _ Hw).
  apply (decrypt_by_factoring_correct frames rnd P Q e m p q);
    try assumption; lia.
Qed.

Lemma recover_correct_close_primes_witness :
  (Z.prime 53 /\ Z.prime 61 /\ 2 < 53 < 61 /\
   (53 + 61) / 2 - Z.sqrt (53 * 61) < 1000000 /\
   0 < 17 /\ Z.gcd 17 ((53 - 1) * (61 - 1)) = 1 /\
   (egcd_calls 17 ((53 - 1) * (61 - 1)) <= recursion_limit)%nat /\
   0 <= 65 < 53 * 61 /\
   wiener_attack 17 (53 * 61) = Ok None) /\
  exists pt,
    long_to_bytes 65 = Ok pt /\
    recover_and_decrypt recursion_limit (fun i => Z.of_nat i) 17 (53 * 61)
      (65 ^ 17 mod (53 * 61)) = Ok (Some pt).
Proof.
  assert (H61 : Z.prime 61) by (apply prime_by_trial_sound; reflexivity).
  assert (H53 : Z.prime 53) by (apply prime_by_trial_sound; reflexivity).
  assert (Hord : 2 < 53 < 61) by lia.
  assert (Hclose : (53 + 61) / 2 - Z.sqrt (53 * 61) < 1000000) by reflexivity.
  assert (Hm : 0 <= 65 < 53 * 61) by (split; [discriminate | reflexivity]).
  assert (Hroom : (egcd_calls 17 ((53 - 1) * (61 - 1)) <= recursion_limit)%nat).
  { apply Nat.leb_le. vm_compute. reflexivity. }
  split.
  - split; [exact H53 | ]. split; [exact H61 | ]. split; [exact Hord | ].
    split; [exact Hclose | ]. split; [reflexivity | ].
    split; [reflexivity | ]. split; [exact Hroom | ].
    split; [exact Hm | reflexivity].
  - apply (recover_correct_close_primes recursion_limit (fun i => Z.of_nat i)
             53 61 17 65
             H53 H61 Hord Hclose ltac:(reflexivity) eq_refl Hroom Hm eq_refl).
Defined.

(** ** Every attempt of rho ends with a divisor *)

(** For [n > 1], whatever the seed [y] and the offset [c] are, the loops
    of one attempt end and leave a [g] with [1 < g <= n] that divides
    [n]; the attempt is discarded only when [g = n]. *)
Theorem rho_attempt_divisor (n y c : Z) :
  1 < n ->
  exists g, rho_attempt n y c = Ok g /\ 1 < g <= n /\ (g | n).
Proof.
  intros Hn. unfold rho_attempt.
  change (Z.shiftl 1 12) with 4096.
  destruct (brent_rounds_exit c n 4096 Hn ltac:(lia)
              (Z.to_nat (Z.log2_up (n + 2))) (mkBrent y 1 1 1 y y))
    as (st & Hrun & Hne & Hg & lim & q0 & Hlim & Hq0 & Hbatch).
  - split; [cbn; lia | ]. split; [apply Z.gcd_1_l | ].
    exists y, 0%nat. split; [reflexivity | cbn; lia].
  - reflexivity.
  - cbn [b_r]. pose proof (Z.log2_up_spec (n + 2) ltac:(lia)) as [_ Hup].
    pose proof (Z.log2_up_nonneg (n + 2)).
    rewrite Z2Nat.id by lia. lia.
  - unfold rho_rounds_budget. rewrite Hrun. cbn [bind].
    assert (Hdivides : forall g, (g | n) -> 0 <= g -> g <= n).
    { intros g Hdiv _. apply Z.divide_pos_le; [lia | exact Hdiv]. }
    destruct (Z.eqb_spec (b_g st) n) as [Heq | Hneq].
    + destruct (rho_fallback_finds c n Hn (b_x st) lim (Z.to_nat 4096)
                  (b_ys st) q0 Hlim Hq0) as (g & Hfb & Hg1 & Hdiv).
      { rewrite Hbatch. cbn [snd]. rewrite <- Hg. exact Hne. }
      exists g. split; [exact Hfb | ]. split; [ | exact Hdiv].
      split; [exact Hg1 | apply Hdivides; [exact Hdiv | lia]].
    + exists (b_g st). split; [reflexivity | ].
      assert (Hdiv : (b_g st | n)) by (rewrite Hg; apply Z.gcd_divide_r).
      assert (Hnn : 0 <= b_g st) by (rewrite Hg; apply Z.gcd_nonneg).
      assert (Hnz : b_g st <> 0).
      { rewrite Hg. intros Hz. apply Z.gcd_eq_0_r in Hz. lia. }
      split; [ | exact Hdiv].
      split; [lia | apply Hdivides; assumption].
Qed.

Lemma rho_attempt_divisor_witness :
  1 < 3233 /\
  exists g, rho_attempt 3233 1 1 = Ok g /\ 1 < g <= 3233 /\ (g | 3233).
Proof.
  split; [lia | ]. apply (rho_attempt_divisor 3233 1 1). lia.
Defined.

(** ** Limits of p-1 and of Fermat's method *)

(** Pollard's p-1 cannot recover from a collapsed accumulator: when [n]
    divides [2 ^ (B0!) - 1], the method fails at [B0] and at every larger
    bound, so escalating the bound is of no use. *)
Theorem pollards_p_minus_1_collapse (n B0 B : Z) :
  1 < n -> 2 <= B0 <= B ->
  (n | 2 ^ Z.of_nat (fact (Z.to_nat B0)) - 1) ->
  pollards_p_minus_1 n B = Ok None.
Proof.
  intros Hn HB Hdiv.
  assert (Hone : pm1_acc n (Z.to_nat B0) = 1).
  { rewrite pm1_acc_factorial by lia.
    apply Z.mod_divide in Hdiv; [ | lia].
    apply Z.cong_iff_0 in Hdiv. rewrite Hdiv. apply Z.mod_1_l. exact Hn. }
  rewrite pollards_p_minus_1_value by lia.
  rewrite (pm1_acc_stable n (Z.to_nat B0) (Z.to_nat B)); [ | lia | lia | ].
  - rewrite Hone. cbv zeta. rewrite Z.sub_diag, Z.gcd_0_l, Z.abs_eq by lia.
    rewrite Z.ltb_irrefl, andb_false_r. reflexivity.
  - rewrite Hone. apply Z.mod_1_l. exact Hn.
Qed.

Lemma pollards_p_minus_1_collapse_witness :
  (1 < 15 /\ 2 <= 4 <= 100000 /\ (15 | 2 ^ Z.of_nat (fact (Z.to_nat 4)) - 1)) /\
  pollards_p_minus_1 15 100000 = Ok None.
Proof.
  assert (Hdiv : (15 | 2 ^ Z.of_nat (fact (Z.to_nat 4)) - 1))
    by (exists 1118481; reflexivity).
  split; [split; [lia | split; [lia | exact Hdiv]] | ].
  apply (pollards_p_minus_1_collapse 15 4 100000 ltac:(lia) ltac:(lia) Hdiv).
Defined.

Lemma semiprime_not_square (P Q s : Z) :
  Z.prime P -> Z.prime Q -> P <> Q -> s * s <> P * Q.
Proof.
  intros HP HQ Hne Hsq.
  pose proof (Z.prime_ge_2 P HP) as HP2.
  assert (Hdiv : (P | s * s)) by (exists Q; lia).
  apply Z.divide_prime_mul in Hdiv; [ | exact HP].
  assert (HPs : (P | s)) by (destruct Hdiv; assumption).
  destruct HPs as [k Hk]. subst s.
  apply Hne. apply (Z.divide_prime_prime P Q HP HQ).
  exists (k * k). nia.
Qed.

(** On a product of two odd primes [P < Q] the only value that Fermat's
    loop accepts is the midpoint [(P + Q) / 2], with the factor [P]. *)
Lemma fermat_accepts_semiprime (P Q a f : Z) :
  Z.prime P -> Z.prime Q -> 2 < P < Q ->
  fermat_accepts (P * Q) a f -> a = (P + Q) / 2 /\ f = P.
Proof.
  intros HP HQ Hord (b & Hb & _ & Hf & Hpq & Hrange).
  destruct (factor_pair_of_semiprime P Q f (a + b) HP HQ
              ltac:(rewrite Hf; exact Hpq) Hrange) as [[HfP Hab] | [HfQ Hab]].
  - split; [ | exact HfP].
    replace (P + Q) with (a * 2) by lia. rewrite Z.div_mul; lia.
  - exfalso. lia.
Qed.

(** On a product of two odd primes [P < Q], Fermat's method succeeds
    exactly when the cap reaches the distance from the square root of
    the modulus to the midpoint [(P + Q) / 2]; it then returns the
    smaller prime, and it returns [None] otherwise. *)
Theorem fermat_factor_semiprime (P Q cap : Z) :
  Z.prime P -> Z.prime Q -> 2 < P < Q ->
  (fermat_factor (P * Q) cap = Ok (Some P) <->
   (P + Q) / 2 - Z.sqrt (P * Q) <= cap) /\
  (fermat_factor (P * Q) cap = Ok None <->
   cap < (P + Q) / 2 - Z.sqrt (P * Q)) /\
  (forall f, fermat_factor (P * Q) cap = Ok (Some f) -> f = P).
Proof.
  intros HP HQ Hord.
  pose proof (odd_prime_mod_2 P HP ltac:(lia)) as HPodd.
  pose proof (odd_prime_mod_2 Q HQ ltac:(lia)) as HQodd.
  assert (Hn : 2 < P * Q) by nia.
  assert (Hodd : (P * Q) mod 2 <> 0).
  { rewrite Z.mul_mod, HPodd, HQodd by lia. discriminate. }
  pose proof (fermat_midpoint_accepted P Q ltac:(lia) HPodd HQodd) as Hmid.
  pose proof (Z.sqrt_spec (P * Q) ltac:(lia)) as [Hslo Hshi].
  pose proof (Z.sqrt_nonneg (P * Q)) as Hs0.
  pose proof (semiprime_not_square P Q (Z.sqrt (P * Q)) HP HQ ltac:(lia)) as Hns.
  rewrite (fermat_factor_odd (P * Q) cap Hodd) by lia.
  destruct (Z.ltb_spec (Z.sqrt (P * Q) * Z.sqrt (P * Q)) (P * Q)) as [_ | Hge];
    [ | lia].
  set (a0 := Z.sqrt (P * Q) + 1).
  assert (Hle : a0 <= (P + Q) / 2).
  { destruct Hmid as (b & Hb & Hbb & _).
    assert (H0 : 0 <= (P + Q) / 2) by (apply Z.div_pos; lia).
    unfold a0. destruct (Z.le_gt_cases ((P + Q) / 2) (Z.sqrt (P * Q)));
      [exfalso; nia | lia]. }
  assert (Honly : forall i f, fermat_accepts (P * Q) (a0 + Z.of_nat i) f ->
                              Z.of_nat i = (P + Q) / 2 - a0 /\ f = P).
  { intros i f Hacc.
    destruct (fermat_accepts_semiprime P Q _ f HP HQ Hord Hacc) as [Ha Hf].
    split; [lia | exact Hf]. }
  assert (Hat : fermat_accepts (P * Q)
                  (a0 + Z.of_nat (Z.to_nat ((P + Q) / 2 - a0))) P).
  { rewrite Z2Nat.id by lia.
    replace (a0 + ((P + Q) / 2 - a0)) with ((P + Q) / 2) by lia. exact Hmid. }
  split; [ | split].
  - rewrite fermat_loop_some. split.
    + intros (i & Hi & Hacc & _). destruct (Honly i P Hacc) as [Hidx _].
      unfold a0 in *. lia.
    + intros Hcap. exists (Z.to_nat ((P + Q) / 2 - a0)).
      split; [unfold a0 in *; lia | ]. split; [exact Hat | ].
      intros j f Hj Hacc. destruct (Honly j f Hacc) as [Hidx _]. lia.
  - rewrite fermat_loop_none. split.
    + intros Hnone.
      destruct (Z.lt_ge_cases cap ((P + Q) / 2 - Z.sqrt (P * Q)))
        as [? | Hcap]; [assumption | ].
      exfalso.
      apply (Hnone (Z.to_nat ((P + Q) / 2 - a0)) P);
        [unfold a0 in *; lia | exact Hat].
    + intros Hcap i f Hi Hacc. destruct (Honly i f Hacc) as [Hidx _].
      unfold a0 in *. lia.
  - intros f Hrun. apply fermat_loop_some in Hrun.
    destruct Hrun as (i & _ & Hacc & _). apply (Honly i f Hacc).
Qed.

Lemma fermat_factor_semiprime_witness :
  (Z.prime 53 /\ Z.prime 61 /\ 2 < 53 < 61) /\
  (fermat_factor (53 * 61) 1 = Ok (Some 53) <->
   (53 + 61) / 2 - Z.sqrt (53 * 61) <= 1) /\
  (fermat_factor (53 * 61) 1 = Ok None <->
   1 < (53 + 61) / 2 - Z.sqrt (53 * 61)) /\
  (forall f, fermat_factor (53 * 61) 1 = Ok (Some f) -> f = 53).
Proof.
  assert (H61 : Z.prime 61) by (apply prime_by_trial_sound; reflexivity).
  assert (H53 : Z.prime 53) by (apply prime_by_trial_sound; reflexivity).
  assert (Hord : 2 < 53 < 61) by lia.
  split; [exact (conj H53 (conj H61 Hord)) | ].
  apply (fermat_factor_semiprime 53 61 1 H53 H61 Hord).
Defined.
